(** * msppy: sample-path model and Monte Carlo policy evaluation

    A shallow embedding of the probability model of [msppy/msp.py]
    ([MSLP._set_up_probability], [MSLP._enumerate_sample_paths],
    [MSLP._compute_weight_sample_path],
    [MSLP._compute_current_weight_sample_path]), of
    [MSLP._get_forward_solution], and of the evaluation engine of
    [msppy/evaluation.py] ([_Evaluation], [Evaluation], [EvaluationTrue]).

    Conventions of the embedding.
    - Probabilities, policy values, bounds and the other floats of the
      engine are idealised as exact rationals ([Q], compared with [==]);
      the rounding of their arithmetic is outside the model.
    - A division by zero is modelled as the operands make it behave: a
      float of Python's own raises [ZeroDivisionError], a numpy.float64
      returns inf or nan (with a warning) and raises nothing.  The exact
      expected value (a [numpy.dot]) and the ends of the confidence
      interval (computed by [compute_CI] with numpy) are numpy.float64;
      the deterministic bound and the policy values are floats of
      Python's own.
    - The trajectories of a continuous Markovian process and the Markov
      states they are matched to are arrays of float64: binary64 floats
      (Rocq's primitive floats), whose differences and products round as
      IEEE 754 prescribes, because the matched index depends on the
      rounding.  The order in which [numpy.sum] adds the terms of a row
      is numpy's own and [numpy.sum] is a parameter.
    - Counts of sample paths are exact natural numbers; numpy computes
      them in 64-bit integers, which agree with them below 2^63.
    - A Python exception is a value of [exn]; fallible code returns
      [result].  Stateful code of the evaluation engine runs in a state
      monad that keeps the state reached when an exception is raised.
    - Sequence indices produced by [range] are natural numbers; a
      subscript out of range raises [IndexError].
    - The code outside the two files is a parameter ([Collaborators]):
      numpy's random state and [numpy.sum], the solver's forward pass,
      [compute_CI] and [allocate_jobs].  The forward pass is taken to
      return; a failing solver is not modelled.  Every call that leaves
      the engine is recorded in the state, in the order it is made.
    - The worker processes of a parallel run are run one after another:
      each works on its own copy of the object with its own random state
      and shares only the array of policy values with the parent.
    - Not modelled: [print], the conversion of the result tables to
      data frames, the back-binarization of an MSIP, and the advance of
      [self.random_state] by the trajectory generator (nothing reads it
      afterwards).  The attribute [n_periodical_stages] of the program,
      which [run] reads but [MSLP.__init__] does not set, is taken to be
      present. *)

From Stdlib Require Import String Bool Arith List ZArith QArith Qabs Lia Lqa.
From Stdlib Require Import Setoid Morphisms FinFun.
From Stdlib Require Import Qround Sorted Floats.
Import ListNotations.

Set Implicit Arguments.

(** ** Exceptions and fallible results

    [UnspecifiedValue] is not a Python exception: it marks the point where
    the source would read an array cell it never initialised. *)

Inductive exn : Type :=
| NotImplementedError
| UnboundLocalError
| ZeroDivisionError
| IndexError
| KeyError
| TypeError
| AttributeError
| ValueError
| UnspecifiedValue.

Inductive result (A : Type) : Type :=
| Ok (a : A)
| Raise (e : exn).

Arguments Ok {A} a.
Arguments Raise {A} e.

Definition rbind {A B} (r : result A) (k : A -> result B) : result B :=
  match r with
  | Ok a => k a
  | Raise e => Raise e
  end.

Declare Scope result_scope.
Delimit Scope result_scope with result.
Notation "x <- c ;; k" := (rbind c (fun x => k))
  (at level 61, c at next level, right associativity) : result_scope.

(** [seq[i]] for a non-negative [i]. *)
Definition subscript {A} (l : list A) (i : nat) : result A :=
  match nth_error l i with
  | Some a => Ok a
  | None => Raise IndexError
  end.

(** A list comprehension [[f x for x in l]] whose body may raise. *)
Fixpoint comprehension {A B} (f : A -> result B) (l : list A) : result (list B) :=
  match l with
  | [] => Ok []
  | x :: xs =>
      (y <- f x ;;
       ys <- comprehension f xs ;;
       Ok (y :: ys))%result
  end.

(** [range(a, b)] and [range(b)]; [range_Z] is [range(b)] for a Python
    integer that may be negative (the range is then empty). *)
Definition range2 (a b : nat) : list nat := seq a (b - a).
Definition range (b : nat) : list nat := seq 0 b.
Definition range_Z (b : Z) : list nat := range (Z.to_nat b).

(** ** Numeric helpers (numpy) *)

(** [numpy.prod] over integers and over floats, [numpy.sum], [numpy.dot]. *)
Definition prod_nat (l : list nat) : nat := fold_right Nat.mul 1%nat l.
Definition prod_Q (l : list Q) : Q := fold_right Qmult 1 l.
Definition sum_Q (l : list Q) : Q := fold_right Qplus 0 l.

(** [itertools.product] applied to the unpacked list [ls]: the last
    position varies fastest. *)
Fixpoint product {A} (ls : list (list A)) : list (list A) :=
  match ls with
  | [] => [[]]
  | l :: rest => flat_map (fun x => map (cons x) (product rest)) l
  end.

(** ** numpy arrays and Python containers used by the evaluation engine *)

(** A two-dimensional array: its declared number of columns and its rows. *)
Record ndarray2 (A : Type) : Type := {
  ncols : nat;
  rows : list (list A)
}.

(** [numpy.zeros((r, c))], [numpy.full((r, c), x)]. *)
Definition full {A} (r c : nat) (x : A) : ndarray2 A :=
  {| ncols := c; rows := repeat (repeat x c) r |}.

Fixpoint list_set {A} (l : list A) (i : nat) (x : A) : list A :=
  match l, i with
  | [], _ => []
  | _ :: t, O => x :: t
  | h :: t, S i' => h :: list_set t i' x
  end.

(** [l[i] = x] on a list or a one-dimensional array. *)
Definition setitem {A} (l : list A) (i : nat) (x : A) : result (list A) :=
  if (i <? length l)%nat then Ok (list_set l i x) else Raise IndexError.

(** [M[:, j] = v]: the column index must exist, and [v] must have one
    entry per row (or a single entry, which numpy broadcasts). *)
Definition set_column {A} (M : ndarray2 A) (j : nat) (v : list A)
  : result (ndarray2 A) :=
  if (j <? ncols M)%nat then
    if (length v =? length (rows M))%nat then
      Ok {| ncols := ncols M;
            rows := map (fun rx => list_set (fst rx) j (snd rx))
                        (combine (rows M) v) |}
    else
      match v with
      | [x] => Ok {| ncols := ncols M;
                     rows := map (fun r => list_set r j x) (rows M) |}
      | _ => Raise ValueError
      end
  else Raise IndexError.

(** A [dict] keyed by names, in insertion order. *)
Definition dict (V : Type) : Type := list (string * V).

Fixpoint dict_get {V} (d : dict V) (k : string) : result V :=
  match d with
  | [] => Raise KeyError
  | (k', v) :: d' => if String.eqb k k' then Ok v else dict_get d' k
  end.

Fixpoint dict_set {V} (d : dict V) (k : string) (v : V) : dict V :=
  match d with
  | [] => [(k, v)]
  | (k', v') :: d' =>
      if String.eqb k k' then (k, v) :: d' else (k', v') :: dict_set d' k v
  end.

(** [{item: v for item in keys}]. *)
Definition dict_from_keys {V} (keys : list string) (v : V) : dict V :=
  fold_left (fun d k => dict_set d k v) keys [].

Definition Qlt_bool (x y : Q) : bool := negb (Qle_bool y x).

(** ** Nearest Markov state (the array operations of
    [EvaluationTrue._compute_sample_path_idx_and_markovian_path])

    The arrays hold float64 values: [float] is the binary64 format, and
    [-] and [*] on it are the correctly rounded IEEE 754 operations that
    numpy applies entry by entry. *)

(** [x - s] on the last axis, with numpy's broadcasting of a length-one
    axis; the shapes are compared row by row. *)
Definition broadcast_sub (x s : list float) : result (list float) :=
  if (length x =? length s)%nat then
    Ok (map (fun ab => fst ab - snd ab)%float (combine x s))
  else
    match s, x with
    | [b], _ => Ok (map (fun a => a - b)%float x)
    | _, [a] => Ok (map (fun b => a - b)%float s)
    | _, _ => Raise ValueError
    end.

(** One entry of [numpy.sum(temp**2, axis=1)]: the squares of the
    differences, added by [numpy.sum]. *)
Definition squared_distance (numpy_sum : list float -> float)
    (x s : list float) : result float :=
  (temp <- broadcast_sub x s ;;
   Ok (numpy_sum (map (fun a => a * a)%float temp)))%result.

(** [numpy.argmin] of one row: the scan keeps the entry seen so far
    unless the next one is not greater or equal (it is smaller, or it is
    a NaN), and stops at a NaN.  The result is the first position of the
    minimum, or of the first NaN if there is one. *)
Fixpoint argmin_from (best_i : nat) (best : float) (i : nat) (l : list float)
  : nat :=
  match l with
  | [] => best_i
  | x :: xs =>
      if is_nan best then best_i
      else if (best <=? x)%float then argmin_from best_i best (S i) xs
      else argmin_from i x (S i) xs
  end.

Definition argmin (l : list float) : result nat :=
  match l with
  | [] => Raise ValueError
  | x :: xs => Ok (argmin_from 0 x 1 xs)
  end.

(** A cell of [numpy.empty]: [None] until it is written.  Reading a cell
    that was never written yields a value the source leaves unspecified;
    the model stops there with [UnspecifiedValue]. *)
Definition read_row (r : list (option float)) : result (list float) :=
  comprehension
    (fun c => match c with Some q => Ok q | None => Raise UnspecifiedValue end) r.

(** [numpy.argmin(dist, axis=1)]. *)
Definition argmin_axis1 (dist : ndarray2 (option float)) : result (list nat) :=
  if (ncols dist =? 0)%nat then Raise ValueError
  else comprehension (fun r => (qs <- read_row r ;; argmin qs)%result) (rows dist).

(** ** msppy/msp.py *)

Module msp.

(** The part of a [StochasticModel] (msppy/sp.py) read by the code below:
    the number of outcomes of the stage and the optional probability
    measure over them. *)
Record StochasticModel : Type := {
  n_samples : nat;
  probability : option (list Q)
}.

(** [self.models[t]] is a single model, or (after the model copies of a
    Markov chain are made) the list of copies, one per Markov state. *)
Inductive stage_models : Type :=
| Single (m : StochasticModel)
| Copies (ms : list StochasticModel).

(** [self.n_Markov_states] is the integer [1] until a Markov chain is
    attached, and the list of per-stage counts afterwards. *)
Inductive Markov_counts : Type :=
| IntOne
| PerStage (ns : list nat).

Inductive process_type : Type :=
| stagewise_independent
| Markov_chain
| Markovian.

Inductive individual_type : Type :=
| original
| discretized
| continuous.

(** The attributes of a program read by the code below.  The generator
    of a continuous Markovian process is an opaque callable
    [f(random_state, size)]; it is kept as a function of the random state
    (an abstract type [RS]) and the size, and returns an array of
    float64 (trajectory, stage, coordinate).  [Markov_states], one array
    of float64 per stage (state, coordinate), and [transition_matrix],
    which exist once a chain is attached, are empty lists before.  [is_MSIP] tells the class of the program and
    [has_bin_stage] whether the attribute [bin_stage] exists. *)
Record MSLP (RS : Type) : Type := {
  T : nat;
  sense : Z;
  db : option Q;
  n_Markov_states : Markov_counts;
  Markov_states : list (list (list float));
  transition_matrix : list (list (list Q));
  Markovian_uncertainty : RS -> Z -> list (list (list float));
  models : list stage_models;
  _type : process_type;
  _individual_type : individual_type;
  is_MSIP : bool;
  has_bin_stage : bool;
  n_periodical_stages : option nat
}.

(** A sample path: a tuple of outcome indices, or in the Markov chain
    case a pair (outcome indices, Markov state indices). *)
Inductive sample_path : Type :=
| Indep (sp : list nat)
| Mixed (sp : list nat) (mp : list nat).

(** The two shapes of the table returned by [_set_up_probability]. *)
Inductive probability_table : Type :=
| ProbIndep (p : list (list Q))
| ProbMixed (p : list (list (list Q))).

(** The attributes of a gurobipy variable read by
    [_get_forward_solution]: its type character (['C'], ['B'], ['I'],
    ...), its value in the current solution and its bounds. *)
Record Var : Type := {
  vtype : string;
  X : Q;
  lb : Q;
  ub : Q
}.

(** A Python number: an [int] or a [float]. *)
Inductive number : Type :=
| py_int (z : Z)
| py_float (q : Q).

Definition number_value (x : number) : Q :=
  match x with
  | py_int z => inject_Z z
  | py_float q => q
  end.

Section MSLP_methods.

Context {RS : Type}.
Implicit Type self : MSLP RS.

Local Open Scope result_scope.

(** [m.probability] if given, else the uniform measure
    [[1.0/m.n_samples for _ in range(m.n_samples)]]. *)
Definition probability_or_uniform (m : StochasticModel) : list Q :=
  match probability m with
  | Some p => p
  | None => map (fun _ => 1 / inject_Z (Z.of_nat (n_samples m))) (range (n_samples m))
  end.

(** [self.models[t]] used as a single model: a list has no attribute
    [probability] / [n_samples]. *)
Definition as_single (sm : stage_models) : result StochasticModel :=
  match sm with
  | Single m => Ok m
  | Copies _ => Raise AttributeError
  end.

(** [self.models[t][k]]: a single model is not subscriptable. *)
Definition copy_at (sm : stage_models) (k : nat) : result StochasticModel :=
  match sm with
  | Single _ => Raise TypeError
  | Copies ms => subscript ms k
  end.

Definition _set_up_probability self : result probability_table :=
  match n_Markov_states self with
  | IntOne =>
      p <- comprehension
             (fun t =>
                sm <- subscript (models self) t ;;
                m <- as_single sm ;;
                Ok (probability_or_uniform m))
             (range (T self)) ;;
      Ok (ProbIndep p)
  | PerStage ns =>
      p <- comprehension
             (fun t =>
                n <- subscript ns t ;;
                comprehension
                  (fun k =>
                     sm <- subscript (models self) t ;;
                     m <- copy_at sm k ;;
                     Ok (probability_or_uniform m))
                  (range n))
             (range (T self)) ;;
      Ok (ProbMixed p)
  end.

(** [_enumerate_sample_paths(self, T)]; the argument is called [t_max]
    here.  Returns the computed count and the list of paths.  The count
    is the exact product; [numpy.prod] computes it in 64-bit integers,
    which give the same number as long as it is below 2^63. *)
Definition _enumerate_sample_paths self (t_max : Z)
  : result (nat * list sample_path) :=
  match n_Markov_states self with
  | IntOne =>
      ns <- comprehension
              (fun t => sm <- subscript (models self) t ;;
                        m <- as_single sm ;;
                        Ok (n_samples m))
              (range_Z (t_max + 1)) ;;
      let n_sample_paths := prod_nat ns in
      let sample_paths := product (map range ns) in
      Ok (n_sample_paths, map Indep sample_paths)
  | PerStage counts =>
      ns <- comprehension
              (fun t => sm <- subscript (models self) t ;;
                        m <- copy_at sm 0 ;;
                        Ok (n_samples m))
              (range_Z (t_max + 1)) ;;
      let n_sample_paths := prod_nat ns in
      let sample_paths := product (map range ns) in
      let n_Markov_state_paths := prod_nat counts in
      ks <- comprehension (fun t => subscript counts t) (range_Z (t_max + 1)) ;;
      let Markov_state_paths := product (map range ks) in
      let n_sample_paths := (n_Markov_state_paths * n_sample_paths)%nat in
      Ok (n_sample_paths,
          map (fun p => Mixed (fst p) (snd p))
              (list_prod sample_paths Markov_state_paths))
  end.

(** A path of the other shape than the program makes a subscript or a
    [len] fail: [TypeError], or [IndexError] on an empty tuple. *)
Definition _compute_weight_sample_path self (path : sample_path) : result Q :=
  probability <- _set_up_probability self ;;
  match probability, path with
  | ProbIndep p, Indep sp =>
      let T := length sp in
      ws <- comprehension
              (fun t => pt <- subscript p t ;;
                        s <- subscript sp t ;;
                        subscript pt s)
              (range T) ;;
      Ok (prod_Q ws)
  | ProbIndep _, Mixed _ _ => Raise TypeError
  | ProbMixed _, Indep [] => Raise IndexError
  | ProbMixed _, Indep (_ :: _) => Raise TypeError
  | ProbMixed p, Mixed sp mp =>
      let T := length sp in
      ts <- comprehension
              (fun t => Pt <- subscript (transition_matrix self) t ;;
                        a <- subscript mp (t - 1) ;;
                        row <- subscript Pt a ;;
                        b <- subscript mp t ;;
                        subscript row b)
              (range2 1 T) ;;
      let weight := prod_Q ts in
      ps <- comprehension
              (fun t => pt <- subscript p t ;;
                        k <- subscript mp t ;;
                        pk <- subscript pt k ;;
                        s <- subscript sp t ;;
                        subscript pk s)
              (range T) ;;
      Ok (weight * prod_Q ps)
  end.

(** [_compute_current_weight_sample_path]: the weight of the last stage
    of a path given the stages before it.  On an empty tuple the index
    [t = -1] makes the subscript of the path raise [IndexError]. *)
Definition _compute_current_weight_sample_path self (path : sample_path)
  : result Q :=
  probability <- _set_up_probability self ;;
  match probability, path with
  | ProbIndep p, Indep sp =>
      match length sp with
      | O => Raise IndexError
      | S t => pt <- subscript p t ;;
               s <- subscript sp t ;;
               subscript pt s
      end
  | ProbIndep p, Mixed _ _ => _ <- subscript p 1 ;; Raise TypeError
  | ProbMixed _, Indep [] => Raise IndexError
  | ProbMixed _, Indep (_ :: _) => Raise TypeError
  | ProbMixed p, Mixed sp mp =>
      match length sp with
      | O => Raise IndexError
      | S t =>
          weight <- (if (0 <? t)%nat then
                       Pt <- subscript (transition_matrix self) t ;;
                       a <- subscript mp (t - 1) ;;
                       row <- subscript Pt a ;;
                       b <- subscript mp t ;;
                       subscript row b
                     else Ok 1) ;;
          pt <- subscript p t ;;
          k <- subscript mp t ;;
          pk <- subscript pt k ;;
          s <- subscript sp t ;;
          r <- subscript pk s ;;
          Ok (weight * r)
      end
  end.

(** Python's [round] of a float to an integer: to the nearest integer,
    a tie going to the even one. *)
Definition round (x : Q) : Z :=
  let f := Qfloor x in
  match Qcompare (x - inject_Z f) (1 # 2) with
  | Lt => f
  | Gt => (f + 1)%Z
  | Eq => if Z.even f then f else (f + 1)%Z
  end.

(** [_get_forward_solution(self, m, t)], given [m.states]: the value of
    every state variable, rounded for a binary or integer variable and
    otherwise brought back between its bounds. *)
Definition _get_forward_solution self (states : list Var) (t : nat)
  : list number :=
  map (fun var =>
         if String.eqb (vtype var) "B" || String.eqb (vtype var) "I" then
           py_int (round (X var))
         else if Qlt_bool (X var) (lb var) then py_float (lb var)
         else if Qlt_bool (ub var) (X var) then py_float (ub var)
         else py_float (X var))
      states.

(** *** The configured probability model

    The invariants that the setup code outside these files establishes
    ([check_Markov_states_and_transition_matrix], the probability setter
    of a stage model, the copies made per Markov state), as decidable
    checks. *)

(** A stage model has at least one outcome and, if a measure is given, it
    has one entry per outcome and sums to one. *)
Definition model_ok (m : StochasticModel) : bool :=
  (1 <=? n_samples m)%nat &&
  match probability m with
  | None => true
  | Some p => (length p =? n_samples m)%nat && Qeq_bool (sum_Q p) 1
  end.

Definition single_ok (sm : stage_models) : bool :=
  match sm with
  | Single m => model_ok m
  | Copies _ => false
  end.

(** Stage-wise independent process: one model per stage. *)
Definition independent_ok self : bool :=
  match n_Markov_states self with
  | IntOne =>
      (length (models self) =? T self)%nat && forallb single_ok (models self)
  | PerStage _ => false
  end.

(** The copies of a stage: one per Markov state, all with the number of
    outcomes of the first. *)
Definition copies_ok (n : nat) (sm : stage_models) : bool :=
  match sm with
  | Copies (m0 :: ms) =>
      (length (m0 :: ms) =? n)%nat &&
      forallb (fun m => model_ok m && (n_samples m =? n_samples m0)%nat)
              (m0 :: ms)
  | _ => false
  end.

Fixpoint stages_ok (ns : list nat) (ms : list stage_models) : bool :=
  match ns, ms with
  | [], [] => true
  | n :: ns', sm :: ms' => copies_ok n sm && stages_ok ns' ms'
  | _, _ => false
  end.

Definition row_ok (n : nat) (row : list Q) : bool :=
  (length row =? n)%nat && Qeq_bool (sum_Q row) 1.

(** A transition matrix from a stage with [n_prev] states to one with
    [n] states: [n_prev] rows of [n] entries, each row summing to one. *)
Definition matrix_ok (n_prev n : nat) (P : list (list Q)) : bool :=
  (length P =? n_prev)%nat && forallb (row_ok n) P.

Fixpoint transitions_ok (n_prev : nat) (ns : list nat)
    (Ps : list (list (list Q))) : bool :=
  match ns, Ps with
  | [], [] => true
  | n :: ns', P :: Ps' => matrix_ok n_prev n P && transitions_ok n ns' Ps'
  | _, _ => false
  end.

(** Markov chain process: stage 0 has one Markov state; the matrix of
    stage 0 is never read. *)
Definition chain_ok self : bool :=
  match n_Markov_states self, transition_matrix self with
  | PerStage (1%nat :: ns'), _ :: Ps =>
      (length (1%nat :: ns') =? T self)%nat &&
      stages_ok (1%nat :: ns') (models self) &&
      transitions_ok 1 ns' Ps
  | _, _ => false
  end.

(** *** The path weight as the specification words it *)

(** The per-stage outcome probabilities of a stage, one list per Markov
    state (a single list when there is no chain). *)
Definition stage_probabilities (sm : stage_models) : list (list Q) :=
  match sm with
  | Single m => [probability_or_uniform m]
  | Copies ms => map probability_or_uniform ms
  end.

(** Product of the stage-wise outcome probabilities. *)
Fixpoint outcome_product (stages : list stage_models) (sp : list nat) : Q :=
  match stages, sp with
  | sm :: stages', s :: sp' =>
      nth s (nth 0 (stage_probabilities sm) []) 0 * outcome_product stages' sp'
  | _, _ => 1
  end.

(** Product of the transition probabilities along a Markov-state
    sequence that continues from state [prev]. *)
Fixpoint transition_product (Ps : list (list (list Q))) (prev : nat)
    (mp : list nat) : Q :=
  match Ps, mp with
  | P :: Ps', k :: mp' => nth k (nth prev P []) 0 * transition_product Ps' k mp'
  | _, _ => 1
  end.

(** Product of the outcome probabilities conditional on the Markov state
    of each stage. *)
Fixpoint conditional_outcome_product (stages : list stage_models)
    (sp mp : list nat) : Q :=
  match stages, sp, mp with
  | sm :: stages', s :: sp', k :: mp' =>
      nth s (nth k (stage_probabilities sm) []) 0
      * conditional_outcome_product stages' sp' mp'
  | _, _, _ => 1
  end.

Definition weightOf_spec self (path : sample_path) : Q :=
  match path with
  | Indep sp => outcome_product (models self) sp
  | Mixed sp mp =>
      match mp with
      | [] => 1
      | k0 :: mp' => transition_product (tl (transition_matrix self)) k0 mp'
      end
      * conditional_outcome_product (models self) sp mp
  end.

(** A full path whose indices exist: one index per stage, each below the
    number of outcomes (and of Markov states) of its stage. *)
Fixpoint indices_below (bounds : list nat) (idx : list nat) : bool :=
  match bounds, idx with
  | [], [] => true
  | b :: bounds', i :: idx' => (i <? b)%nat && indices_below bounds' idx'
  | _, _ => false
  end.

Definition outcome_count (sm : stage_models) : nat :=
  match sm with
  | Single m => n_samples m
  | Copies ms => match ms with m0 :: _ => n_samples m0 | [] => 0 end
  end.

Definition full_path self (path : sample_path) : bool :=
  match n_Markov_states self, path with
  | IntOne, Indep sp => indices_below (map outcome_count (models self)) sp
  | PerStage ns, Mixed sp mp =>
      indices_below (map outcome_count (models self)) sp && indices_below ns mp
  | _, _ => false
  end.

(** *** The scenario tree

    Notions used to state properties of the paths through the first
    stages of a program. *)

(** The path [path] continued by one stage: outcome [s] and, in the
    Markov chain case, Markov state [k]. *)
Definition child (path : sample_path) (s k : nat) : sample_path :=
  match path with
  | Indep sp => Indep (sp ++ [s])
  | Mixed sp mp => Mixed (sp ++ [s]) (mp ++ [k])
  end.

(** The two tuples of a mixed path have one entry per stage. *)
Definition aligned (path : sample_path) : Prop :=
  match path with
  | Indep _ => True
  | Mixed sp mp => length mp = length sp
  end.

(** The stage that a continuation of [path] adds. *)
Definition stage_of (path : sample_path) : nat :=
  match path with
  | Indep sp => length sp
  | Mixed sp _ => length sp
  end.

(** A path through the first stages whose indices exist: at every stage
    it covers, an outcome (and a Markov state) of that stage. *)
Definition node self (path : sample_path) : bool :=
  match n_Markov_states self, path with
  | IntOne, Indep sp =>
      indices_below (firstn (length sp) (map outcome_count (models self))) sp
  | PerStage ns, Mixed sp mp =>
      indices_below (firstn (length sp) (map outcome_count (models self))) sp
      && indices_below (firstn (length sp) ns) mp
  | _, _ => false
  end.

(** The continuations of a path by one stage: the outcomes of that stage
    and, in the Markov chain case, its Markov states. *)
Definition children self (path : sample_path) : list (nat * nat) :=
  let t := stage_of path in
  let outcomes := range (outcome_count (nth t (models self) (Copies []))) in
  match n_Markov_states self with
  | IntOne => map (fun s => (s, 0%nat)) outcomes
  | PerStage ns => list_prod outcomes (range (nth t ns 0%nat))
  end.

(** The probability of the continuation [(s, k)] given the path: the
    transition probability from the last Markov state to [k] times the
    probability of the outcome [s] in state [k]. *)
Definition step_probability self (path : sample_path) (s k : nat) : Q :=
  let stage := nth (stage_of path) (models self) (Copies []) in
  match path with
  | Indep _ => nth s (nth 0 (stage_probabilities stage) []) 0
  | Mixed _ mp =>
      match stage_of path with
      | O => 1
      | S u => nth k (nth (nth u mp 0%nat)
                          (nth (S u) (transition_matrix self) []) []) 0
      end
      * nth s (nth k (stage_probabilities stage) []) 0
  end.

(** The order of Python tuples of one length. *)
Fixpoint lex_lt (a b : list nat) : Prop :=
  match a, b with
  | x :: a', y :: b' => (x < y)%nat \/ (x = y /\ lex_lt a' b')
  | _, _ => False
  end.

(** Mixed paths are ordered by their outcome tuple, then by their Markov
    state tuple. *)
Definition path_lt (p q : sample_path) : Prop :=
  match p, q with
  | Indep a, Indep b => lex_lt a b
  | Mixed a a', Mixed b b' => lex_lt a b \/ (a = b /\ lex_lt a' b')
  | _, _ => False
  end.

End MSLP_methods.

End msp.

(** ** Stateful code that may raise

    A computation takes the state it runs in and returns the state it
    leaves together with its value or the exception it raised; the state
    reached when an exception is raised is kept. *)

Definition stateful (W A : Type) : Type := W -> W * result A.

Definition ret {W A} (a : A) : stateful W A := fun w => (w, Ok a).

Definition bind {W A B} (m : stateful W A) (k : A -> stateful W B)
  : stateful W B :=
  fun w =>
    match m w with
    | (w', Ok a) => k a w'
    | (w', Raise e) => (w', Raise e)
    end.

Definition raise {W A} (e : exn) : stateful W A := fun w => (w, Raise e).

Definition lift {W A} (r : result A) : stateful W A := fun w => (w, r).

(** [try: m except E: h] for the exceptions selected by [handles]. *)
Definition try_except {W A} (m : stateful W A) (handles : exn -> bool)
    (h : stateful W A) : stateful W A :=
  fun w =>
    match m w with
    | (w', Raise e) => if handles e then h w' else (w', Raise e)
    | r => r
    end.

Declare Scope M_scope.
Delimit Scope M_scope with M.
Notation "x <- c ;; k" := (bind c (fun x => k))
  (at level 61, c at next level, right associativity) : M_scope.
Notation "c ;;; k" := (bind c (fun _ => k))
  (at level 61, right associativity) : M_scope.

(** [for x in l: s = body x s], with the loop-carried local [s]. *)
Fixpoint for_loop {W A S} (l : list A) (body : A -> S -> stateful W S) (s : S)
  : stateful W S :=
  match l with
  | [] => ret s
  | x :: xs => (s' <- body x s ;; for_loop xs body s')%M
  end.

Definition for_each {W A} (l : list A) (body : A -> stateful W unit)
  : stateful W unit :=
  for_loop l (fun x _ => body x) tt.

(** ** msppy/evaluation.py *)

Module evaluation.

Import msp.

(** What [run_single] hands to [solver._forward] for one sample path, and
    the fields of the dictionary it gets back. *)
Record forward_args : Type := {
  arg_sample_path_idx : option sample_path;
  arg_markovian_idx : option (list nat);
  arg_markovian_samples : option (list (list float));
  arg_solve_true : bool;
  arg_query : list string;
  arg_query_dual : list string;
  arg_query_stage_cost : bool
}.

Record forward_result : Type := {
  res_pv : Q;
  res_stage_cost : list Q;
  res_solution : dict (list Q);
  res_solution_dual : dict (list Q)
}.

(** The solver object built by [run]: [SDDP(MSP, reset=False)] or
    [SDDP_infinity(MSP, reset=False)]. *)
Inductive solver_object (RS : Type) : Type :=
| SDDP (m : MSLP RS)
| SDDP_infinity (m : MSLP RS).

(** The collaborators that live outside these two files: numpy's
    [RandomState] and its [sum] of a row of float64 (the order in which
    it adds the terms is its own), the solver's forward pass (it draws
    from the random state it is given and so returns the advanced
    state), [msppy.utils.statistics.compute_CI] and [allocate_jobs]. *)
Class Collaborators : Type := {
  RandomState : Type;
  new_RandomState : list Z -> RandomState;
  numpy_sum : list float -> float;
  _forward : solver_object RandomState -> RandomState -> forward_args ->
             forward_result * RandomState;
  compute_CI : list Q -> Q -> result (Q * Q);
  allocate_jobs : Z -> Z -> result (list (list nat))
}.

Inductive class_name : Type :=
| class__Evaluation
| class_Evaluation
| class_EvaluationTrue.

(** [self.gap]: a float, which can be the [inf] or the [nan] that the
    division of a numpy.float64 by zero returns, or the string ['nan']. *)
Inductive gap_value : Type :=
| gap_float (q : Q)
| gap_float_inf
| gap_float_nan
| gap_nan.

(** *** The nearest Markov state: the computed distances and the
    position selected among them *)

(** The squared Euclidean distance of two vectors of one dimension, as
    float64 arithmetic evaluates it: every difference and every square
    is rounded, and the squares are added by [numpy.sum]. *)
Definition sqdist {C : Collaborators} (x s : list float) : float :=
  numpy_sum (map (fun a => a * a)%float
                 (map (fun ab => fst ab - snd ab)%float (combine x s))).

(** [j] is the position that the minimum scan selects in [ds]: the
    position of the first NaN if there is one, and else the first
    position of the minimum. *)
Definition first_minimum (ds : list float) (j : nat) : Prop :=
  (j < length ds)%nat /\
  ((is_nan (nth j ds 0%float) = true /\
    forall k, (k < j)%nat -> is_nan (nth k ds 0%float) = false) \/
   ((forall k, (k < length ds)%nat -> is_nan (nth k ds 0%float) = false) /\
    forall k, (k < length ds)%nat ->
              (nth j ds 0 <=? nth k ds 0)%float = true /\
              ((k < j)%nat -> (nth k ds 0 <=? nth j ds 0)%float = false))).

Definition first_argmin (ds : list float) : nat :=
  match ds with
  | [] => 0%nat
  | d :: ds' => argmin_from 0 d 1 ds'
  end.

(** The matched indices of one trajectory: 0 at stage 0 and, at every
    later stage, the position that the minimum scan selects among the
    computed distances to the Markov states of that stage. *)
Definition matched_row {C : Collaborators} {RS} (m : MSLP RS)
    (path : list (list float)) : list nat :=
  0%nat ::
  map (fun t => first_argmin (map (sqdist (nth t path []))
                                  (nth t (Markov_states m) [])))
      (seq 1 (T m - 1)).

(** What the properties of the matcher use of [numpy.sum]: in whatever
    order the terms are added, a sum of zeros is a zero, and a sum of
    terms that are neither negative nor NaN is neither negative nor
    NaN. *)
Definition numpy_sum_sound {C : Collaborators} : Prop :=
  (forall n, (numpy_sum (repeat 0%float n) =? 0)%float = true) /\
  (forall l, Forall (fun a => (0 <=? a)%float = true) l ->
             (0 <=? numpy_sum l)%float = true).

(** The inputs of the matcher are consistent: [n] trajectories (the
    contract of the generator), each with a value per stage, and at every
    stage after the first a non-empty list of Markov states, as many as
    [n_Markov_states] declares, of the dimension of the trajectories. *)
Definition matcher_inputs_ok {RS} (m : MSLP RS)
    (samples : list (list (list float))) (n : Z) : bool :=
  (0 <=? n)%Z && (length samples =? Z.to_nat n)%nat && (1 <=? T m)%nat &&
  match n_Markov_states m with
  | IntOne => false
  | PerStage ns =>
      forallb
        (fun t =>
           let states := nth t (Markov_states m) [] in
           (t <? length ns)%nat && (t <? length (Markov_states m))%nat &&
           (nth t ns 0%nat =? length states)%nat && (1 <=? length states)%nat &&
           forallb
             (fun path =>
                (t <? length path)%nat &&
                forallb (fun s => (length s =? length (nth t path []))%nat) states)
             samples)
        (range2 1 (T m))
  end.

Section Engine.

Context {C : Collaborators}.

(** The attributes of an evaluation object.  [None] is Python's [None],
    except for [n_simulations], [random_state] and [solver], where it
    stands for an attribute that has not been assigned. *)
Record _Evaluation : Type := {
  cls : class_name;
  MSP : MSLP RandomState;
  db : option Q;
  pv : option (list Q);
  CI : option (Q * Q);
  epv : option Q;
  gap : option gap_value;
  stage_cost : option (ndarray2 Q);
  solution : option (dict (ndarray2 (option Q)));
  solution_dual : option (dict (ndarray2 (option Q)));
  n_sample_paths : option Z;
  sample_path_idx : option (list sample_path);
  markovian_idx : option (ndarray2 nat);
  markovian_samples : option (list (list (list float)));
  solve_true : bool;
  n_simulations : option Z;
  random_state : option RandomState;
  solver : option (solver_object RandomState);
  query : list string;
  query_dual : list string;
  query_stage_cost : bool
}.

(** [_Evaluation.__init__]. *)
Definition __init__ (c : class_name) (m : MSLP RandomState) : _Evaluation :=
  {| cls := c; MSP := m; db := msp.db m; pv := None; CI := None; epv := None;
     gap := None; stage_cost := None; solution := None; solution_dual := None;
     n_sample_paths := None; sample_path_idx := None; markovian_idx := None;
     markovian_samples := None; solve_true := false; n_simulations := None;
     random_state := None; solver := None; query := []; query_dual := [];
     query_stage_cost := false |}.

(** Attribute assignment. *)
Definition set_MSP v (s : _Evaluation) : _Evaluation :=
  {| cls := cls s; MSP := v; db := db s; pv := pv s; CI := CI s;
     epv := epv s; gap := gap s; stage_cost := stage_cost s;
     solution := solution s; solution_dual := solution_dual s;
     n_sample_paths := n_sample_paths s;
     sample_path_idx := sample_path_idx s; markovian_idx := markovian_idx s;
     markovian_samples := markovian_samples s; solve_true := solve_true s;
     n_simulations := n_simulations s; random_state := random_state s;
     solver := solver s; query := query s; query_dual := query_dual s;
     query_stage_cost := query_stage_cost s |}.
Definition set_pv v (s : _Evaluation) : _Evaluation :=
  {| cls := cls s; MSP := MSP s; db := db s; pv := v; CI := CI s;
     epv := epv s; gap := gap s; stage_cost := stage_cost s;
     solution := solution s; solution_dual := solution_dual s;
     n_sample_paths := n_sample_paths s;
     sample_path_idx := sample_path_idx s; markovian_idx := markovian_idx s;
     markovian_samples := markovian_samples s; solve_true := solve_true s;
     n_simulations := n_simulations s; random_state := random_state s;
     solver := solver s; query := query s; query_dual := query_dual s;
     query_stage_cost := query_stage_cost s |}.
Definition set_CI v (s : _Evaluation) : _Evaluation :=
  {| cls := cls s; MSP := MSP s; db := db s; pv := pv s; CI := v;
     epv := epv s; gap := gap s; stage_cost := stage_cost s;
     solution := solution s; solution_dual := solution_dual s;
     n_sample_paths := n_sample_paths s;
     sample_path_idx := sample_path_idx s; markovian_idx := markovian_idx s;
     markovian_samples := markovian_samples s; solve_true := solve_true s;
     n_simulations := n_simulations s; random_state := random_state s;
     solver := solver s; query := query s; query_dual := query_dual s;
     query_stage_cost := query_stage_cost s |}.
Definition set_epv v (s : _Evaluation) : _Evaluation :=
  {| cls := cls s; MSP := MSP s; db := db s; pv := pv s; CI := CI s;
     epv := v; gap := gap s; stage_cost := stage_cost s;
     solution := solution s; solution_dual := solution_dual s;
     n_sample_paths := n_sample_paths s;
     sample_path_idx := sample_path_idx s; markovian_idx := markovian_idx s;
     markovian_samples := markovian_samples s; solve_true := solve_true s;
     n_simulations := n_simulations s; random_state := random_state s;
     solver := solver s; query := query s; query_dual := query_dual s;
     query_stage_cost := query_stage_cost s |}.
Definition set_gap v (s : _Evaluation) : _Evaluation :=
  {| cls := cls s; MSP := MSP s; db := db s; pv := pv s; CI := CI s;
     epv := epv s; gap := v; stage_cost := stage_cost s;
     solution := solution s; solution_dual := solution_dual s;
     n_sample_paths := n_sample_paths s;
     sample_path_idx := sample_path_idx s; markovian_idx := markovian_idx s;
     markovian_samples := markovian_samples s; solve_true := solve_true s;
     n_simulations := n_simulations s; random_state := random_state s;
     solver := solver s; query := query s; query_dual := query_dual s;
     query_stage_cost := query_stage_cost s |}.
Definition set_stage_cost v (s : _Evaluation) : _Evaluation :=
  {| cls := cls s; MSP := MSP s; db := db s; pv := pv s; CI := CI s;
     epv := epv s; gap := gap s; stage_cost := v; solution := solution s;
     solution_dual := solution_dual s; n_sample_paths := n_sample_paths s;
     sample_path_idx := sample_path_idx s; markovian_idx := markovian_idx s;
     markovian_samples := markovian_samples s; solve_true := solve_true s;
     n_simulations := n_simulations s; random_state := random_state s;
     solver := solver s; query := query s; query_dual := query_dual s;
     query_stage_cost := query_stage_cost s |}.
Definition set_solution v (s : _Evaluation) : _Evaluation :=
  {| cls := cls s; MSP := MSP s; db := db s; pv := pv s; CI := CI s;
     epv := epv s; gap := gap s; stage_cost := stage_cost s; solution := v;
     solution_dual := solution_dual s; n_sample_paths := n_sample_paths s;
     sample_path_idx := sample_path_idx s; markovian_idx := markovian_idx s;
     markovian_samples := markovian_samples s; solve_true := solve_true s;
     n_simulations := n_simulations s; random_state := random_state s;
     solver := solver s; query := query s; query_dual := query_dual s;
     query_stage_cost := query_stage_cost s |}.
Definition set_solution_dual v (s : _Evaluation) : _Evaluation :=
  {| cls := cls s; MSP := MSP s; db := db s; pv := pv s; CI := CI s;
     epv := epv s; gap := gap s; stage_cost := stage_cost s;
     solution := solution s; solution_dual := v;
     n_sample_paths := n_sample_paths s;
     sample_path_idx := sample_path_idx s; markovian_idx := markovian_idx s;
     markovian_samples := markovian_samples s; solve_true := solve_true s;
     n_simulations := n_simulations s; random_state := random_state s;
     solver := solver s; query := query s; query_dual := query_dual s;
     query_stage_cost := query_stage_cost s |}.
Definition set_n_sample_paths v (s : _Evaluation) : _Evaluation :=
  {| cls := cls s; MSP := MSP s; db := db s; pv := pv s; CI := CI s;
     epv := epv s; gap := gap s; stage_cost := stage_cost s;
     solution := solution s; solution_dual := solution_dual s;
     n_sample_paths := v; sample_path_idx := sample_path_idx s;
     markovian_idx := markovian_idx s;
     markovian_samples := markovian_samples s; solve_true := solve_true s;
     n_simulations := n_simulations s; random_state := random_state s;
     solver := solver s; query := query s; query_dual := query_dual s;
     query_stage_cost := query_stage_cost s |}.
Definition set_sample_path_idx v (s : _Evaluation) : _Evaluation :=
  {| cls := cls s; MSP := MSP s; db := db s; pv := pv s; CI := CI s;
     epv := epv s; gap := gap s; stage_cost := stage_cost s;
     solution := solution s; solution_dual := solution_dual s;
     n_sample_paths := n_sample_paths s; sample_path_idx := v;
     markovian_idx := markovian_idx s;
     markovian_samples := markovian_samples s; solve_true := solve_true s;
     n_simulations := n_simulations s; random_state := random_state s;
     solver := solver s; query := query s; query_dual := query_dual s;
     query_stage_cost := query_stage_cost s |}.
Definition set_markovian_idx v (s : _Evaluation) : _Evaluation :=
  {| cls := cls s; MSP := MSP s; db := db s; pv := pv s; CI := CI s;
     epv := epv s; gap := gap s; stage_cost := stage_cost s;
     solution := solution s; solution_dual := solution_dual s;
     n_sample_paths := n_sample_paths s;
     sample_path_idx := sample_path_idx s; markovian_idx := v;
     markovian_samples := markovian_samples s; solve_true := solve_true s;
     n_simulations := n_simulations s; random_state := random_state s;
     solver := solver s; query := query s; query_dual := query_dual s;
     query_stage_cost := query_stage_cost s |}.
Definition set_markovian_samples v (s : _Evaluation) : _Evaluation :=
  {| cls := cls s; MSP := MSP s; db := db s; pv := pv s; CI := CI s;
     epv := epv s; gap := gap s; stage_cost := stage_cost s;
     solution := solution s; solution_dual := solution_dual s;
     n_sample_paths := n_sample_paths s;
     sample_path_idx := sample_path_idx s; markovian_idx := markovian_idx s;
     markovian_samples := v; solve_true := solve_true s;
     n_simulations := n_simulations s; random_state := random_state s;
     solver := solver s; query := query s; query_dual := query_dual s;
     query_stage_cost := query_stage_cost s |}.
Definition set_solve_true v (s : _Evaluation) : _Evaluation :=
  {| cls := cls s; MSP := MSP s; db := db s; pv := pv s; CI := CI s;
     epv := epv s; gap := gap s; stage_cost := stage_cost s;
     solution := solution s; solution_dual := solution_dual s;
     n_sample_paths := n_sample_paths s;
     sample_path_idx := sample_path_idx s; markovian_idx := markovian_idx s;
     markovian_samples := markovian_samples s; solve_true := v;
     n_simulations := n_simulations s; random_state := random_state s;
     solver := solver s; query := query s; query_dual := query_dual s;
     query_stage_cost := query_stage_cost s |}.
Definition set_n_simulations v (s : _Evaluation) : _Evaluation :=
  {| cls := cls s; MSP := MSP s; db := db s; pv := pv s; CI := CI s;
     epv := epv s; gap := gap s; stage_cost := stage_cost s;
     solution := solution s; solution_dual := solution_dual s;
     n_sample_paths := n_sample_paths s;
     sample_path_idx := sample_path_idx s; markovian_idx := markovian_idx s;
     markovian_samples := markovian_samples s; solve_true := solve_true s;
     n_simulations := v; random_state := random_state s; solver := solver s;
     query := query s; query_dual := query_dual s;
     query_stage_cost := query_stage_cost s |}.
Definition set_random_state v (s : _Evaluation) : _Evaluation :=
  {| cls := cls s; MSP := MSP s; db := db s; pv := pv s; CI := CI s;
     epv := epv s; gap := gap s; stage_cost := stage_cost s;
     solution := solution s; solution_dual := solution_dual s;
     n_sample_paths := n_sample_paths s;
     sample_path_idx := sample_path_idx s; markovian_idx := markovian_idx s;
     markovian_samples := markovian_samples s; solve_true := solve_true s;
     n_simulations := n_simulations s; random_state := v;
     solver := solver s; query := query s; query_dual := query_dual s;
     query_stage_cost := query_stage_cost s |}.
Definition set_solver v (s : _Evaluation) : _Evaluation :=
  {| cls := cls s; MSP := MSP s; db := db s; pv := pv s; CI := CI s;
     epv := epv s; gap := gap s; stage_cost := stage_cost s;
     solution := solution s; solution_dual := solution_dual s;
     n_sample_paths := n_sample_paths s;
     sample_path_idx := sample_path_idx s; markovian_idx := markovian_idx s;
     markovian_samples := markovian_samples s; solve_true := solve_true s;
     n_simulations := n_simulations s; random_state := random_state s;
     solver := v; query := query s; query_dual := query_dual s;
     query_stage_cost := query_stage_cost s |}.
Definition set_query v (s : _Evaluation) : _Evaluation :=
  {| cls := cls s; MSP := MSP s; db := db s; pv := pv s; CI := CI s;
     epv := epv s; gap := gap s; stage_cost := stage_cost s;
     solution := solution s; solution_dual := solution_dual s;
     n_sample_paths := n_sample_paths s;
     sample_path_idx := sample_path_idx s; markovian_idx := markovian_idx s;
     markovian_samples := markovian_samples s; solve_true := solve_true s;
     n_simulations := n_simulations s; random_state := random_state s;
     solver := solver s; query := v; query_dual := query_dual s;
     query_stage_cost := query_stage_cost s |}.
Definition set_query_dual v (s : _Evaluation) : _Evaluation :=
  {| cls := cls s; MSP := MSP s; db := db s; pv := pv s; CI := CI s;
     epv := epv s; gap := gap s; stage_cost := stage_cost s;
     solution := solution s; solution_dual := solution_dual s;
     n_sample_paths := n_sample_paths s;
     sample_path_idx := sample_path_idx s; markovian_idx := markovian_idx s;
     markovian_samples := markovian_samples s; solve_true := solve_true s;
     n_simulations := n_simulations s; random_state := random_state s;
     solver := solver s; query := query s; query_dual := v;
     query_stage_cost := query_stage_cost s |}.
Definition set_query_stage_cost v (s : _Evaluation) : _Evaluation :=
  {| cls := cls s; MSP := MSP s; db := db s; pv := pv s; CI := CI s;
     epv := epv s; gap := gap s; stage_cost := stage_cost s;
     solution := solution s; solution_dual := solution_dual s;
     n_sample_paths := n_sample_paths s;
     sample_path_idx := sample_path_idx s; markovian_idx := markovian_idx s;
     markovian_samples := markovian_samples s; solve_true := solve_true s;
     n_simulations := n_simulations s; random_state := random_state s;
     solver := solver s; query := query s; query_dual := query_dual s;
     query_stage_cost := v |}.

Definition set_n_periodical_stages (n : nat) (m : MSLP RandomState)
  : MSLP RandomState :=
  {| T := T m; sense := sense m; msp.db := msp.db m;
     n_Markov_states := n_Markov_states m; Markov_states := Markov_states m;
     transition_matrix := transition_matrix m;
     Markovian_uncertainty := Markovian_uncertainty m; models := models m;
     _type := _type m; _individual_type := _individual_type m;
     is_MSIP := is_MSIP m; has_bin_stage := has_bin_stage m;
     n_periodical_stages := Some n |}.

(** Calls that leave the engine, recorded in the order they are made. *)
Inductive event : Type :=
| call_solver (s : solver_object RandomState)
| call_generator (size : Z)
| call_RandomState (seed : list Z)
| call_forward (j : nat) (rs : RandomState) (a : forward_args)
| call_compute_CI (values : list Q) (percentile : Q).

Definition is_compute_CI_call (e : event) : bool :=
  match e with call_compute_CI _ _ => true | _ => false end.

Definition is_forward_call (e : event) : bool :=
  match e with call_forward _ _ _ => true | _ => false end.

(** The state a call runs in: the object [self], the
    [multiprocessing.Array] shared with the workers, and the record of the
    calls made so far. *)
Record world : Type := {
  self : _Evaluation;
  shared : list Q;
  trace : list event
}.

Definition M (A : Type) : Type := stateful world A.

Definition get_self : M _Evaluation := fun w => (w, Ok (self w)).

Definition modify_self (f : _Evaluation -> _Evaluation) : M unit :=
  fun w => ({| self := f (self w); shared := shared w; trace := trace w |}, Ok tt).

Definition get_shared : M (list Q) := fun w => (w, Ok (shared w)).

Definition put_shared (a : list Q) : M unit :=
  fun w => ({| self := self w; shared := a; trace := trace w |}, Ok tt).

Definition emit (e : event) : M unit :=
  fun w => ({| self := self w; shared := shared w; trace := trace w ++ [e] |}, Ok tt).

(** A worker process: it runs [m] on its own copy of [self]; only the
    shared array (and the calls it makes) outlive it, and an exception
    ends the worker without reaching the parent. *)
Definition in_child_process (m : M unit) : M unit :=
  fun w =>
    let w' := fst (m w) in
    ({| self := self w; shared := shared w'; trace := trace w' |}, Ok tt).

Local Open Scope M_scope.

Definition is_ZeroDivisionError (e : exn) : bool :=
  match e with ZeroDivisionError => true | _ => false end.

(** Division of floats of Python's own: a zero divisor raises. *)
Definition truediv (a b : Q) : result Q :=
  if Qeq_bool b 0 then Raise ZeroDivisionError else Ok (a / b).

(** [abs(a / b)] where [a] is a numpy.float64: a zero divisor raises
    nothing; the quotient is then [inf] (of the sign of [a] and of the
    zero, which [abs] drops), or [nan] when [a] is zero as well. *)
Definition float64_abs_truediv (a b : Q) : gap_value :=
  if Qeq_bool b 0 then
    if Qeq_bool a 0 then gap_float_nan else gap_float_inf
  else gap_float (Qabs (a / b)).

(** An operand that is [None] makes the arithmetic raise [TypeError]. *)
Definition operand (x : option Q) : result Q :=
  match x with
  | Some q => Ok q
  | None => Raise TypeError
  end.

(** [x[0]] where [x] may be [None]. *)
Definition first_of (x : option (list Q)) : result Q :=
  match x with
  | None => Raise TypeError
  | Some l => subscript l 0
  end.

(** [_Evaluation._compute_gap]: the relative distance to the bound of the
    confidence interval, else of the exact expected value, else of the
    first policy value; only a [ZeroDivisionError] is handled.  The ends
    of the interval and the exact expected value are numpy.float64, so
    the numerator is one and the division is numpy's; the first policy
    value and the bound are floats of Python's own, and their division
    is Python's. *)
Definition _compute_gap : M unit :=
  try_except
    (s <- get_self ;;
     let MSP := MSP s in
     g <- lift
       (match CI s with
        | Some ci =>
            if (sense MSP =? 1)%Z then
              (d <- operand (db s) ;; Ok (float64_abs_truediv (snd ci - d) d))%result
            else
              (d <- operand (db s) ;; Ok (float64_abs_truediv (d - fst ci) d))%result
        | None =>
            match epv s with
            | Some e =>
                (d <- operand (db s) ;; Ok (float64_abs_truediv (e - d) d))%result
            | None =>
                (p0 <- first_of (pv s) ;;
                 d <- operand (db s) ;; r <- truediv (p0 - d) d ;;
                 Ok (gap_float (Qabs r)))%result
            end
        end) ;;
     modify_self (set_gap (Some g)))
    is_ZeroDivisionError
    (modify_self (set_gap (Some gap_nan))).

(** [_compute_sample_path_idx_and_markovian_path], one body per class. *)

Definition attribute {A} (x : option A) : M A :=
  match x with
  | Some a => ret a
  | None => raise AttributeError
  end.

Definition _Evaluation__compute_sample_path_idx_and_markovian_path : M unit :=
  ret tt.

Definition Evaluation__compute_sample_path_idx_and_markovian_path : M unit :=
  s <- get_self ;;
  n_sim <- attribute (n_simulations s) ;;
  if (n_sim =? -1)%Z then
    r <- lift (_enumerate_sample_paths (MSP s) (Z.of_nat (T (MSP s)) - 1)) ;;
    modify_self (set_n_sample_paths (Some (Z.of_nat (fst r)))) ;;;
    modify_self (set_sample_path_idx (Some (snd r)))
  else
    modify_self (set_n_sample_paths (Some n_sim)).

(** [self.n_Markov_states[t]]: the integer [1] is not subscriptable. *)
Definition Markov_count (c : Markov_counts) (t : nat) : result nat :=
  match c with
  | IntOne => Raise TypeError
  | PerStage ns => subscript ns t
  end.

(** [self.markovian_samples[:,t,:]]. *)
Definition stage_slice (samples : list (list (list float))) (t : nat)
  : result (list (list float)) :=
  comprehension (fun path => subscript path t) samples.

(** The body of the loop over [t]: the distance table of stage [t] and
    its row-wise [argmin]. *)
Definition nearest_Markov_states (m : MSLP RandomState)
    (samples : list (list (list float))) (n_sim : nat) (t : nat)
  : result (list nat) :=
  (k <- Markov_count (n_Markov_states m) t ;;
   let dist := full n_sim k (@None float) in
   states <- subscript (Markov_states m) t ;;
   dist <- fold_left
             (fun acc idx_state =>
                dist <- acc ;;
                x <- stage_slice samples t ;;
                col <- comprehension
                         (fun row => squared_distance numpy_sum row
                                                      (snd idx_state)) x ;;
                set_column dist (fst idx_state) (map (@Some float) col))
             (combine (range (length states)) states)
             (Ok dist) ;;
   argmin_axis1 dist)%result.

Definition EvaluationTrue__compute_sample_path_idx_and_markovian_path : M unit :=
  s <- get_self ;;
  let MSP := MSP s in
  n_sim <- attribute (n_simulations s) ;;
  modify_self (set_n_sample_paths (Some n_sim)) ;;;
  modify_self (set_solve_true true) ;;;
  match _type MSP with
  | Markovian =>
      rs <- attribute (random_state s) ;;
      emit (call_generator n_sim) ;;;
      let samples := Markovian_uncertainty MSP rs n_sim in
      modify_self (set_markovian_samples (Some samples)) ;;;
      (if (n_sim <? 0)%Z then raise ValueError else ret tt) ;;;
      modify_self
        (set_markovian_idx (Some (full (Z.to_nat n_sim) (T MSP) 0%nat))) ;;;
      for_each (range2 1 (T MSP))
        (fun t =>
           s <- get_self ;;
           idx <- attribute (markovian_idx s) ;;
           col <- lift (nearest_Markov_states MSP samples (Z.to_nat n_sim) t) ;;
           idx' <- lift (set_column idx t col) ;;
           modify_self (set_markovian_idx (Some idx')))
  | _ => ret tt
  end.

Definition _compute_sample_path_idx_and_markovian_path : M unit :=
  s <- get_self ;;
  match cls s with
  | class__Evaluation => _Evaluation__compute_sample_path_idx_and_markovian_path
  | class_Evaluation => Evaluation__compute_sample_path_idx_and_markovian_path
  | class_EvaluationTrue => EvaluationTrue__compute_sample_path_idx_and_markovian_path
  end.

(** The array that the parameter [pv] of [run_single] refers to: the list
    [self.pv] itself (sequential run) or the shared array (workers). *)
Inductive pv_ref : Type :=
| ref_self_pv
| ref_shared.

(** [pv[j] = x] through the reference. *)
Definition pv_setitem (r : pv_ref) (j : nat) (x : Q) : M unit :=
  match r with
  | ref_self_pv =>
      s <- get_self ;;
      match pv s with
      | None => raise TypeError
      | Some l => l' <- lift (setitem l j x) ;; modify_self (set_pv (Some l'))
      end
  | ref_shared =>
      a <- get_shared ;;
      a' <- lift (setitem a j x) ;;
      put_shared a'
  end.

(** [x[j] if x is not None else None]. *)
Definition subscript_if_present {A} (x : option (list A)) (j : nat)
  : result (option A) :=
  match x with
  | None => Ok None
  | Some l => (a <- subscript l j ;; Ok (Some a))%result
  end.

(** [self.solution[item][:,j] = values[item]] for every queried item.
    (When a later item raises, the columns written before it are not kept
    by the model.) *)
Definition store_columns (names : list string)
    (table : option (dict (ndarray2 (option Q)))) (values : dict (list Q))
    (j : nat) : result (option (dict (ndarray2 (option Q)))) :=
  fold_left
    (fun acc item =>
       (tbl <- acc ;;
        v <- dict_get values item ;;
        match tbl with
        | None => Raise TypeError
        | Some d =>
            a <- dict_get d item ;;
            a' <- set_column a j (map (@Some Q) v) ;;
            Ok (Some (dict_set d item a'))
        end)%result)
    names (Ok table).

(** The seed of a worker: [[2**32-1, jobs[0]]]. *)
Definition worker_seed (jobs : list nat) : result (list Z) :=
  (j0 <- subscript jobs 0 ;; Ok [2 ^ 32 - 1; Z.of_nat j0]%Z)%result.

(** The body of the loop of [run_single], for the sample path [j]; the
    local [random_state] is advanced by the solver's forward pass.  (The
    [print(j)] of the source is not modelled.) *)
Definition forward_pass (pv : pv_ref) (j : nat) (random_state : RandomState)
  : M RandomState :=
  s <- get_self ;;
  sample_path_idx <- lift (subscript_if_present (sample_path_idx s) j) ;;
  markovian_idx <-
    lift (subscript_if_present (option_map (@rows nat) (markovian_idx s)) j) ;;
  markovian_samples <- lift (subscript_if_present (markovian_samples s) j) ;;
  slv <- attribute (solver s) ;;
  let a := {| arg_sample_path_idx := sample_path_idx;
              arg_markovian_idx := markovian_idx;
              arg_markovian_samples := markovian_samples;
              arg_solve_true := solve_true s;
              arg_query := query s;
              arg_query_dual := query_dual s;
              arg_query_stage_cost := query_stage_cost s |} in
  emit (call_forward j random_state a) ;;;
  let (result, random_state) := _forward slv random_state a in
  sol <- lift (store_columns (query s) (solution s) (res_solution result) j) ;;
  modify_self (set_solution sol) ;;;
  sol_dual <- lift (store_columns (query_dual s) (solution_dual s)
                                  (res_solution_dual result) j) ;;
  modify_self (set_solution_dual sol_dual) ;;;
  (if query_stage_cost s then
     match stage_cost s with
     | None => raise TypeError
     | Some sc =>
         sc' <- lift (set_column sc j (res_stage_cost result)) ;;
         modify_self (set_stage_cost (Some sc'))
     end
   else ret tt) ;;;
  pv_setitem pv j (res_pv result) ;;;
  ret random_state.

Definition run_single (pv : pv_ref) (jobs : list nat) : M unit :=
  seed <- lift (worker_seed jobs) ;;
  emit (call_RandomState seed) ;;;
  let random_state := new_RandomState seed in
  _ <- for_loop jobs (forward_pass pv) random_state ;;
  ret tt.

(** [numpy.dot] of two one-dimensional arrays. *)
Definition dot (a b : list Q) : result Q :=
  if (length a =? length b)%nat then
    Ok (sum_Q (map (fun xy => fst xy * snd xy) (combine a b)))
  else Raise ValueError.

Definition is_some {A} (x : option A) : bool :=
  match x with Some _ => true | None => false end.

(** The array behind a reference. *)
Definition pv_deref (r : pv_ref) : M (list Q) :=
  match r with
  | ref_self_pv =>
      s <- get_self ;;
      match pv s with
      | None => raise TypeError
      | Some l => ret l
      end
  | ref_shared => get_shared
  end.

(** [self.n_sample_paths] as an array dimension. *)
Definition dimension (x : option Z) : M nat :=
  match x with
  | None => raise TypeError
  | Some n => if (n <? 0)%Z then raise ValueError else ret (Z.to_nat n)
  end.

(** [_Evaluation.run].  The local variable [pv] of the source is bound
    only in the branch [n_processes != 1]; [pv_local] is [None] while it
    is unbound. *)
Definition run (n_simulations : Z) (percentile : Q)
    (query : option (list string)) (query_dual : option (list string))
    (query_stage_cost : bool) (n_periodical_stages : option nat)
    (n_processes : Z) : M unit :=
  (if negb (n_processes =? 1)%Z
      && (is_some query || is_some query_dual || query_stage_cost)
   then raise NotImplementedError else ret tt) ;;;
  s <- get_self ;;
  T <- match msp.n_periodical_stages (MSP s) with
       | Some n0 =>
           let MSP := match n_periodical_stages with
                      | Some n => set_n_periodical_stages n (MSP s)
                      | None => MSP s
                      end in
           modify_self (set_MSP MSP) ;;;
           emit (call_solver (SDDP_infinity MSP)) ;;;
           modify_self (set_solver (Some (SDDP_infinity MSP))) ;;;
           ret (match n_periodical_stages with Some n => n | None => n0 end)
       | None =>
           emit (call_solver (SDDP (MSP s))) ;;;
           modify_self (set_solver (Some (SDDP (MSP s)))) ;;;
           ret (msp.T (MSP s))
       end ;;
  modify_self (set_n_simulations (Some n_simulations)) ;;;
  let query := match query with None => [] | Some q => q end in
  let query_dual := match query_dual with None => [] | Some q => q end in
  _compute_sample_path_idx_and_markovian_path ;;;
  s <- get_self ;;
  n <- dimension (n_sample_paths s) ;;
  modify_self (set_pv (Some (repeat 0 n))) ;;;
  modify_self (set_stage_cost (Some (full T n 0))) ;;;
  modify_self (set_solution (Some (dict_from_keys query (full T n (@None Q))))) ;;;
  modify_self
    (set_solution_dual (Some (dict_from_keys query_dual (full T n (@None Q))))) ;;;
  modify_self (set_query query) ;;;
  modify_self (set_query_dual query_dual) ;;;
  modify_self (set_query_stage_cost query_stage_cost) ;;;
  pv_local <-
    (if negb (n_processes =? 1)%Z then
       jobs <- lift (allocate_jobs (Z.of_nat n) n_processes) ;;
       put_shared (repeat 0 n) ;;;
       _ <- for_loop (range_Z n_processes)
              (fun p (_ : unit) =>
                 jobs_p <- lift (subscript jobs p) ;;
                 in_child_process (run_single ref_shared jobs_p))
              tt ;;
       a <- get_shared ;;
       modify_self (set_pv (Some a)) ;;;
       ret (Some ref_shared)
     else
       modify_self (set_pv (Some (repeat 0 n))) ;;;
       run_single ref_self_pv (range n) ;;;
       ret None) ;;
  (if (n_simulations =? -1)%Z then
     match pv_local with
     | None => raise UnboundLocalError
     | Some r =>
         a <- pv_deref r ;;
         s <- get_self ;;
         weights <- lift
           (comprehension
              (fun j =>
                 match sample_path_idx s with
                 | None => Raise TypeError
                 | Some paths =>
                     (path <- subscript paths j ;;
                      _compute_weight_sample_path (MSP s) path)%result
                 end)
              (range n)) ;;
         e <- lift (dot a weights) ;;
         modify_self (set_epv (Some e))
     end
   else ret tt) ;;;
  (if negb ((n_simulations =? -1)%Z || (n_simulations =? 1)%Z) then
     s <- get_self ;;
     values <- match pv s with Some l => ret l | None => raise TypeError end ;;
     emit (call_compute_CI values percentile) ;;;
     ci <- lift (compute_CI values percentile) ;;
     modify_self (set_CI (Some ci))
   else ret tt) ;;;
  _compute_gap.

(** [MSIP._back_binarize] rewrites the variables of the stage models and
    touches none of the fields kept here. *)
Definition _back_binarize : M unit := ret tt.

(** [EvaluationTrue.run]: both branches end in [_Evaluation.run]. *)
Definition EvaluationTrue_run (n_simulations : Z) (percentile : Q)
    (query : option (list string)) (query_dual : option (list string))
    (query_stage_cost : bool) (n_periodical_stages : option nat)
    (n_processes : Z) : M unit :=
  s <- get_self ;;
  let MSP := MSP s in
  (if is_MSIP MSP then _back_binarize else ret tt) ;;;
  match _type MSP, _individual_type MSP, has_bin_stage MSP with
  | (stagewise_independent | Markov_chain), original, false =>
      run n_simulations percentile query query_dual query_stage_cost
          n_periodical_stages n_processes
  | _, _, _ =>
      run n_simulations percentile query query_dual query_stage_cost
          n_periodical_stages n_processes
  end.

(** *** Notions used to state properties of a run *)

(** The value that the gap compares with the bound: the end of the
    confidence interval on the side of the optimization sense, else the
    exact expected value, else the first policy value. *)
Definition gap_reference (s : _Evaluation) : option Q :=
  match CI s with
  | Some ci => Some (if (sense (MSP s) =? 1)%Z then snd ci else fst ci)
  | None =>
      match epv s with
      | Some e => Some e
      | None =>
          match pv s with
          | Some (p0 :: _) => Some p0
          | _ => None
          end
      end
  end.

(** The forward passes recorded in a list of calls: the sample path, the
    random state handed over and the other arguments of each. *)
Definition forward_events (tr : list event)
  : list (nat * RandomState * forward_args) :=
  flat_map (fun e => match e with
                     | call_forward j rs a => [(j, rs, a)]
                     | _ => []
                     end) tr.

Definition call_index (c : nat * RandomState * forward_args) : nat :=
  fst (fst c).

(** The policy value that the solver returns for a recorded call. *)
Definition returned_value (slv : solver_object RandomState)
    (c : nat * RandomState * forward_args) : Q :=
  res_pv (fst (_forward slv (snd (fst c)) (snd c))).

(** Each call gets the random state that the call before it left, the
    first one the state [rs]. *)
Fixpoint chained (slv : solver_object RandomState) (rs : RandomState)
    (calls : list (nat * RandomState * forward_args)) : Prop :=
  match calls with
  | [] => True
  | c :: rest =>
      snd (fst c) = rs /\ chained slv (snd (_forward slv rs (snd c))) rest
  end.

(** A forward pass for an object of class [c] carries the queried names
    [q] and [qd] and the stage-cost flag [qsc], and asks for the true
    problem when [c] is [EvaluationTrue]; any other call qualifies. *)
Definition carries (c : class_name) (q qd : list string) (qsc : bool)
    (e : event) : Prop :=
  match e with
  | call_forward _ _ a =>
      arg_query a = q /\ arg_query_dual a = qd /\
      arg_query_stage_cost a = qsc /\
      (c = class_EvaluationTrue -> arg_solve_true a = true)
  | _ => True
  end.

End Engine.

End evaluation.

(** ** Sample inputs

    A small instance of the collaborators and a few programs, used to run
    the engine on concrete inputs.  The theorems below are stated for
    every instance of [Collaborators]. *)

Module examples.

Import msp evaluation.

Local Open Scope Q_scope.

(** A stand-in random state: its seed and the number of draws made. *)
Definition toy_RandomState : Type := (list Z * nat)%type.

Definition path_value (p : option sample_path) : Q :=
  match p with
  | Some (Indep sp) => inject_Z (Z.of_nat (fold_right Nat.add 1%nat sp))
  | Some (Mixed sp mp) =>
      inject_Z (Z.of_nat (fold_right Nat.add 1%nat sp + fold_right Nat.add 0%nat mp))
  | None => 1
  end.

Definition toy_forward (slv : solver_object toy_RandomState)
    (rs : toy_RandomState) (a : forward_args)
  : forward_result * toy_RandomState :=
  let T := match slv with SDDP m | SDDP_infinity m => T m end in
  ({| res_pv := path_value (arg_sample_path_idx a) + inject_Z (Z.of_nat (snd rs));
      res_stage_cost := repeat 1 T;
      res_solution := map (fun name => (name, repeat 2 T)) (arg_query a);
      res_solution_dual := map (fun name => (name, repeat 3 T)) (arg_query_dual a) |},
   (fst rs, S (snd rs))).

(** A stand-in for [compute_CI] that rejects a percentile outside
    (0, 100) and a single value, and otherwise returns the range of the
    values. *)
Definition toy_compute_CI (values : list Q) (percentile : Q) : result (Q * Q) :=
  if Qlt_bool 0 percentile && Qlt_bool percentile 100 then
    match values with
    | [] | [_] => Raise NotImplementedError
    | x :: xs =>
        Ok (fold_right (fun a b => if Qlt_bool a b then a else b) x xs,
            fold_right (fun a b => if Qlt_bool a b then b else a) x xs)
    end
  else Raise ValueError.

(** Modelled from the spec: [allocate_jobs] of msppy/utils/statistics.py,
    which is not among the sources.  The sample-path indices are split
    contiguously into near-equal shares, the remainder going to the
    earliest workers. *)
Definition toy_allocate_jobs (n p : Z) : result (list (list nat)) :=
  if (p =? 0)%Z then Raise ZeroDivisionError
  else
    let chunk := Z.to_nat (n / p) in
    let extra := Z.to_nat (n mod p) in
    Ok (fst (fold_left
               (fun acc i =>
                  let size := (chunk + if i <? extra then 1 else 0)%nat in
                  (fst acc ++ [seq (snd acc) size], (snd acc + size)%nat))
               (range_Z p) ([], 0%nat))).

(** A stand-in for [numpy.sum] on a row: the terms are added from left
    to right, as numpy does for a short row. *)
Definition toy_numpy_sum (l : list float) : float :=
  fold_left PrimFloat.add l 0%float.

#[local] Instance toy : Collaborators := {|
  RandomState := toy_RandomState;
  new_RandomState := fun seed => (seed, 0%nat);
  numpy_sum := toy_numpy_sum;
  _forward := toy_forward;
  compute_CI := toy_compute_CI;
  allocate_jobs := toy_allocate_jobs
|}.

Definition one_outcome : StochasticModel :=
  {| n_samples := 1; probability := None |}.

(** The three-stage Markov chain: one state at stage 0, two at stages 1
    and 2, transition matrices [[1]], [[0.3,0.7]], [[0.6,0.4],[0.2,0.8]],
    one outcome per stage and state. *)
Definition chain3 (bound : option Q) : MSLP toy_RandomState :=
  {| T := 3; sense := 1; msp.db := bound;
     n_Markov_states := PerStage [1; 2; 2]%nat;
     Markov_states := [[[0.25]]; [[0.25]; [0.5]]; [[0.5]; [0.75]]]%float;
     transition_matrix := [[[1]]; [[0.3; 0.7]]; [[0.6; 0.4]; [0.2; 0.8]]];
     Markovian_uncertainty := fun _ _ => [];
     models := [Copies [one_outcome];
                Copies [one_outcome; one_outcome];
                Copies [one_outcome; one_outcome]];
     _type := Markov_chain; _individual_type := original;
     is_MSIP := false; has_bin_stage := false;
     n_periodical_stages := None |}.

(** A stage-wise independent program with 1, 2 and 3 outcomes, the
    second stage with a given measure. *)
Definition independent3 (bound : option Q) : MSLP toy_RandomState :=
  {| T := 3; sense := 1; msp.db := bound;
     n_Markov_states := IntOne;
     Markov_states := [];
     transition_matrix := [];
     Markovian_uncertainty := fun _ _ => [];
     models := [Single one_outcome;
                Single {| n_samples := 2; probability := Some [0.25; 0.75] |};
                Single {| n_samples := 3; probability := None |}];
     _type := stagewise_independent; _individual_type := original;
     is_MSIP := false; has_bin_stage := false;
     n_periodical_stages := None |}.

(** A continuous Markovian program discretized by user input.  At
    stage 1 the states are 2^-600 and 0: two different numbers whose
    distance, squared, is below the smallest positive float64.  At stage
    2 the value 5 is as far from the state 4 as from the state 6.  The
    generator returns [size] copies of one trajectory. *)
Definition trajectory : list (list float) := [[0]; [0]; [5]]%float.

Definition markovian3 : MSLP toy_RandomState :=
  {| T := 3; sense := 1; msp.db := Some 1;
     n_Markov_states := PerStage [1; 2; 3]%nat;
     Markov_states := [[[0]]; [[0x1p-600]; [0]]; [[2]; [4]; [6]]]%float;
     transition_matrix := [[[1]]; [[0.5; 0.5]]; [[0.2; 0.3; 0.5]; [0.2; 0.3; 0.5]]];
     Markovian_uncertainty := fun _ size => repeat trajectory (Z.to_nat size);
     models := [Copies [one_outcome];
                Copies [one_outcome; one_outcome];
                Copies [one_outcome; one_outcome; one_outcome]];
     _type := Markovian; _individual_type := original;
     is_MSIP := false; has_bin_stage := false;
     n_periodical_stages := None |}.

Definition start (s : _Evaluation) : world :=
  {| self := s; shared := []; trace := [] |}.

(** An evaluation of the true problem of [markovian3] on which the
    caller has set [random_state] and [n_simulations]. *)
Definition markovian_evaluation (n : Z) : world :=
  start (set_n_simulations (Some n)
           (set_random_state (Some ([], 0%nat))
              (__init__ class_EvaluationTrue markovian3))).

(** A freshly constructed evaluation object, before any call. *)
Definition fresh (c : class_name) (m : MSLP toy_RandomState) : world :=
  start (__init__ c m).

End examples.

(** * Properties *)

Unset Implicit Arguments.

(** ** Results, comprehensions and ranges *)

Lemma subscript_nth {A} (l : list A) (i : nat) (d : A) :
  (i < length l)%nat -> subscript l i = Ok (nth i l d).
Proof.
  intros Hi. unfold subscript.
  rewrite (nth_error_nth' l d Hi). reflexivity.
Qed.

Lemma subscript_Ok_inv {A} (l : list A) (i : nat) (a : A) :
  subscript l i = Ok a -> (i < length l)%nat /\ nth_error l i = Some a.
Proof.
  unfold subscript. destruct (nth_error l i) eqn:E; [|discriminate].
  intros [= ->]. split; [|reflexivity].
  apply nth_error_Some. congruence.
Qed.

Lemma comprehension_map {A B} (f : A -> result B) (g : A -> B) (l : list A) :
  (forall x, In x l -> f x = Ok (g x)) ->
  comprehension f l = Ok (map g l).
Proof.
  induction l as [|x xs IH]; intros H; simpl; [reflexivity|].
  rewrite (H x (or_introl eq_refl)). simpl.
  rewrite IH by (intros y Hy; apply H; right; exact Hy).
  reflexivity.
Qed.

Lemma comprehension_length {A B} (f : A -> result B) (l : list A) (ys : list B) :
  comprehension f l = Ok ys -> length ys = length l.
Proof.
  revert ys. induction l as [|x xs IH]; simpl; intros ys H.
  - injection H as <-. reflexivity.
  - destruct (f x); simpl in H; [|discriminate].
    destruct (comprehension f xs); simpl in H; [|discriminate].
    injection H as <-. simpl. f_equal. apply IH. reflexivity.
Qed.

Lemma map_nth_seq {A B} (g : A -> B) (l : list A) (d : A) :
  map (fun i => g (nth i l d)) (seq 0 (length l)) = map g l.
Proof.
  induction l as [|x xs IH]; simpl; [reflexivity|].
  f_equal. rewrite <- seq_shift, map_map. exact IH.
Qed.

Lemma range_In (n i : nat) : In i (range n) <-> (i < n)%nat.
Proof. unfold range. rewrite in_seq. lia. Qed.

Lemma range_length (n : nat) : length (range n) = n.
Proof. apply length_seq. Qed.

(** ** Finite sums and products of rationals *)

Lemma sum_Q_app (l1 l2 : list Q) : sum_Q (l1 ++ l2) == sum_Q l1 + sum_Q l2.
Proof.
  induction l1 as [|x xs IH]; simpl; [ring|]. rewrite IH. ring.
Qed.

Lemma sum_Q_ext {A} (f g : A -> Q) (l : list A) :
  (forall x, In x l -> f x == g x) ->
  sum_Q (map f l) == sum_Q (map g l).
Proof.
  induction l as [|x xs IH]; intros H; simpl; [reflexivity|].
  rewrite (H x (or_introl eq_refl)), IH; [reflexivity|].
  intros y Hy. apply H. right. exact Hy.
Qed.

Lemma sum_Q_scale {A} (c : Q) (f : A -> Q) (l : list A) :
  sum_Q (map (fun x => c * f x) l) == c * sum_Q (map f l).
Proof.
  induction l as [|x xs IH]; simpl; [ring|]. rewrite IH. ring.
Qed.

Lemma sum_Q_plus {A} (f g : A -> Q) (l : list A) :
  sum_Q (map (fun x => f x + g x) l) == sum_Q (map f l) + sum_Q (map g l).
Proof.
  induction l as [|x xs IH]; simpl; [ring|]. rewrite IH. ring.
Qed.

Lemma sum_Q_zero {A} (l : list A) : sum_Q (map (fun _ => 0) l) == 0.
Proof. induction l as [|x xs IH]; simpl; [reflexivity|]. rewrite IH. ring. Qed.

Lemma sum_Q_swap {A B} (f : A -> B -> Q) (la : list A) (lb : list B) :
  sum_Q (map (fun a => sum_Q (map (fun b => f a b) lb)) la)
  == sum_Q (map (fun b => sum_Q (map (fun a => f a b) la)) lb).
Proof.
  induction la as [|a la IH]; simpl.
  - rewrite sum_Q_zero. reflexivity.
  - rewrite IH, <- sum_Q_plus. reflexivity.
Qed.

Lemma sum_Q_flat_map {A B} (g : A -> list B) (f : B -> Q) (l : list A) :
  sum_Q (map f (flat_map g l)) == sum_Q (map (fun a => sum_Q (map f (g a))) l).
Proof.
  induction l as [|a l IH]; simpl; [reflexivity|].
  rewrite map_app, sum_Q_app, IH. reflexivity.
Qed.

Lemma sum_Q_list_prod {A B} (f : A * B -> Q) (la : list A) (lb : list B) :
  sum_Q (map f (list_prod la lb))
  == sum_Q (map (fun a => sum_Q (map (fun b => f (a, b)) lb)) la).
Proof.
  induction la as [|a la IH]; simpl; [reflexivity|].
  rewrite map_app, sum_Q_app, IH, map_map. reflexivity.
Qed.

Lemma sum_Q_nth_range (row : list Q) :
  sum_Q (map (fun k => nth k row 0) (range (length row))) == sum_Q row.
Proof.
  unfold range. rewrite (map_nth_seq (fun x => x) row 0), map_id. reflexivity.
Qed.

Lemma sum_Q_pointwise (l1 l2 : list Q) :
  Forall2 Qeq l1 l2 -> sum_Q l1 == sum_Q l2.
Proof.
  induction 1 as [|x y xs ys Hxy _ IH]; simpl; [reflexivity|].
  rewrite Hxy, IH. reflexivity.
Qed.

Lemma prod_Q_pointwise (l1 l2 : list Q) :
  Forall2 Qeq l1 l2 -> prod_Q l1 == prod_Q l2.
Proof.
  induction 1 as [|x y xs ys Hxy _ IH]; simpl; [reflexivity|].
  rewrite Hxy, IH. reflexivity.
Qed.

Lemma sum_Q_repeat (c : Q) (n : nat) :
  sum_Q (repeat c n) == inject_Z (Z.of_nat n) * c.
Proof.
  induction n as [|n IH].
  - simpl. ring.
  - rewrite Nat2Z.inj_succ. unfold Z.succ. rewrite inject_Z_plus.
    simpl repeat. simpl sum_Q. rewrite IH. ring.
Qed.

(** ** Cartesian products *)

Lemma product_length {A} (ls : list (list A)) :
  length (product ls) = prod_nat (map (@length A) ls).
Proof.
  induction ls as [|l rest IH]; simpl; [reflexivity|].
  rewrite <- IH. clear IH.
  induction l as [|x l IHl]; simpl; [reflexivity|].
  rewrite length_app, length_map, IHl. reflexivity.
Qed.

Lemma product_In {A} (ls : list (list A)) (p : list A) :
  In p (product ls) <-> Forall2 (fun x l => In x l) p ls.
Proof.
  revert p. induction ls as [|l rest IH]; intros p; simpl.
  - split.
    + intros [<-|[]]. constructor.
    + intros H. inversion H. left. reflexivity.
  - rewrite in_flat_map. split.
    + intros [x [Hx Hp]]. apply in_map_iff in Hp as [q [<- Hq]].
      constructor; [exact Hx|]. apply IH. exact Hq.
    + intros H. inversion H as [|x l' q rest' Hx Hq]; subst.
      exists x. split; [exact Hx|]. apply in_map. apply IH. exact Hq.
Qed.

Lemma NoDup_map_cons {A} (x : A) (l : list (list A)) :
  NoDup l -> NoDup (map (cons x) l).
Proof.
  intros H. apply Injective_map_NoDup; [|exact H].
  intros a b [= ->]. reflexivity.
Qed.

Lemma NoDup_flat_map_disjoint {A B} (g : A -> list B) (l : list A) :
  NoDup l ->
  (forall a, In a l -> NoDup (g a)) ->
  (forall a a' b, In a l -> In a' l -> In b (g a) -> In b (g a') -> a = a') ->
  NoDup (flat_map g l).
Proof.
  induction l as [|a l IH]; intros Hl Hg Hd; simpl; [constructor|].
  inversion Hl as [|? ? Hnotin Hl']; subst.
  apply NoDup_app.
  - apply Hg. left. reflexivity.
  - apply IH; [exact Hl'| |].
    + intros a' Ha'. apply Hg. right. exact Ha'.
    + intros a1 a2 b H1 H2. apply Hd; right; assumption.
  - intros b Hb Hb'. apply in_flat_map in Hb' as [a' [Ha' Hb']].
    assert (a = a') by (apply (Hd a a' b); [left; reflexivity|right; exact Ha'|exact Hb|exact Hb']).
    subst. contradiction.
Qed.

Lemma product_NoDup {A} (ls : list (list A)) :
  Forall (@NoDup A) ls -> NoDup (product ls).
Proof.
  induction 1 as [|l rest Hl _ IH]; simpl.
  - constructor; [intros []|constructor].
  - apply NoDup_flat_map_disjoint; [exact Hl| |].
    + intros a _. apply NoDup_map_cons. exact IH.
    + intros a a' b _ _ Hb Hb'.
      apply in_map_iff in Hb as [q [<- _]].
      apply in_map_iff in Hb' as [q' [E _]]. congruence.
Qed.

Lemma list_prod_NoDup {A B} (la : list A) (lb : list B) :
  NoDup la -> NoDup lb -> NoDup (list_prod la lb).
Proof.
  intros Ha Hb. induction Ha as [|a la Hnotin Ha IH]; simpl; [constructor|].
  apply NoDup_app.
  - apply Injective_map_NoDup; [|exact Hb]. intros x y [= ->]. reflexivity.
  - exact IH.
  - intros [a' b'] H1 H2. apply in_map_iff in H1 as [y [[= <- <-] _]].
    apply in_prod_iff in H2 as [H2 _]. contradiction.
Qed.

Lemma map_seq_S {B} (f : nat -> B) (n : nat) :
  map f (seq 0 (S n)) = f 0%nat :: map (fun i => f (S i)) (seq 0 n).
Proof. simpl. rewrite <- seq_shift, map_map. reflexivity. Qed.

Lemma sum_Q_const {A} (c : Q) (l : list A) :
  sum_Q (map (fun _ => c) l) == inject_Z (Z.of_nat (length l)) * c.
Proof.
  induction l as [|x xs IH].
  - simpl. ring.
  - simpl length. rewrite Nat2Z.inj_succ. unfold Z.succ. rewrite inject_Z_plus.
    simpl map. simpl sum_Q. rewrite IH. ring.
Qed.

(** ** The probability model *)

Module msp_facts.

Import msp.

Section Facts.

Context {RS : Type}.
Implicit Type self : MSLP RS.

(** *** What the decidable checks give *)

Lemma model_ok_length (m : StochasticModel) :
  model_ok m = true -> length (probability_or_uniform m) = n_samples m.
Proof.
  unfold model_ok, probability_or_uniform.
  intros H. apply andb_true_iff in H as [_ H].
  destruct (probability m) as [p|].
  - apply andb_true_iff in H as [H _]. apply Nat.eqb_eq. exact H.
  - rewrite length_map. apply range_length.
Qed.

Lemma model_ok_sum (m : StochasticModel) :
  model_ok m = true -> sum_Q (probability_or_uniform m) == 1.
Proof.
  unfold model_ok, probability_or_uniform.
  intros H. apply andb_true_iff in H as [Hn H].
  apply Nat.leb_le in Hn.
  destruct (probability m) as [p|].
  - apply andb_true_iff in H as [_ H]. apply Qeq_bool_iff. exact H.
  - rewrite sum_Q_const, range_length.
    assert (Hz : ~ inject_Z (Z.of_nat (n_samples m)) == 0).
    { intros E. apply (proj1 (inject_Z_injective _ 0%Z)) in E. lia. }
    field. exact Hz.
Qed.

Lemma indices_below_length (bounds idx : list nat) :
  indices_below bounds idx = true -> length idx = length bounds.
Proof.
  revert idx. induction bounds as [|b bs IH]; intros [|i idx1] H;
    simpl in *; try discriminate; [reflexivity|].
  apply andb_true_iff in H as [_ H]. f_equal. apply IH. exact H.
Qed.

Lemma indices_below_nth (bounds idx : list nat) (t : nat) :
  indices_below bounds idx = true -> (t < length bounds)%nat ->
  (nth t idx 0 < nth t bounds 0)%nat.
Proof.
  revert idx t. induction bounds as [|b bs IH]; intros [|i idx1] t H Ht;
    simpl in *; try discriminate; [lia|].
  apply andb_true_iff in H as [Hi H].
  destruct t as [|t]; [apply Nat.ltb_lt; exact Hi|].
  apply IH; [exact H|lia].
Qed.

Lemma indices_below_iff (bounds idx : list nat) :
  indices_below bounds idx = true <->
  Forall2 (fun i l => In i l) idx (map range bounds).
Proof.
  revert idx. induction bounds as [|b bs IH]; intros [|i idx1]; simpl.
  - split; [constructor|reflexivity].
  - split; [discriminate|intros H; inversion H].
  - split; [discriminate|intros H; inversion H].
  - rewrite andb_true_iff, Nat.ltb_lt, IH. split.
    + intros [Hi H]. constructor; [apply range_In; exact Hi|exact H].
    + intros H. inversion H; subst. split; [apply range_In|]; assumption.
Qed.

Lemma stages_ok_length (ns : list nat) (ms : list stage_models) :
  stages_ok ns ms = true -> length ms = length ns.
Proof.
  revert ms. induction ns as [|n ns IH]; intros [|sm ms] H;
    simpl in *; try discriminate; [reflexivity|].
  apply andb_true_iff in H as [_ H]. f_equal. apply IH. exact H.
Qed.

Lemma stages_ok_nth (ns : list nat) (ms : list stage_models) (t : nat) :
  stages_ok ns ms = true -> (t < length ns)%nat ->
  copies_ok (nth t ns 0%nat) (nth t ms (Copies [])) = true.
Proof.
  revert ms t. induction ns as [|n ns IH]; intros [|sm ms] t H Ht;
    simpl in *; try discriminate; [lia|].
  apply andb_true_iff in H as [Hsm H].
  destruct t as [|t]; [exact Hsm|].
  apply IH; [exact H|lia].
Qed.

Lemma copies_ok_inv (n : nat) (sm : stage_models) :
  copies_ok n sm = true ->
  exists m0 ms,
    sm = Copies (m0 :: ms) /\ length (m0 :: ms) = n /\
    forall m, In m (m0 :: ms) ->
              model_ok m = true /\ n_samples m = n_samples m0.
Proof.
  destruct sm as [m|[|m0 ms]]; cbn [copies_ok]; try discriminate.
  intros H. apply andb_true_iff in H as [Hlen Hall].
  exists m0, ms. split; [reflexivity|]. split; [apply Nat.eqb_eq; exact Hlen|].
  intros m Hm. rewrite forallb_forall in Hall.
  specialize (Hall m Hm). apply andb_true_iff in Hall as [H1 H2].
  split; [exact H1|apply Nat.eqb_eq; exact H2].
Qed.

Lemma transitions_ok_length (n_prev : nat) (ns : list nat)
    (Ps : list (list (list Q))) :
  transitions_ok n_prev ns Ps = true -> length Ps = length ns.
Proof.
  revert n_prev Ps. induction ns as [|n ns IH]; intros n_prev [|P Ps] H;
    simpl in *; try discriminate; [reflexivity|].
  apply andb_true_iff in H as [_ H]. f_equal. apply (IH n). exact H.
Qed.

Lemma transitions_ok_nth (n_prev : nat) (ns : list nat)
    (Ps : list (list (list Q))) (u : nat) :
  transitions_ok n_prev ns Ps = true -> (u < length ns)%nat ->
  matrix_ok (nth u (n_prev :: ns) 0%nat) (nth u ns 0%nat) (nth u Ps []) = true.
Proof.
  revert n_prev Ps u. induction ns as [|n ns IH]; intros n_prev [|P Ps] u H Hu;
    simpl in H; try discriminate; [simpl in Hu; lia|].
  apply andb_true_iff in H as [HP H].
  destruct u as [|u]; [exact HP|].
  simpl in Hu. change (nth (S u) (n_prev :: n :: ns) 0%nat) with (nth u (n :: ns) 0%nat).
  change (nth (S u) (n :: ns) 0%nat) with (nth u ns 0%nat).
  change (nth (S u) (P :: Ps) []) with (nth u Ps []).
  apply IH; [exact H|lia].
Qed.

Lemma matrix_ok_inv (n_prev n : nat) (P : list (list Q)) :
  matrix_ok n_prev n P = true ->
  length P = n_prev /\
  forall a, (a < n_prev)%nat ->
            length (nth a P []) = n /\ sum_Q (nth a P []) == 1.
Proof.
  unfold matrix_ok. intros H. apply andb_true_iff in H as [Hlen Hall].
  apply Nat.eqb_eq in Hlen. split; [exact Hlen|].
  intros a Ha. rewrite forallb_forall in Hall.
  assert (Hin : In (nth a P []) P) by (apply nth_In; lia).
  specialize (Hall _ Hin). unfold row_ok in Hall.
  apply andb_true_iff in Hall as [H1 H2].
  split; [apply Nat.eqb_eq; exact H1|apply Qeq_bool_iff; exact H2].
Qed.

Lemma prod_Q_cons (x : Q) (l : list Q) : prod_Q (x :: l) = x * prod_Q l.
Proof. reflexivity. Qed.

(** *** The probability table *)

Lemma set_up_probability_independent self :
  independent_ok self = true ->
  _set_up_probability self
  = Ok (ProbIndep (map (fun sm => nth 0 (stage_probabilities sm) []) (models self))).
Proof.
  unfold independent_ok, _set_up_probability.
  destruct (n_Markov_states self); [|discriminate].
  intros H. apply andb_true_iff in H as [Hlen Hall].
  apply Nat.eqb_eq in Hlen. rewrite forallb_forall in Hall.
  rewrite (comprehension_map _
             (fun t => nth 0 (stage_probabilities (nth t (models self) (Copies []))) [])).
  - simpl. do 2 f_equal. unfold range. rewrite <- Hlen.
    apply (map_nth_seq (fun sm => nth 0 (stage_probabilities sm) [])).
  - intros t Ht. apply range_In in Ht.
    rewrite (subscript_nth _ _ (Copies [])) by lia. simpl.
    assert (Hin : In (nth t (models self) (Copies [])) (models self))
      by (apply nth_In; lia).
    specialize (Hall _ Hin).
    destruct (nth t (models self) (Copies [])); [reflexivity|discriminate].
Qed.

Lemma chain_ok_inv self :
  chain_ok self = true ->
  exists ns' P0 Ps,
    n_Markov_states self = PerStage (1%nat :: ns') /\
    transition_matrix self = P0 :: Ps /\
    length (1%nat :: ns') = T self /\
    stages_ok (1%nat :: ns') (models self) = true /\
    transitions_ok 1 ns' Ps = true.
Proof.
  unfold chain_ok.
  destruct (n_Markov_states self) as [|[|[|[|n0]] ns']]; try discriminate.
  destruct (transition_matrix self) as [|P0 Ps]; try discriminate.
  intros H. apply andb_true_iff in H as [H H3].
  apply andb_true_iff in H as [H1 H2].
  exists ns', P0, Ps. repeat split; try assumption.
  apply Nat.eqb_eq. exact H1.
Qed.

Lemma set_up_probability_chain self :
  chain_ok self = true ->
  _set_up_probability self
  = Ok (ProbMixed (map stage_probabilities (models self))).
Proof.
  intros H. destruct (chain_ok_inv self H) as (ns' & P0 & Ps & Hn & _ & HT & Hst & _).
  unfold _set_up_probability. rewrite Hn.
  set (ns := (1%nat :: ns')) in *.
  pose proof (stages_ok_length _ _ Hst) as Hlen.
  rewrite (comprehension_map _
             (fun t => stage_probabilities (nth t (models self) (Copies [])))).
  - simpl. do 2 f_equal. unfold range. rewrite <- HT, <- Hlen.
    apply (map_nth_seq stage_probabilities).
  - intros t Ht. apply range_In in Ht.
    rewrite (subscript_nth _ _ 0%nat) by lia. cbn [rbind].
    pose proof (stages_ok_nth _ _ t Hst ltac:(lia)) as Hc.
    apply copies_ok_inv in Hc as (m0 & ms & Hsm & Hl & _).
    rewrite Hsm. cbn [stage_probabilities].
    rewrite (comprehension_map _
               (fun k => probability_or_uniform (nth k (m0 :: ms) m0))).
    + f_equal. unfold range. rewrite <- Hl.
      apply (map_nth_seq probability_or_uniform).
    + intros k Hk. apply range_In in Hk.
      rewrite (subscript_nth _ _ (Copies [])) by lia. rewrite Hsm. simpl.
      unfold copy_at. rewrite (subscript_nth _ _ m0) by lia. reflexivity.
Qed.

(** *** Index form and recursive form of the products *)

Lemma outcome_product_index (stages : list stage_models) (sp : list nat) :
  length sp = length stages ->
  prod_Q (map (fun t => nth (nth t sp 0%nat)
                            (nth t (map (fun sm => nth 0 (stage_probabilities sm) [])
                                        stages) []) 0)
              (seq 0 (length sp)))
  == outcome_product stages sp.
Proof.
  revert sp. induction stages as [|sm stages IH]; intros [|s sp] Hlen;
    simpl in Hlen; try discriminate; [reflexivity|].
  cbn [length]. rewrite map_seq_S.
  cbn [outcome_product]. rewrite prod_Q_cons.
  apply Qmult_comp; [reflexivity|].
  apply (IH sp). lia.
Qed.

Lemma conditional_outcome_product_index (stages : list stage_models)
    (sp mp : list nat) :
  length sp = length stages -> length mp = length stages ->
  prod_Q (map (fun t => nth (nth t sp 0%nat)
                            (nth (nth t mp 0%nat)
                                 (nth t (map stage_probabilities stages) []) []) 0)
              (seq 0 (length sp)))
  == conditional_outcome_product stages sp mp.
Proof.
  revert sp mp. induction stages as [|sm stages IH]; intros [|s sp] [|k mp] Hs Hm;
    simpl in Hs, Hm; try discriminate; [reflexivity|].
  cbn [length]. rewrite map_seq_S.
  cbn [conditional_outcome_product]. rewrite prod_Q_cons.
  apply Qmult_comp; [reflexivity|].
  apply (IH sp mp); lia.
Qed.

Lemma transition_product_index (Ps : list (list (list Q))) (prev : nat)
    (mp : list nat) :
  (length mp <= length Ps)%nat ->
  prod_Q (map (fun u => nth (nth u mp 0%nat)
                            (nth (nth u (prev :: mp) 0%nat) (nth u Ps []) []) 0)
              (seq 0 (length mp)))
  == transition_product Ps prev mp.
Proof.
  revert Ps prev. induction mp as [|k mp IH]; intros [|P Ps] prev Hlen;
    simpl in Hlen; try lia; try reflexivity.
  cbn [length]. rewrite map_seq_S.
  cbn [transition_product]. rewrite prod_Q_cons.
  apply Qmult_comp; [reflexivity|].
  apply (IH Ps k). lia.
Qed.

(** *** The computed weight is the specified product *)

Lemma stage_table_nth {X} (f : stage_models -> list X)
    (stages : list stage_models) (t : nat) :
  f (Copies []) = [] ->
  nth t (map f stages) [] = f (nth t stages (Copies [])).
Proof. intros Hd. rewrite <- Hd at 1. apply map_nth. Qed.

Lemma outcome_count_nth (stages : list stage_models) (t : nat) :
  nth t (map outcome_count stages) 0%nat = outcome_count (nth t stages (Copies [])).
Proof. apply (map_nth outcome_count stages (Copies [])). Qed.

Lemma compute_weight_independent self (sp : list nat) :
  independent_ok self = true ->
  full_path self (Indep sp) = true ->
  exists w, _compute_weight_sample_path self (Indep sp) = Ok w /\
            w == weightOf_spec self (Indep sp).
Proof.
  intros Hok Hfull.
  pose proof (set_up_probability_independent self Hok) as Htbl.
  unfold independent_ok in Hok. unfold full_path in Hfull.
  destruct (n_Markov_states self); [|discriminate].
  apply andb_true_iff in Hok as [Hlen Hall].
  apply Nat.eqb_eq in Hlen. rewrite forallb_forall in Hall.
  pose proof (indices_below_length _ _ Hfull) as Hsp.
  rewrite length_map in Hsp.
  unfold _compute_weight_sample_path. rewrite Htbl. cbn [rbind].
  set (tbl := map (fun sm => nth 0 (stage_probabilities sm) []) (models self)).
  rewrite (comprehension_map _
             (fun t => nth (nth t sp 0%nat) (nth t tbl []) 0)).
  - cbn [rbind]. eexists. split; [reflexivity|].
    unfold range, weightOf_spec, tbl. apply outcome_product_index. exact Hsp.
  - intros t Ht. apply range_In in Ht.
    assert (Hin : In (nth t (models self) (Copies [])) (models self))
      by (apply nth_In; lia).
    pose proof (Hall _ Hin) as Hm.
    pose proof (indices_below_nth _ _ t Hfull) as Hs.
    rewrite length_map, outcome_count_nth in Hs. specialize (Hs ltac:(lia)).
    assert (Et : nth t tbl []
                 = nth 0 (stage_probabilities (nth t (models self) (Copies []))) []).
    { unfold tbl.
      apply (stage_table_nth (fun sm => nth 0 (stage_probabilities sm) [])).
      reflexivity. }
    rewrite (subscript_nth _ _ []) by (unfold tbl; rewrite length_map; lia).
    cbn [rbind]. rewrite (subscript_nth _ _ 0%nat) by lia. cbn [rbind].
    apply subscript_nth. rewrite Et.
    destruct (nth t (models self) (Copies [])) as [m|ms]; [|discriminate].
    cbn [stage_probabilities nth]. cbn [single_ok] in Hm.
    rewrite (model_ok_length m Hm). exact Hs.
Qed.

Lemma compute_weight_chain self (sp mp : list nat) :
  chain_ok self = true ->
  full_path self (Mixed sp mp) = true ->
  exists w, _compute_weight_sample_path self (Mixed sp mp) = Ok w /\
            w == weightOf_spec self (Mixed sp mp).
Proof.
  intros Hok Hfull.
  pose proof (set_up_probability_chain self Hok) as Htbl.
  destruct (chain_ok_inv self Hok) as (ns' & P0 & Ps & Hn & HTM & HT & Hst & Htr).
  unfold full_path in Hfull. rewrite Hn in Hfull.
  apply andb_true_iff in Hfull as [Hsp Hmp].
  pose proof (stages_ok_length _ _ Hst) as Hlen.
  pose proof (transitions_ok_length _ _ _ Htr) as HPs.
  pose proof (indices_below_length _ _ Hsp) as Lsp. rewrite length_map in Lsp.
  pose proof (indices_below_length _ _ Hmp) as Lmp.
  set (ns := (1%nat :: ns')) in *.
  assert (Lns : length ns = S (length ns')) by reflexivity.
  unfold _compute_weight_sample_path. rewrite Htbl. cbn [rbind].
  set (tbl := map stage_probabilities (models self)).
  rewrite (comprehension_map _
             (fun t => nth (nth t mp 0%nat)
                           (nth (nth (t - 1) mp 0%nat)
                                (nth t (transition_matrix self) []) []) 0)).
  - cbn [rbind].
    rewrite (comprehension_map _
               (fun t => nth (nth t sp 0%nat)
                             (nth (nth t mp 0%nat) (nth t tbl []) []) 0)).
    + cbn [rbind]. eexists. split; [reflexivity|].
      unfold weightOf_spec. apply Qmult_comp.
      * destruct mp as [|k0 mp']; [simpl in Lmp; lia|].
        rewrite HTM. cbn [tl]. unfold range2.
        replace (length sp - 1)%nat with (length mp') by (simpl in Lmp; lia).
        rewrite <- seq_shift, map_map.
        rewrite <- (transition_product_index Ps k0 mp') by (simpl in Lmp; lia).
        rewrite (map_ext
                   (fun x => nth (nth (S x) (k0 :: mp') 0%nat)
                                 (nth (nth (S x - 1) (k0 :: mp') 0%nat)
                                      (nth (S x) (P0 :: Ps) []) []) 0)
                   (fun u => nth (nth u mp' 0%nat)
                                 (nth (nth u (k0 :: mp') 0%nat) (nth u Ps []) []) 0)).
        { reflexivity. }
        intros u. cbn [nth]. rewrite Nat.sub_succ, Nat.sub_0_r. reflexivity.
      * unfold range, tbl. apply conditional_outcome_product_index; lia.
    + intros t Ht. apply range_In in Ht.
      pose proof (stages_ok_nth _ _ t Hst ltac:(lia)) as Hc.
      apply copies_ok_inv in Hc as (m0 & ms & Hsm & Hl & Hms).
      pose proof (indices_below_nth _ _ t Hmp ltac:(lia)) as Hk.
      pose proof (indices_below_nth _ _ t Hsp) as Hs.
      rewrite length_map, outcome_count_nth, Hsm in Hs.
      specialize (Hs ltac:(lia)). cbn [outcome_count] in Hs.
      assert (Et : nth t tbl [] = map probability_or_uniform (m0 :: ms)).
      { unfold tbl. rewrite (stage_table_nth stage_probabilities) by reflexivity.
        rewrite Hsm. reflexivity. }
      rewrite (subscript_nth _ _ []) by (unfold tbl; rewrite length_map; lia).
      cbn [rbind]. rewrite (subscript_nth _ _ 0%nat) by lia. cbn [rbind].
      rewrite (subscript_nth _ _ []) by (rewrite Et, length_map; lia).
      cbn [rbind]. rewrite (subscript_nth _ _ 0%nat) by lia. cbn [rbind].
      apply subscript_nth. rewrite Et.
      rewrite (nth_indep _ [] (probability_or_uniform m0))
        by (rewrite length_map; lia).
      rewrite (map_nth probability_or_uniform (m0 :: ms) m0).
      assert (Hin : In (nth (nth t mp 0%nat) (m0 :: ms) m0) (m0 :: ms))
        by (apply nth_In; lia).
      destruct (Hms _ Hin) as [Hmo Hcount].
      rewrite (model_ok_length _ Hmo), Hcount. exact Hs.
  - intros t Ht. unfold range2 in Ht. apply in_seq in Ht.
    destruct t as [|u]; [lia|].
    rewrite HTM. cbn [nth]. rewrite Nat.sub_succ, Nat.sub_0_r.
    pose proof (transitions_ok_nth 1 ns' Ps u Htr ltac:(lia)) as HM.
    apply matrix_ok_inv in HM as [HlenP Hrows].
    pose proof (indices_below_nth _ _ u Hmp ltac:(lia)) as Ha.
    pose proof (indices_below_nth _ _ (S u) Hmp ltac:(lia)) as Hb.
    fold ns in HlenP, Hrows.
    destruct (Hrows _ Ha) as [Hrow _].
    change (nth (S u) ns 0%nat) with (nth u ns' 0%nat) in Hb.
    unfold subscript at 1.
    rewrite (nth_error_nth' (P0 :: Ps) [] (n := S u)) by (simpl; lia).
    cbn [nth rbind].
    rewrite (subscript_nth _ _ 0%nat) by lia. cbn [rbind].
    rewrite (subscript_nth _ _ []) by lia. cbn [rbind].
    rewrite (subscript_nth _ _ 0%nat) by lia. cbn [rbind].
    apply subscript_nth. lia.
Qed.

(** *** Exhaustive enumeration *)

Lemma range_Z_full (n : nat) : range_Z (Z.of_nat n - 1 + 1) = range n.
Proof. unfold range_Z. f_equal. lia. Qed.

Lemma map_nth_range {A B} (g : A -> B) (l : list A) (d : A) :
  map (fun i => g (nth i l d)) (range (length l)) = map g l.
Proof. apply map_nth_seq. Qed.

Lemma enumerate_independent self :
  independent_ok self = true ->
  _enumerate_sample_paths self (Z.of_nat (T self) - 1)
  = Ok (prod_nat (map outcome_count (models self)),
        map Indep (product (map range (map outcome_count (models self))))).
Proof.
  unfold independent_ok, _enumerate_sample_paths.
  destruct (n_Markov_states self); [|discriminate].
  intros H. apply andb_true_iff in H as [Hlen Hall].
  apply Nat.eqb_eq in Hlen. rewrite forallb_forall in Hall.
  rewrite range_Z_full.
  rewrite (comprehension_map _
             (fun t => outcome_count (nth t (models self) (Copies [])))).
  - cbn [rbind]. rewrite <- Hlen.
    rewrite (map_nth_range outcome_count). reflexivity.
  - intros t Ht. apply range_In in Ht.
    rewrite (subscript_nth _ _ (Copies [])) by lia. cbn [rbind].
    assert (Hin : In (nth t (models self) (Copies [])) (models self))
      by (apply nth_In; lia).
    specialize (Hall _ Hin).
    destruct (nth t (models self) (Copies [])); [reflexivity|discriminate].
Qed.

Lemma enumerate_chain self (ns : list nat) :
  chain_ok self = true ->
  n_Markov_states self = PerStage ns ->
  _enumerate_sample_paths self (Z.of_nat (T self) - 1)
  = Ok ((prod_nat ns * prod_nat (map outcome_count (models self)))%nat,
        map (fun p => Mixed (fst p) (snd p))
            (list_prod (product (map range (map outcome_count (models self))))
                       (product (map range ns)))).
Proof.
  intros Hok Hns.
  destruct (chain_ok_inv self Hok) as (ns' & P0 & Ps & Hn & _ & HT & Hst & _).
  rewrite Hns in Hn. injection Hn as ->.
  pose proof (stages_ok_length _ _ Hst) as Hlen.
  unfold _enumerate_sample_paths. rewrite Hns, range_Z_full.
  rewrite (comprehension_map _
             (fun t => outcome_count (nth t (models self) (Copies [])))).
  - cbn [rbind].
    rewrite (comprehension_map _ (fun t => nth t (1%nat :: ns') 0%nat)).
    + cbn [rbind]. rewrite <- HT.
      rewrite (map_nth_range (fun x => x)), map_id.
      rewrite <- Hlen. rewrite (map_nth_range outcome_count). reflexivity.
    + intros t Ht. apply range_In in Ht. apply subscript_nth. lia.
  - intros t Ht. apply range_In in Ht.
    rewrite (subscript_nth _ _ (Copies [])) by lia. cbn [rbind].
    pose proof (stages_ok_nth _ _ t Hst ltac:(lia)) as Hc.
    apply copies_ok_inv in Hc as (m0 & ms & Hsm & _ & _).
    rewrite Hsm. reflexivity.
Qed.

Lemma prod_nat_range_lengths (ns : list nat) :
  prod_nat (map (@length nat) (map range ns)) = prod_nat ns.
Proof.
  rewrite map_map. f_equal.
  rewrite <- (map_id ns) at 2. apply map_ext. intros n. apply range_length.
Qed.

Lemma ranges_NoDup (ns : list nat) : Forall (@NoDup nat) (map range ns).
Proof.
  apply Forall_forall. intros l Hl. apply in_map_iff in Hl as [n [<- _]].
  apply seq_NoDup.
Qed.

(** A comprehension whose body succeeds on every element. *)
Lemma comprehension_Forall2 {A B} (f : A -> result B) (R : A -> B -> Prop)
    (l : list A) :
  (forall x, In x l -> exists y, f x = Ok y /\ R x y) ->
  exists ys, comprehension f l = Ok ys /\ Forall2 R l ys.
Proof.
  induction l as [|x xs IH]; intros H.
  - exists []. split; [reflexivity|constructor].
  - destruct (H x (or_introl eq_refl)) as [y [Hy HR]].
    destruct IH as [ys [Hys HF]].
    { intros z Hz. apply H. right. exact Hz. }
    exists (y :: ys). split.
    + simpl. rewrite Hy. simpl. rewrite Hys. reflexivity.
    + constructor; assumption.
Qed.

Lemma sum_Q_Forall2 {A} (g : A -> Q) (l : list A) (ys : list Q) :
  Forall2 (fun x y => y == g x) l ys -> sum_Q ys == sum_Q (map g l).
Proof.
  induction 1 as [|x y xs ys Hxy _ IH]; simpl; [reflexivity|].
  rewrite Hxy, IH. reflexivity.
Qed.

Lemma sum_Q_product_cons {A} (f : list A -> Q) (l : list A) (ls : list (list A)) :
  sum_Q (map f (product (l :: ls)))
  == sum_Q (map (fun x => sum_Q (map (fun p => f (x :: p)) (product ls))) l).
Proof.
  cbn [product]. rewrite sum_Q_flat_map.
  apply sum_Q_ext. intros x _. rewrite map_map. reflexivity.
Qed.

(** *** The weights of all paths sum to one *)

Lemma outcome_product_total (stages : list stage_models) :
  forallb single_ok stages = true ->
  sum_Q (map (outcome_product stages)
             (product (map range (map outcome_count stages)))) == 1.
Proof.
  induction stages as [|sm stages IH]; intros Hall.
  - simpl. ring.
  - cbn [forallb] in Hall. apply andb_true_iff in Hall as [Hsm Hall].
    destruct sm as [m|ms]; [|discriminate]. cbn [single_ok] in Hsm.
    cbn [map]. rewrite sum_Q_product_cons.
    cbn [outcome_product outcome_count stage_probabilities nth].
    rewrite (sum_Q_ext _
               (fun s => nth s (probability_or_uniform m) 0 * 1)).
    + rewrite <- (model_ok_length m Hsm).
      rewrite (sum_Q_ext _ (fun s => nth s (probability_or_uniform m) 0))
        by (intros; ring).
      rewrite sum_Q_nth_range. apply model_ok_sum. exact Hsm.
    + intros s _. rewrite sum_Q_scale. rewrite (IH Hall). reflexivity.
Qed.

Lemma chain_product_total (ns : list nat) :
  forall (stages : list stage_models) (Ps : list (list (list Q)))
         (n_prev prev : nat),
    stages_ok ns stages = true ->
    transitions_ok n_prev ns Ps = true ->
    (prev < n_prev)%nat ->
    sum_Q (map (fun sp =>
                  sum_Q (map (fun mp =>
                                transition_product Ps prev mp
                                * conditional_outcome_product stages sp mp)
                             (product (map range ns))))
               (product (map range (map outcome_count stages)))) == 1.
Proof.
  induction ns as [|n ns IH]; intros [|sm stages] [|P Ps] n_prev prev Hst Htr Hprev;
    simpl in Hst, Htr; try discriminate.
  - simpl. ring.
  - apply andb_true_iff in Hst as [Hsm Hst].
    apply andb_true_iff in Htr as [HP Htr].
    apply copies_ok_inv in Hsm as (m0 & ms & -> & Hlen & Hms).
    apply matrix_ok_inv in HP as [_ Hrows].
    destruct (Hrows prev Hprev) as [Hrow Hrow1].
    cbn [map outcome_count]. rewrite sum_Q_product_cons.
    (* expose the four nested sums *)
    rewrite (sum_Q_ext _
      (fun s => sum_Q (map (fun k =>
         nth k (nth prev P []) 0
         * (nth s (nth k (map probability_or_uniform (m0 :: ms)) []) 0 * 1))
         (range n)))).
    + rewrite sum_Q_swap.
      rewrite (sum_Q_ext _ (fun k => nth k (nth prev P []) 0)).
      * rewrite <- Hrow. rewrite sum_Q_nth_range. exact Hrow1.
      * intros k Hk. apply range_In in Hk.
        rewrite sum_Q_scale.
        rewrite (sum_Q_ext _
                   (fun s => nth s (probability_or_uniform (nth k (m0 :: ms) m0)) 0)).
        -- assert (Hin : In (nth k (m0 :: ms) m0) (m0 :: ms))
             by (apply nth_In; lia).
           destruct (Hms _ Hin) as [Hmo Hcount].
           rewrite <- Hcount, <- (model_ok_length _ Hmo).
           rewrite sum_Q_nth_range, (model_ok_sum _ Hmo). ring.
        -- intros s _.
           rewrite (nth_indep _ [] (probability_or_uniform m0))
             by (rewrite length_map; lia).
           rewrite (map_nth probability_or_uniform (m0 :: ms) m0). ring.
    + intros s _.
      rewrite (sum_Q_ext _
        (fun sp' => sum_Q (map (fun k => sum_Q (map (fun mp' =>
           (nth k (nth prev P []) 0
            * nth s (nth k (map probability_or_uniform (m0 :: ms)) []) 0)
           * (transition_product Ps k mp'
              * conditional_outcome_product stages sp' mp'))
           (product (map range ns)))) (range n)))).
      * rewrite sum_Q_swap. apply sum_Q_ext. intros k Hk. apply range_In in Hk.
        rewrite (sum_Q_ext _
          (fun sp' =>
             (nth k (nth prev P []) 0
              * nth s (nth k (map probability_or_uniform (m0 :: ms)) []) 0)
             * sum_Q (map (fun mp' =>
                 transition_product Ps k mp'
                 * conditional_outcome_product stages sp' mp')
                 (product (map range ns)))))
          by (intros sp' _; apply sum_Q_scale).
        rewrite sum_Q_scale.
        rewrite (IH stages Ps n k Hst Htr Hk). ring.
      * intros sp' _.
        change (map range (n :: ns)) with (range n :: map range ns).
        rewrite sum_Q_product_cons.
        apply sum_Q_ext. intros k _. apply sum_Q_ext. intros mp' _.
        cbn [transition_product conditional_outcome_product stage_probabilities].
        ring.
Qed.

Lemma weightOf_spec_total_independent self :
  independent_ok self = true ->
  sum_Q (map (weightOf_spec self)
             (map Indep (product (map range (map outcome_count (models self))))))
  == 1.
Proof.
  intros Hok. unfold independent_ok in Hok.
  destruct (n_Markov_states self); [|discriminate].
  apply andb_true_iff in Hok as [_ Hall].
  rewrite map_map. cbn [weightOf_spec].
  apply outcome_product_total. exact Hall.
Qed.

Lemma weightOf_spec_total_chain self (ns : list nat) :
  chain_ok self = true ->
  n_Markov_states self = PerStage ns ->
  sum_Q (map (weightOf_spec self)
             (map (fun p => Mixed (fst p) (snd p))
                  (list_prod (product (map range (map outcome_count (models self))))
                             (product (map range ns)))))
  == 1.
Proof.
  intros Hok Hns.
  destruct (chain_ok_inv self Hok) as (ns' & P0 & Ps & Hn & HTM & _ & Hst & Htr).
  rewrite Hns in Hn. injection Hn as ->.
  rewrite map_map, sum_Q_list_prod.
  rewrite <- (chain_product_total (1%nat :: ns') (models self) ([[1]] :: Ps) 1 0 Hst).
  - apply sum_Q_ext. intros sp _. apply sum_Q_ext. intros mp Hmp.
    cbn [fst snd weightOf_spec]. rewrite HTM. cbn [tl].
    apply product_In in Hmp. cbn [map] in Hmp.
    inversion Hmp as [|k0 r mp' rs Hk0 _]; subst.
    apply range_In in Hk0. assert (k0 = 0%nat) by lia. subst k0.
    cbn [transition_product nth]. ring.
  - cbn [transitions_ok]. rewrite Htr. reflexivity.
  - lia.
Qed.

Lemma enumerated_full_independent self (sp : list nat) :
  n_Markov_states self = IntOne ->
  In sp (product (map range (map outcome_count (models self)))) ->
  full_path self (Indep sp) = true.
Proof.
  intros Hn Hin. unfold full_path. rewrite Hn.
  apply indices_below_iff, product_In. exact Hin.
Qed.

Lemma enumerated_full_chain self (ns sp mp : list nat) :
  n_Markov_states self = PerStage ns ->
  In (sp, mp) (list_prod (product (map range (map outcome_count (models self))))
                         (product (map range ns))) ->
  full_path self (Mixed sp mp) = true.
Proof.
  intros Hn Hin. unfold full_path. rewrite Hn.
  apply in_prod_iff in Hin as [Hsp Hmp].
  apply andb_true_iff. split; apply indices_below_iff, product_In; assumption.
Qed.

Lemma compute_weight_refines self (path : sample_path) :
  independent_ok self = true \/ chain_ok self = true ->
  full_path self path = true ->
  exists w, _compute_weight_sample_path self path = Ok w /\
            w == weightOf_spec self path.
Proof.
  intros [Hok|Hok] Hfull.
  - destruct path as [sp|sp mp].
    + apply compute_weight_independent; assumption.
    + unfold independent_ok in Hok. unfold full_path in Hfull.
      destruct (n_Markov_states self); discriminate.
  - destruct path as [sp|sp mp].
    + destruct (chain_ok_inv self Hok) as (ns' & _ & _ & Hn & _).
      unfold full_path in Hfull. rewrite Hn in Hfull. discriminate.
    + apply compute_weight_chain; assumption.
Qed.

End Facts.

(** *** The claims about the probability model *)

(** C4.  For a configured probability model (stage-wise independent, or a
    Markov chain with stage-wise outcomes), the exhaustive enumeration
    that the evaluation requests, over the stages 0 .. T-1, returns as
    many paths as it reports: the product of the per-stage outcome
    counts, times the product of the per-stage Markov-state counts when
    there is a chain; no path occurs twice; and the weights computed for
    the enumerated paths sum to one. *)
Theorem enumeration_count_distinct_total :
  forall (RS : Type) (self : MSLP RS),
    independent_ok self = true \/ chain_ok self = true ->
    exists (n : nat) (paths : list sample_path) (ws : list Q),
      _enumerate_sample_paths self (Z.of_nat (T self) - 1) = Ok (n, paths) /\
      n = match n_Markov_states self with
          | IntOne => prod_nat (map outcome_count (models self))
          | PerStage ns =>
              (prod_nat (map outcome_count (models self)) * prod_nat ns)%nat
          end /\
      length paths = n /\
      NoDup paths /\
      comprehension (_compute_weight_sample_path self) paths = Ok ws /\
      sum_Q ws == 1.
Proof.
  intros RS self Hok.
  destruct Hok as [Hok|Hok].
  - pose proof (enumerate_independent self Hok) as Henum.
    assert (Hn : n_Markov_states self = IntOne).
    { unfold independent_ok in Hok.
      destruct (n_Markov_states self); [reflexivity|discriminate]. }
    set (paths := map Indep (product (map range (map outcome_count (models self))))) in *.
    destruct (comprehension_Forall2 (_compute_weight_sample_path self)
                (fun path w => w == weightOf_spec self path) paths) as [ws [Hws HF]].
    { intros path Hin. apply in_map_iff in Hin as [sp [<- Hsp]].
      apply compute_weight_refines; [left; exact Hok|].
      apply enumerated_full_independent; assumption. }
    exists (prod_nat (map outcome_count (models self))), paths, ws.
    rewrite Hn. repeat split; try assumption.
    + unfold paths. rewrite length_map, product_length. apply prod_nat_range_lengths.
    + unfold paths. apply Injective_map_NoDup.
      * intros a b [= ->]. reflexivity.
      * apply product_NoDup, ranges_NoDup.
    + rewrite (sum_Q_Forall2 _ _ _ HF).
      apply weightOf_spec_total_independent. exact Hok.
  - destruct (chain_ok_inv self Hok) as (ns' & _ & _ & Hn & _).
    pose proof (enumerate_chain self _ Hok Hn) as Henum.
    set (ns := (1%nat :: ns')) in *.
    set (pairs := list_prod (product (map range (map outcome_count (models self))))
                            (product (map range ns))) in *.
    set (paths := map (fun p => Mixed (fst p) (snd p)) pairs) in *.
    destruct (comprehension_Forall2 (_compute_weight_sample_path self)
                (fun path w => w == weightOf_spec self path) paths) as [ws [Hws HF]].
    { intros path Hin. apply in_map_iff in Hin as [[sp mp] [<- Hp]].
      apply compute_weight_refines; [right; exact Hok|].
      apply (enumerated_full_chain self ns); assumption. }
    exists (prod_nat ns * prod_nat (map outcome_count (models self)))%nat, paths, ws.
    rewrite Hn. repeat split; try assumption.
    + apply Nat.mul_comm.
    + unfold paths, pairs. rewrite length_map, length_prod, !product_length.
      rewrite !prod_nat_range_lengths. apply Nat.mul_comm.
    + unfold paths. apply Injective_map_NoDup.
      * intros [a1 a2] [b1 b2] [= -> ->]. reflexivity.
      * apply list_prod_NoDup; apply product_NoDup, ranges_NoDup.
    + rewrite (sum_Q_Forall2 _ _ _ HF).
      apply (weightOf_spec_total_chain self ns); assumption.
Qed.

Lemma enumeration_count_distinct_total_witness :
  (independent_ok (examples.independent3 None) = true
   \/ chain_ok (examples.independent3 None) = true) /\
  exists (n : nat) (paths : list sample_path) (ws : list Q),
    _enumerate_sample_paths (examples.independent3 None)
      (Z.of_nat (T (examples.independent3 None)) - 1) = Ok (n, paths) /\
    n = match n_Markov_states (examples.independent3 None) with
        | IntOne => prod_nat (map outcome_count (models (examples.independent3 None)))
        | PerStage ns =>
            (prod_nat (map outcome_count (models (examples.independent3 None)))
             * prod_nat ns)%nat
        end /\
    length paths = n /\
    NoDup paths /\
    comprehension (_compute_weight_sample_path (examples.independent3 None)) paths
    = Ok ws /\
    sum_Q ws == 1.
Proof.
  split.
  - left. vm_compute. reflexivity.
  - apply enumeration_count_distinct_total. left. vm_compute. reflexivity.
Defined.

(** C5.  For a configured probability model and a full sample path, the
    computed weight is the product of the stage-wise outcome
    probabilities when there is no chain, and the product of the
    transition probabilities along the Markov-state sequence times the
    product of the outcome probabilities conditional on the Markov state
    when there is one.  For the three-stage chain with transition
    matrices [[1]], [[0.3,0.7]], [[0.6,0.4],[0.2,0.8]] the enumeration
    has four paths, of weights 0.3*0.6, 0.3*0.4, 0.7*0.2 and 0.7*0.8,
    which sum to one. *)
Theorem weight_is_product_of_probabilities :
  forall (RS : Type) (self : MSLP RS) (path : sample_path),
    independent_ok self = true \/ chain_ok self = true ->
    full_path self path = true ->
    (exists w, _compute_weight_sample_path self path = Ok w /\
               w == weightOf_spec self path) /\
    (exists (paths : list sample_path) (ws : list Q),
       _enumerate_sample_paths (examples.chain3 None) 2 = Ok (4%nat, paths) /\
       length paths = 4%nat /\
       comprehension (_compute_weight_sample_path (examples.chain3 None)) paths
       = Ok ws /\
       Forall2 Qeq ws [0.3 * 0.6; 0.3 * 0.4; 0.7 * 0.2; 0.7 * 0.8] /\
       sum_Q ws == 1).
Proof.
  intros RS self path Hok Hfull. split.
  - apply compute_weight_refines; assumption.
  - eexists. eexists.
    split; [vm_compute; reflexivity|].
    split; [reflexivity|].
    split; [vm_compute; reflexivity|].
    split.
    + repeat constructor.
    + vm_compute. reflexivity.
Qed.

Lemma weight_is_product_of_probabilities_witness :
  (independent_ok (examples.chain3 None) = true
   \/ chain_ok (examples.chain3 None) = true) /\
  full_path (examples.chain3 None) (Mixed [0; 0; 0]%nat [0; 1; 0]%nat) = true /\
  (exists w, _compute_weight_sample_path (examples.chain3 None)
               (Mixed [0; 0; 0]%nat [0; 1; 0]%nat) = Ok w /\
             w == weightOf_spec (examples.chain3 None)
                    (Mixed [0; 0; 0]%nat [0; 1; 0]%nat)).
Proof.
  split; [right; vm_compute; reflexivity|].
  split; [vm_compute; reflexivity|].
  apply (weight_is_product_of_probabilities _ (examples.chain3 None)
           (Mixed [0; 0; 0]%nat [0; 1; 0]%nat)).
  - right. vm_compute. reflexivity.
  - vm_compute. reflexivity.
Defined.

End msp_facts.

(** ** Binary64 arithmetic

    The facts about the float64 operations used below, derived from the
    specification of the primitive floats: the order of the floats that
    are not NaN, the sign of a rounded result, and the differences,
    squares and sums that the matcher computes. *)

Module float_facts.

Local Open Scope Z_scope.

(** The order of the floats that are not NaN, read off a key: the sign
    class, then the exponent, then the mantissa. *)
Definition rank (f : spec_float) : Z * Z * Z :=
  match f with
  | S754_nan => (0, 0, 0)
  | S754_infinity true => (-2, 0, 0)
  | S754_finite true m e => (-1, - e, Z.neg m)
  | S754_zero _ => (0, 0, 0)
  | S754_finite false m e => (1, e, Z.pos m)
  | S754_infinity false => (2, 0, 0)
  end.

Definition key_le (a b : Z * Z * Z) : Prop :=
  fst (fst a) < fst (fst b) \/
  (fst (fst a) = fst (fst b) /\
   (snd (fst a) < snd (fst b) \/
    (snd (fst a) = snd (fst b) /\ snd a <= snd b))).

Lemma key_le_refl (a : Z * Z * Z) : key_le a a.
Proof. unfold key_le. lia. Qed.

Lemma key_le_trans (a b c : Z * Z * Z) : key_le a b -> key_le b c -> key_le a c.
Proof. unfold key_le. lia. Qed.

Lemma key_le_total (a b : Z * Z * Z) : key_le a b \/ key_le b a.
Proof. unfold key_le. lia. Qed.

Lemma key_le_antisym (a b : Z * Z * Z) : key_le a b -> key_le b a -> a = b.
Proof.
  destruct a as [[a1 a2] a3], b as [[b1 b2] b3]. unfold key_le. cbn [fst snd].
  intros H1 H2. assert (a1 = b1 /\ a2 = b2 /\ a3 = b3) as (-> & -> & ->) by lia.
  reflexivity.
Qed.

Lemma SFcompare_rank (x y : spec_float) :
  x <> S754_nan -> y <> S754_nan ->
  exists c, SFcompare x y = Some c /\
            (c <> Gt <-> key_le (rank x) (rank y)) /\
            (c = Eq <-> rank x = rank y).
Proof.
  intros Hx Hy.
  destruct x as [sx|sx| |sx mx ex]; [| |congruence|];
    destruct y as [sy|sy| |sy my ey]; try congruence;
    try (destruct sx); try (destruct sy);
    cbn [SFcompare rank];
    try (eexists; split; [reflexivity|];
         unfold key_le; cbn [fst snd];
         split; split; intros H; try lia; try congruence; try discriminate;
         fail).
  - (* negative, negative *)
    destruct (Z.compare_spec ex ey) as [E|E|E].
    + subst ey. change (Pos.compare_cont Eq mx my) with (Pos.compare mx my).
      destruct (Pos.compare_spec mx my) as [F|F|F];
        (eexists; split; [reflexivity|]); unfold key_le; cbn [fst snd CompOpp];
        split; split; intros H; try lia; try congruence; try discriminate.
      * injection H. lia.
      * injection H. lia.
    + eexists; split; [reflexivity|]. unfold key_le; cbn [fst snd].
      split; split; intros H; try lia; try congruence; try discriminate.
      injection H. lia.
    + eexists; split; [reflexivity|]. unfold key_le; cbn [fst snd].
      split; split; intros H; try lia; try congruence; try discriminate.
      injection H. lia.
  - (* positive, positive *)
    destruct (Z.compare_spec ex ey) as [E|E|E].
    + subst ey. change (Pos.compare_cont Eq mx my) with (Pos.compare mx my).
      destruct (Pos.compare_spec mx my) as [F|F|F];
        (eexists; split; [reflexivity|]); unfold key_le; cbn [fst snd];
        split; split; intros H; try lia; try congruence; try discriminate.
      * injection H. lia.
      * injection H. lia.
    + eexists; split; [reflexivity|]. unfold key_le; cbn [fst snd].
      split; split; intros H; try lia; try congruence; try discriminate.
      injection H. lia.
    + eexists; split; [reflexivity|]. unfold key_le; cbn [fst snd].
      split; split; intros H; try lia; try congruence; try discriminate.
      injection H. lia.
Qed.


(** *** Rounding keeps the sign and never produces a NaN *)

Lemma shr_1_nonneg (mrs : shr_record) : 0 <= shr_m mrs -> 0 <= shr_m (shr_1 mrs).
Proof.
  destruct mrs as [m r s]. cbn [shr_m shr_1].
  destruct m as [|p|p]; [|destruct p|lia]; cbn [shr_m]; lia.
Qed.

Lemma iter_pos_shr_1_nonneg (p : positive) :
  forall mrs, 0 <= shr_m mrs -> 0 <= shr_m (iter_pos shr_1 p mrs).
Proof.
  induction p as [p IH|p IH|]; intros mrs H; cbn [iter_pos].
  - apply IH, IH, shr_1_nonneg, H.
  - apply IH, IH, H.
  - apply shr_1_nonneg, H.
Qed.

Lemma shr_fexp_nonneg (m e : Z) (l : location) :
  0 <= m -> 0 <= shr_m (fst (shr_fexp prec emax m e l)).
Proof.
  intros H. unfold shr_fexp, shr.
  assert (H0 : 0 <= shr_m (shr_record_of_loc m l))
    by (destruct l as [|[| |]]; exact H).
  destruct (fexp prec emax (Zdigits2 m + e) - e) as [|p|p]; cbn [fst];
    [exact H0| |exact H0].
  apply iter_pos_shr_1_nonneg, H0.
Qed.

Lemma round_nearest_even_nonneg (m : Z) (l : location) :
  0 <= m -> 0 <= round_nearest_even m l.
Proof.
  intros H. unfold round_nearest_even.
  destruct l as [|[| |]]; try lia. destruct (Z.even m); lia.
Qed.

(** A zero, a finite number or an infinity of the sign [s]. *)
Definition signed (s : bool) (f : spec_float) : Prop :=
  match f with
  | S754_zero s' | S754_infinity s' | S754_finite s' _ _ => s' = s
  | S754_nan => False
  end.

Lemma binary_round_aux_signed (s : bool) (m e : Z) (l : location) :
  0 <= m -> signed s (binary_round_aux prec emax s m e l).
Proof.
  intros H. unfold binary_round_aux.
  pose proof (shr_fexp_nonneg m e l H) as H1.
  destruct (shr_fexp prec emax m e l) as [mrs' e']. cbn [fst] in H1.
  pose proof (shr_fexp_nonneg _ e' loc_Exact
                (round_nearest_even_nonneg _ (loc_of_shr_record mrs') H1)) as H2.
  destruct (shr_fexp prec emax
              (round_nearest_even (shr_m mrs') (loc_of_shr_record mrs')) e'
              loc_Exact) as [mrs'' e''].
  cbn [fst] in H2.
  destruct (shr_m mrs'') as [|p|p]; [reflexivity| |lia].
  destruct (e'' <=? emax - prec); reflexivity.
Qed.

Lemma binary_round_signed (s : bool) (m : positive) (e : Z) :
  signed s (binary_round prec emax s m e).
Proof.
  unfold binary_round.
  destruct (shl_align m e (fexp prec emax (Z.pos (digits2_pos m) + e))) as [mz ez].
  apply binary_round_aux_signed. lia.
Qed.

Lemma binary_normalize_not_nan (m e : Z) (sz : bool) :
  binary_normalize prec emax m e sz <> S754_nan.
Proof.
  unfold binary_normalize. destruct m as [|p|p]; [discriminate| |].
  - pose proof (binary_round_signed false p e) as H.
    intros E. rewrite E in H. exact H.
  - pose proof (binary_round_signed true p e) as H.
    intros E. rewrite E in H. exact H.
Qed.

(** *** Shapes of the operands and results *)

Definition SF_finite (f : spec_float) : Prop :=
  match f with
  | S754_zero _ | S754_finite _ _ _ => True
  | _ => False
  end.

Definition SF_nonneg (f : spec_float) : Prop :=
  match f with
  | S754_zero _ | S754_finite false _ _ | S754_infinity false => True
  | _ => False
  end.

Lemma signed_false_nonneg (f : spec_float) : signed false f -> SF_nonneg f.
Proof. destruct f as [s|s| |s m e]; cbn; intros H; try subst s; auto. Qed.

Lemma SFmul_square_nonneg (f : spec_float) :
  f <> S754_nan -> SF_nonneg (SFmul prec emax f f).
Proof.
  intros H. destruct f as [s|s| |s m e]; [| |congruence|]; cbn [SFmul].
  - exact I.
  - destruct s; exact I.
  - apply signed_false_nonneg.
    replace (xorb s s) with false by (destruct s; reflexivity).
    apply binary_round_aux_signed. lia.
Qed.

Lemma SFsub_finite_not_nan (x y : spec_float) :
  SF_finite x -> SF_finite y -> SFsub prec emax x y <> S754_nan.
Proof.
  destruct x as [sx|sx| |sx mx ex]; cbn [SF_finite]; try tauto;
    destruct y as [sy|sy| |sy my ey]; cbn [SF_finite]; try tauto; intros _ _;
    cbn [SFsub]; try discriminate.
  - destruct sx, sy; discriminate.
  - apply binary_normalize_not_nan.
Qed.

Lemma SFsub_diag (x : spec_float) :
  SF_finite x -> SFsub prec emax x x = S754_zero false.
Proof.
  destruct x as [s|s| |s m e]; cbn [SF_finite]; try tauto; intros _; cbn [SFsub].
  - destruct s; reflexivity.
  - rewrite Z.sub_diag. reflexivity.
Qed.

Lemma SFsub_zeros (s1 s2 : bool) :
  exists s, SFsub prec emax (S754_zero s1) (S754_zero s2) = S754_zero s.
Proof. destruct s1, s2; eexists; reflexivity. Qed.

Lemma SFadd_nonneg (x y : spec_float) :
  SF_nonneg x -> SF_nonneg y -> SF_nonneg (SFadd prec emax x y).
Proof.
  destruct x as [sx|[|]| |[|] mx ex]; cbn [SF_nonneg]; try tauto;
    destruct y as [sy|[|]| |[|] my ey]; cbn [SF_nonneg]; try tauto; intros _ _;
    cbn [SFadd]; try exact I.
  - destruct sx, sy; exact I.
  - cbn [cond_Zopp]. apply signed_false_nonneg.
    rewrite <- Pos2Z.inj_add. apply binary_round_signed.
Qed.

Lemma spec_float_nan_dec (f : spec_float) : {f = S754_nan} + {f <> S754_nan}.
Proof. destruct f; [right|right|left|right]; congruence. Qed.

Local Open Scope float_scope.

Definition key (x : float) : Z * Z * Z := rank (Prim2SF x).

Lemma is_nan_Prim2SF (x : float) : is_nan x = true <-> Prim2SF x = S754_nan.
Proof.
  unfold is_nan. rewrite eqb_spec. unfold SFeqb.
  destruct (spec_float_nan_dec (Prim2SF x)) as [E|E].
  - rewrite E. cbn. split; reflexivity.
  - destruct (SFcompare_rank _ _ E E) as (c & -> & _ & H).
    rewrite (proj2 H eq_refl). cbn. split; [discriminate|congruence].
Qed.

Lemma not_nan_Prim2SF (x : float) : is_nan x = false <-> Prim2SF x <> S754_nan.
Proof.
  rewrite <- is_nan_Prim2SF. destruct (is_nan x); split; congruence.
Qed.

Lemma leb_key (x y : float) :
  is_nan x = false -> is_nan y = false ->
  ((x <=? y) = true <-> key_le (key x) (key y)).
Proof.
  intros Hx Hy. apply not_nan_Prim2SF in Hx, Hy.
  rewrite leb_spec. unfold SFleb, key.
  destruct (SFcompare_rank _ _ Hx Hy) as (c & -> & H & _).
  destruct c; split; intros G; try reflexivity; try discriminate;
    try (apply H; discriminate).
  exfalso. apply H in G. congruence.
Qed.

Lemma eqb_key (x y : float) :
  is_nan x = false -> is_nan y = false ->
  ((x =? y) = true <-> key x = key y).
Proof.
  intros Hx Hy. apply not_nan_Prim2SF in Hx, Hy.
  rewrite eqb_spec. unfold SFeqb, key.
  destruct (SFcompare_rank _ _ Hx Hy) as (c & -> & _ & H).
  destruct c; split; intros G; try reflexivity; try discriminate;
    try (apply H; reflexivity); apply H in G; discriminate.
Qed.

Lemma leb_not_nan (x y : float) :
  (x <=? y) = true -> is_nan x = false /\ is_nan y = false.
Proof.
  rewrite leb_spec. unfold SFleb. intros H.
  split; apply not_nan_Prim2SF; intros E; rewrite E in H.
  - discriminate.
  - destruct (Prim2SF x); discriminate.
Qed.

Lemma eqb_not_nan (x y : float) :
  (x =? y) = true -> is_nan x = false /\ is_nan y = false.
Proof.
  rewrite eqb_spec. unfold SFeqb. intros H.
  split; apply not_nan_Prim2SF; intros E; rewrite E in H.
  - discriminate.
  - destruct (Prim2SF x); discriminate.
Qed.

Lemma leb_refl (x : float) : is_nan x = false -> (x <=? x) = true.
Proof. intros H. apply leb_key; [exact H|exact H|apply key_le_refl]. Qed.

Lemma leb_trans (x y z : float) :
  (x <=? y) = true -> (y <=? z) = true -> (x <=? z) = true.
Proof.
  intros H1 H2.
  destruct (leb_not_nan _ _ H1) as [Hx Hy].
  destruct (leb_not_nan _ _ H2) as [_ Hz].
  apply leb_key; [exact Hx|exact Hz|].
  apply (key_le_trans _ (key y)); apply leb_key; assumption.
Qed.

Lemma leb_total (x y : float) :
  is_nan x = false -> is_nan y = false ->
  (x <=? y) = false -> (y <=? x) = true.
Proof.
  intros Hx Hy H. apply leb_key; [exact Hy|exact Hx|].
  destruct (key_le_total (key x) (key y)) as [G|G]; [|exact G].
  apply (leb_key x y Hx Hy) in G. congruence.
Qed.

Lemma leb_antisym (x y : float) :
  (x <=? y) = true -> (y <=? x) = true -> (x =? y) = true.
Proof.
  intros H1 H2. destruct (leb_not_nan _ _ H1) as [Hx Hy].
  apply eqb_key; [exact Hx|exact Hy|].
  apply key_le_antisym; apply leb_key; assumption.
Qed.

Lemma eqb_leb (x y : float) : (x =? y) = true -> (x <=? y) = true.
Proof.
  intros H. destruct (eqb_not_nan _ _ H) as [Hx Hy].
  apply leb_key; [exact Hx|exact Hy|].
  apply (eqb_key x y Hx Hy) in H. rewrite H. apply key_le_refl.
Qed.


(** *** Arithmetic on floats *)

Lemma Prim2SF_zero : Prim2SF 0 = S754_zero false.
Proof. reflexivity. Qed.

Lemma nonneg_Prim2SF (x : float) : (0 <=? x) = true <-> SF_nonneg (Prim2SF x).
Proof.
  rewrite leb_spec, Prim2SF_zero. unfold SFleb.
  destruct (Prim2SF x) as [s|[|]| |[|] m e]; cbn; split; intros H;
    try reflexivity; try exact I; try discriminate; try contradiction.
Qed.

Lemma is_zero_Prim2SF (x : float) :
  (x =? 0) = true <-> exists s, Prim2SF x = S754_zero s.
Proof.
  rewrite eqb_spec, Prim2SF_zero. unfold SFeqb.
  destruct (Prim2SF x) as [s|[|]| |[|] m e]; cbn; split; intros H;
    try reflexivity; try discriminate; try (destruct H; discriminate).
  exists s. reflexivity.
Qed.

Lemma is_finite_Prim2SF (x : float) :
  is_finite x = true -> SF_finite (Prim2SF x).
Proof.
  unfold is_finite. rewrite negb_true_iff, orb_false_iff. intros [Hn Hi].
  apply not_nan_Prim2SF in Hn.
  unfold is_infinity in Hi. rewrite eqb_spec, abs_spec in Hi.
  change (Prim2SF infinity) with (S754_infinity false) in Hi.
  destruct (Prim2SF x) as [s|s| |s m e]; cbn; try exact I; try congruence.
  cbn in Hi. discriminate.
Qed.

Lemma square_nonneg (d : float) : is_nan d = false -> (0 <=? d * d) = true.
Proof.
  intros H. apply nonneg_Prim2SF. rewrite mul_spec.
  apply SFmul_square_nonneg. apply not_nan_Prim2SF. exact H.
Qed.

Lemma sub_finite_not_nan (a b : float) :
  is_finite a = true -> is_finite b = true -> is_nan (a - b) = false.
Proof.
  intros Ha Hb. apply not_nan_Prim2SF. rewrite sub_spec.
  apply SFsub_finite_not_nan; apply is_finite_Prim2SF; assumption.
Qed.

Lemma add_nonneg (a b : float) :
  (0 <=? a) = true -> (0 <=? b) = true -> (0 <=? a + b) = true.
Proof.
  intros Ha Hb. apply nonneg_Prim2SF. rewrite add_spec.
  apply SFadd_nonneg; apply nonneg_Prim2SF; assumption.
Qed.

(** The difference of two equal finite floats is a zero, and its square
    is [+0]. *)
Lemma sub_equal_is_zero (a b : float) :
  is_finite a = true -> (a =? b) = true -> ((a - b) =? 0) = true.
Proof.
  intros Ha Hab. apply is_zero_Prim2SF. rewrite sub_spec.
  pose proof (is_finite_Prim2SF a Ha) as Fa.
  destruct (eqb_not_nan _ _ Hab) as [Na Nb].
  apply (eqb_key a b Na Nb) in Hab. unfold key in Hab.
  apply not_nan_Prim2SF in Nb.
  destruct (Prim2SF a) as [sa|sa| |sa ma ea]; cbn [SF_finite] in Fa; try tauto;
    destruct (Prim2SF b) as [sb|[|]| |[|] mb eb]; try congruence;
    try (destruct sa; discriminate).
  - apply SFsub_zeros.
  - destruct sa; [|discriminate]. cbn [rank] in Hab.
    injection Hab as He Hm. assert (ea = eb) by lia. subst eb ma.
    exists false. apply (SFsub_diag (S754_finite true mb ea)). exact I.
  - destruct sa; [discriminate|]. cbn [rank] in Hab.
    injection Hab as He Hm. subst eb ma.
    exists false. apply (SFsub_diag (S754_finite false mb ea)). exact I.
Qed.

Lemma square_of_zero (d : float) : (d =? 0) = true -> d * d = 0.
Proof.
  intros H. apply is_zero_Prim2SF in H as [s H].
  apply Prim2SF_inj. rewrite mul_spec, H, Prim2SF_zero.
  destruct s; reflexivity.
Qed.

Lemma zero_le_nonneg (z a : float) :
  (z =? 0) = true -> (0 <=? a) = true -> (z <=? a) = true.
Proof.
  intros Hz Ha. apply (leb_trans z 0 a); [|exact Ha].
  apply eqb_leb. exact Hz.
Qed.

Lemma nonneg_below_zero (a z : float) :
  (0 <=? a) = true -> (a <=? z) = true -> (z =? 0) = true -> (a =? 0) = true.
Proof.
  intros Ha Haz Hz. apply leb_antisym; [|exact Ha].
  apply (leb_trans a z 0); [exact Haz|]. apply eqb_leb. exact Hz.
Qed.

End float_facts.

(** ** The evaluation engine *)

Module evaluation_facts.

Import float_facts.

Import msp evaluation.

Section Facts.

Context {C : Collaborators}.

Local Open Scope M_scope.

(** *** Computations that cannot complete *)

Definition never_completes {A} (m : M A) : Prop :=
  forall w a, snd (m w) <> Ok a.

Lemma never_completes_raise {A} (e : exn) : never_completes (@raise world A e).
Proof. intros w a. discriminate. Qed.

Lemma never_completes_bind {A B} (m : M A) (k : A -> M B) (P : A -> Prop) :
  (forall w a, snd (m w) = Ok a -> P a) ->
  (forall a, P a -> never_completes (k a)) ->
  never_completes (bind m k).
Proof.
  intros Hm Hk w b. unfold bind.
  destruct (m w) as [w' [a|e]] eqn:E; [|discriminate].
  apply Hk. apply (Hm w). rewrite E. reflexivity.
Qed.

Lemma never_completes_then {A B} (m : M A) (k : A -> M B) :
  (forall a, never_completes (k a)) -> never_completes (bind m k).
Proof.
  intros Hk. apply (never_completes_bind m k (fun _ => True)); auto.
Qed.

Lemma bind_result {A B} (m : M A) (k : A -> M B) (w : world) (b : B) :
  snd (bind m k w) = Ok b ->
  exists w' a, m w = (w', Ok a) /\ snd (k a w') = Ok b.
Proof.
  unfold bind. destruct (m w) as [w' [a|e]]; [|discriminate].
  intros H. exists w', a. split; [reflexivity|exact H].
Qed.

(** The sequential branch of [run] leaves the local [pv] unbound. *)
Lemma sequential_branch_unbound (n : nat) (w : world)
    (r : option pv_ref) :
  snd ((modify_self (set_pv (Some (repeat 0 n))) ;;;
        run_single ref_self_pv (range n) ;;;
        ret (@None pv_ref)) w) = Ok r ->
  r = None.
Proof.
  intros H.
  apply bind_result in H as (w1 & [] & _ & H).
  apply bind_result in H as (w2 & [] & _ & H).
  simpl in H. congruence.
Qed.

Lemma never_completes_first {A B} (m : M A) (k : A -> M B) :
  never_completes m -> never_completes (bind m k).
Proof.
  intros Hm w b. unfold bind.
  specialize (Hm w).
  destruct (m w) as [w' [a|e]]; [|discriminate].
  exfalso. apply (Hm a). reflexivity.
Qed.

Lemma run_exhaustive_sequential (percentile : Q)
    (query query_dual : option (list string)) (query_stage_cost : bool)
    (n_periodical_stages : option nat) :
  never_completes
    (run (-1) percentile query query_dual query_stage_cost
         n_periodical_stages 1).
Proof.
  unfold run.
  do 14 (apply never_completes_then; intros ?).
  apply (never_completes_bind _ _ (fun r => r = None)).
  - intros w r. change (negb (1 =? 1)%Z) with false. cbv iota.
    apply sequential_branch_unbound.
  - intros r ->. apply never_completes_first.
    change (-1 =? -1)%Z with true. cbv iota.
    apply never_completes_raise.
Qed.

(** *** Computations that leave a view of the state unchanged

    A view consists of a function of [self] and a function of the record
    of calls. *)

Section Frame.

Context {V1 V2 : Type}.
Variable vself : _Evaluation -> V1.
Variable vtrace : list event -> V2.

Definition unchanged (w w' : world) : Prop :=
  vself (self w') = vself (self w) /\ vtrace (trace w') = vtrace (trace w).

Definition preserves {A} (m : M A) : Prop :=
  forall w, unchanged w (fst (m w)).

Lemma unchanged_refl (w : world) : unchanged w w.
Proof. split; reflexivity. Qed.

Lemma unchanged_trans (w1 w2 w3 : world) :
  unchanged w1 w2 -> unchanged w2 w3 -> unchanged w1 w3.
Proof. intros [H1 H2] [H3 H4]. split; congruence. Qed.

Lemma preserves_ret {A} (a : A) : preserves (ret a).
Proof. intros w. apply unchanged_refl. Qed.

Lemma preserves_raise {A} (e : exn) : preserves (@raise world A e).
Proof. intros w. apply unchanged_refl. Qed.

Lemma preserves_lift {A} (r : result A) : preserves (lift r).
Proof. intros w. apply unchanged_refl. Qed.

Lemma preserves_get_self : preserves get_self.
Proof. intros w. apply unchanged_refl. Qed.

Lemma preserves_get_shared : preserves get_shared.
Proof. intros w. apply unchanged_refl. Qed.

Lemma preserves_put_shared (a : list Q) : preserves (put_shared a).
Proof. intros w. split; reflexivity. Qed.

Lemma preserves_modify_self (f : _Evaluation -> _Evaluation) :
  (forall s, vself (f s) = vself s) -> preserves (modify_self f).
Proof. intros H w. split; [apply H|reflexivity]. Qed.

Lemma preserves_emit (e : event) :
  (forall tr, vtrace (tr ++ [e]) = vtrace tr) -> preserves (emit e).
Proof. intros H w. split; [reflexivity|apply H]. Qed.

Lemma preserves_bind {A B} (m : M A) (k : A -> M B) :
  preserves m -> (forall a, preserves (k a)) -> preserves (bind m k).
Proof.
  intros Hm Hk w. unfold bind. specialize (Hm w).
  destruct (m w) as [w' [a|e]]; simpl in Hm.
  - apply (unchanged_trans _ w'); [exact Hm|apply Hk].
  - exact Hm.
Qed.

Lemma preserves_try_except {A} (m h : M A) (handles : exn -> bool) :
  preserves m -> preserves h -> preserves (try_except m handles h).
Proof.
  intros Hm Hh w. unfold try_except. specialize (Hm w).
  destruct (m w) as [w' [a|e]]; simpl in Hm; [exact Hm|].
  destruct (handles e); [|exact Hm].
  apply (unchanged_trans _ w'); [exact Hm|apply Hh].
Qed.

Lemma preserves_for_loop {A S} (l : list A) (body : A -> S -> M S) :
  (forall x s, preserves (body x s)) ->
  forall s, preserves (for_loop l body s).
Proof.
  intros Hb. induction l as [|x xs IH]; intros s; simpl.
  - apply preserves_ret.
  - apply preserves_bind; [apply Hb|exact IH].
Qed.

Lemma preserves_for_each {A} (l : list A) (body : A -> M unit) :
  (forall x, preserves (body x)) -> preserves (for_each l body).
Proof. intros Hb. apply preserves_for_loop. intros x _. apply Hb. Qed.

Lemma preserves_in_child_process (m : M unit) :
  preserves m -> preserves (in_child_process m).
Proof.
  intros Hm w. destruct (Hm w) as [_ H2]. split; [reflexivity|exact H2].
Qed.

End Frame.

End Facts.

Ltac frame_step :=
  lazymatch goal with
  | |- preserves _ _ (ret _) => apply preserves_ret
  | |- preserves _ _ (raise _) => apply preserves_raise
  | |- preserves _ _ (lift _) => apply preserves_lift
  | |- preserves _ _ get_self => apply preserves_get_self
  | |- preserves _ _ get_shared => apply preserves_get_shared
  | |- preserves _ _ (put_shared _) => apply preserves_put_shared
  | |- preserves _ _ (modify_self _) =>
      apply preserves_modify_self; intros ?; reflexivity
  | |- preserves _ _ (in_child_process _) => apply preserves_in_child_process
  | |- preserves _ _ (try_except _ _ _) => apply preserves_try_except
  | |- preserves _ _ (for_each _ _) => apply preserves_for_each; intros ?
  | |- preserves _ _ (for_loop _ _ _) => apply preserves_for_loop; intros ? ?
  | |- preserves _ _ (bind _ _) => apply preserves_bind; [|intros ?]
  | |- preserves _ _ (if ?b then _ else _) => destruct b
  | |- preserves _ _ (match ?x with _ => _ end) => destruct x
  end.

Lemma filter_snoc_false {A} (f : A -> bool) (l : list A) (x : A) :
  f x = false -> filter f (l ++ [x]) = filter f l.
Proof.
  intros H. rewrite filter_app. simpl. rewrite H. apply app_nil_r.
Qed.

(** *** What the parts of a run leave unchanged *)

Ltac emit_step :=
  lazymatch goal with
  | |- preserves _ _ (emit _) =>
      apply preserves_emit; intros ?; apply filter_snoc_false; reflexivity
  end.

Ltac frame_no_CI_call := repeat first [ frame_step | emit_step ].

Section Runs.

Context {C : Collaborators}.

Lemma preparation_keeps_CI :
  preserves CI (filter is_compute_CI_call)
            _compute_sample_path_idx_and_markovian_path.
Proof.
  unfold _compute_sample_path_idx_and_markovian_path,
    _Evaluation__compute_sample_path_idx_and_markovian_path,
    Evaluation__compute_sample_path_idx_and_markovian_path,
    EvaluationTrue__compute_sample_path_idx_and_markovian_path, attribute.
  frame_no_CI_call.
Qed.

Lemma run_single_keeps_CI (pv : pv_ref) (jobs : list nat) :
  preserves CI (filter is_compute_CI_call) (run_single pv jobs).
Proof.
  unfold run_single, forward_pass, pv_setitem, attribute.
  frame_no_CI_call.
Qed.

Lemma compute_gap_keeps_CI :
  preserves CI (filter is_compute_CI_call) _compute_gap.
Proof.
  unfold _compute_gap. frame_no_CI_call.
Qed.

Lemma run_single_path_keeps_CI (percentile : Q)
    (query query_dual : option (list string)) (query_stage_cost : bool)
    (n_periodical_stages : option nat) (n_processes : Z) :
  preserves CI (filter is_compute_CI_call)
            (run 1 percentile query query_dual query_stage_cost
                 n_periodical_stages n_processes).
Proof.
  unfold run.
  change (negb ((1 =? -1)%Z || (1 =? 1)%Z)) with false.
  change (1 =? -1)%Z with false. cbv iota.
  unfold dimension, pv_deref.
  repeat first
    [ apply preparation_keeps_CI
    | apply run_single_keeps_CI
    | apply compute_gap_keeps_CI
    | frame_step
    | emit_step ].
Qed.

Lemma EvaluationTrue_run_is_run (n_simulations : Z) (percentile : Q)
    (query query_dual : option (list string)) (query_stage_cost : bool)
    (n_periodical_stages : option nat) (n_processes : Z) (w : world) :
  EvaluationTrue_run n_simulations percentile query query_dual query_stage_cost
                     n_periodical_stages n_processes w
  = run n_simulations percentile query query_dual query_stage_cost
        n_periodical_stages n_processes w.
Proof.
  unfold EvaluationTrue_run, _back_binarize, bind, get_self, ret.
  destruct (is_MSIP (MSP (self w))), (_type (MSP (self w))),
    (_individual_type (MSP (self w))), (has_bin_stage (MSP (self w)));
    reflexivity.
Qed.

(** *** Gap computation *)

Lemma float64_abs_truediv_zero (a d : Q) :
  d == 0 ->
  float64_abs_truediv a d = gap_float_inf \/
  float64_abs_truediv a d = gap_float_nan.
Proof.
  intros H. unfold float64_abs_truediv.
  rewrite (proj2 (Qeq_bool_iff d 0) H).
  destruct (Qeq_bool a 0); [right|left]; reflexivity.
Qed.

End Runs.

(** *** The claims about the evaluation engine *)

(** C7.  A run with more than one worker that asks for per-path output
    (a non-empty list of queried variables, a non-empty list of queried
    duals, or the stage costs) raises [NotImplementedError] (the
    rejection of the unsupported combination) on its first statement: the
    state, and with it the record of calls to the solver, is untouched,
    so no sample path has been simulated. *)
Theorem parallel_run_rejects_queries :
  forall (C : Collaborators) (n_simulations : Z) (percentile : Q)
         (query query_dual : option (list string)) (query_stage_cost : bool)
         (n_periodical_stages : option nat) (n_processes : Z) (w : world),
    (1 < n_processes)%Z ->
    (exists x xs, query = Some (x :: xs)) \/
    (exists x xs, query_dual = Some (x :: xs)) \/
    query_stage_cost = true ->
    run n_simulations percentile query query_dual query_stage_cost
        n_periodical_stages n_processes w
    = (w, Raise NotImplementedError) /\
    EvaluationTrue_run n_simulations percentile query query_dual
        query_stage_cost n_periodical_stages n_processes w
    = (w, Raise NotImplementedError).
Proof.
  intros C n_simulations percentile query query_dual query_stage_cost
    n_periodical_stages n_processes w Hp Hq.
  rewrite EvaluationTrue_run_is_run.
  assert (H : run n_simulations percentile query query_dual query_stage_cost
                  n_periodical_stages n_processes w
              = (w, Raise NotImplementedError)).
  { unfold run.
    assert (E : (n_processes =? 1)%Z = false) by (apply Z.eqb_neq; lia).
    rewrite E.
    assert (G : (is_some query || is_some query_dual || query_stage_cost)%bool = true).
    { destruct Hq as [(x & xs & ->) | [(x & xs & ->) | -> ]]; simpl.
      - reflexivity.
      - rewrite orb_true_r. reflexivity.
      - apply orb_true_r. }
    rewrite G. reflexivity. }
  split; exact H.
Qed.

Lemma parallel_run_rejects_queries_witness :
  (1 < 2)%Z /\
  ((exists x xs, Some ["x"%string] = Some (x :: xs)) \/
   (exists x xs, @None (list string) = Some (x :: xs)) \/
   false = true) /\
  @run examples.toy 3 95 (Some ["x"%string]) None false None 2
       (examples.fresh class_Evaluation (examples.chain3 (Some 1)))
  = (examples.fresh class_Evaluation (examples.chain3 (Some 1)),
     Raise NotImplementedError).
Proof.
  assert (Hq : (exists x xs, Some ["x"%string] = Some (x :: xs)) \/
               (exists x xs, @None (list string) = Some (x :: xs)) \/
               false = true)
    by (left; exists "x"%string, []; reflexivity).
  split; [lia|].
  split; [exact Hq|].
  exact (proj1 (parallel_run_rejects_queries examples.toy 3 95
                  (Some ["x"%string]) None false None 2
                  (examples.fresh class_Evaluation (examples.chain3 (Some 1)))
                  ltac:(lia) Hq)).
Defined.

(** C8 fails as stated: a run with [n_simulations = 1] on an object
    that an earlier run with three simulations left with a confidence
    interval completes and still holds that interval. *)
Lemma rerun_with_one_path_keeps_interval :
  let w0 := examples.fresh class_Evaluation (examples.chain3 (Some 1)) in
  let w1 := fst (@run examples.toy 3 95 None None false None 1 w0) in
  let r := @run examples.toy 1 95 None None false None 1 w1 in
  CI (self w1) = Some (1, 3) /\
  snd r = Ok tt /\
  n_simulations (self (fst r)) = Some 1%Z /\
  pv (self (fst r)) = Some [1] /\
  CI (self (fst r)) = Some (1, 3).
Proof. vm_compute. repeat split; reflexivity. Qed.

(** C8, amended.  A run with [n_simulations = 1] never calls
    [compute_CI] and leaves the attribute [CI] as it found it, whether
    the run completes or raises: the confidence interval is null
    afterwards exactly when it was null before, and an interval left by
    an earlier run on the same object is kept. *)
Theorem single_path_run_computes_no_CI :
  forall (C : Collaborators) (percentile : Q)
         (query query_dual : option (list string)) (query_stage_cost : bool)
         (n_periodical_stages : option nat) (n_processes : Z) (w : world),
    let w' := fst (run 1 percentile query query_dual query_stage_cost
                       n_periodical_stages n_processes w) in
    let w'' := fst (EvaluationTrue_run 1 percentile query query_dual
                      query_stage_cost n_periodical_stages n_processes w) in
    CI (self w') = CI (self w) /\
    filter is_compute_CI_call (trace w') = filter is_compute_CI_call (trace w) /\
    CI (self w'') = CI (self w) /\
    filter is_compute_CI_call (trace w'') = filter is_compute_CI_call (trace w).
Proof.
  intros C percentile query query_dual query_stage_cost n_periodical_stages
    n_processes w w' w''.
  assert (E : w'' = w') by (unfold w'', w'; rewrite EvaluationTrue_run_is_run; reflexivity).
  rewrite E.
  destruct (run_single_path_keeps_CI percentile query query_dual query_stage_cost
              n_periodical_stages n_processes w) as [H1 H2].
  fold w' in H1, H2. auto.
Qed.

(** C1.  The exhaustive run does not compute the expected policy value
    for every number of workers: with one worker the local variable [pv]
    read by the dot product was never bound, so the run cannot complete
    (for any collaborators and any arguments); on the three-stage chain
    it raises [UnboundLocalError] after all four paths were simulated and
    leaves [epv] null.  With two workers the same evaluation completes
    and [epv] is the dot product of the per-path values and the path
    weights. *)
Theorem exhaustive_run_single_worker_fails :
  (forall (C : Collaborators) (percentile : Q)
          (query query_dual : option (list string)) (query_stage_cost : bool)
          (n_periodical_stages : option nat) (w : world) (a : unit),
      snd (run (-1) percentile query query_dual query_stage_cost
               n_periodical_stages 1 w) <> Ok a) /\
  (let w' := @run examples.toy (-1) 95 None None false None 1
               (examples.fresh class_Evaluation (examples.chain3 (Some 1))) in
   snd w' = Raise UnboundLocalError /\
   pv (self (fst w')) = Some [1; 3; 4; 6] /\
   epv (self (fst w')) = None) /\
  (let w' := @run examples.toy (-1) 95 None None false None 2
               (examples.fresh class_Evaluation (examples.chain3 (Some 1))) in
   snd w' = Ok tt /\
   pv (self (fst w')) = Some [1; 3; 2; 4] /\
   exists e, epv (self (fst w')) = Some e /\
             e == 1 * (0.3 * 0.6) + 3 * (0.3 * 0.4)
                  + 2 * (0.7 * 0.2) + 4 * (0.7 * 0.8)).
Proof.
  split; [|split].
  - intros C percentile query query_dual query_stage_cost n_periodical_stages w a.
    apply run_exhaustive_sequential.
  - vm_compute. repeat split; reflexivity.
  - cbv zeta. split; [vm_compute; reflexivity|].
    split; [vm_compute; reflexivity|].
    eexists. split; [vm_compute; reflexivity|].
    vm_compute. reflexivity.
Qed.

(** C2.  With a deterministic bound equal to zero the gap computation
    does not store the sentinel when it compares the bound with a
    confidence interval or an exact expected value: these are
    numpy.float64, whose division by zero raises no [ZeroDivisionError],
    so the handler that stores ['nan'] is not reached and the gap is
    [inf] (or the float [nan], when the numerator is zero as well);
    nothing is raised.  The exhaustive evaluation of the three-stage
    chain with two workers and bound 0 completes with the gap [inf]. *)
Theorem zero_bound_gap_is_not_the_sentinel :
  (forall (C : Collaborators) (w : world) (d : Q),
      db (self w) = Some d ->
      d == 0 ->
      CI (self w) <> None \/ epv (self w) <> None ->
      exists g,
        (g = gap_float_inf \/ g = gap_float_nan) /\
        _compute_gap w
        = ({| self := set_gap (Some g) (self w);
              shared := shared w; trace := trace w |}, Ok tt)) /\
  (let r := @run examples.toy (-1) 95 None None false None 2
              (examples.fresh class_Evaluation (examples.chain3 (Some 0))) in
   snd r = Ok tt /\
   db (self (fst r)) = Some 0 /\
   CI (self (fst r)) = None /\
   (exists e, epv (self (fst r)) = Some e /\ ~ e == 0) /\
   gap (self (fst r)) = Some gap_float_inf).
Proof.
  split.
  - intros C w d Hdb Hd Hsome.
    unfold _compute_gap, try_except, bind, get_self, lift, modify_self.
    rewrite Hdb. cbn [operand rbind].
    destruct (CI (self w)) as [ci|].
    + destruct (sense (MSP (self w)) =? 1)%Z.
      * exists (float64_abs_truediv (snd ci - d) d).
        split; [apply float64_abs_truediv_zero; exact Hd|reflexivity].
      * exists (float64_abs_truediv (d - fst ci) d).
        split; [apply float64_abs_truediv_zero; exact Hd|reflexivity].
    + destruct (epv (self w)) as [e|].
      * exists (float64_abs_truediv (e - d) d).
        split; [apply float64_abs_truediv_zero; exact Hd|reflexivity].
      * destruct Hsome as [H|H]; congruence.
  - cbv zeta. split; [vm_compute; reflexivity|].
    split; [vm_compute; reflexivity|].
    split; [vm_compute; reflexivity|].
    split; [|vm_compute; reflexivity].
    eexists. split; [vm_compute; reflexivity|].
    vm_compute. discriminate.
Qed.

(** *** The percentile is only read after the simulation *)

Section Percentile.

Context {C : Collaborators}.

(** A computation that depends on the percentile only through one
    closing call of [compute_CI]: its record of calls is a fixed one,
    possibly followed by that call. *)
Definition reads_percentile_last (m : Q -> M unit) : Prop :=
  forall w, exists tr,
    forall p,
      trace (fst (m p w)) = tr \/
      exists values, trace (fst (m p w)) = tr ++ [call_compute_CI values p].

Lemma reads_percentile_last_bind {A} (m0 : M A) (k : A -> Q -> M unit) :
  (forall a, reads_percentile_last (k a)) ->
  reads_percentile_last (fun p => bind m0 (fun a => k a p)).
Proof.
  intros Hk w. unfold bind.
  destruct (m0 w) as [w' [a|e]].
  - apply Hk.
  - exists (trace w'). intros p. left. reflexivity.
Qed.

Lemma compute_gap_keeps_trace :
  preserves (fun _ => tt) (fun tr => tr) _compute_gap.
Proof.
  unfold _compute_gap. repeat frame_step.
Qed.

Lemma CI_step_reads_percentile_last (n_simulations : Z) :
  reads_percentile_last
    (fun percentile =>
       bind (if negb ((n_simulations =? -1)%Z || (n_simulations =? 1)%Z) then
               bind get_self (fun s =>
               bind (match pv s with Some l => ret l | None => raise TypeError end)
                    (fun values =>
               bind (emit (call_compute_CI values percentile)) (fun _ =>
               bind (lift (compute_CI values percentile)) (fun ci =>
               modify_self (set_CI (Some ci))))))
             else ret tt)
            (fun _ => _compute_gap)).
Proof.
  pose proof compute_gap_keeps_trace as HG.
  set (g := _compute_gap) in *. clearbody g.
  intros w. exists (trace w). intros p.
  destruct (negb ((n_simulations =? -1)%Z || (n_simulations =? 1)%Z)).
  - unfold bind, get_self, ret, raise, emit, lift, modify_self.
    destruct (pv (self w)) as [values|].
    + right. exists values.
      destruct (compute_CI values p) as [ci|e]; [|reflexivity].
      match goal with
      | |- trace (fst (g ?w0)) = _ => exact (proj2 (HG w0))
      end.
    + left. reflexivity.
  - left. unfold bind, ret. exact (proj2 (HG w)).
Qed.

Lemma run_reads_percentile_last (n_simulations : Z)
    (query query_dual : option (list string)) (query_stage_cost : bool)
    (n_periodical_stages : option nat) (n_processes : Z) :
  reads_percentile_last
    (fun percentile =>
       run n_simulations percentile query query_dual query_stage_cost
           n_periodical_stages n_processes).
Proof.
  unfold run.
  do 16 (apply reads_percentile_last_bind; intros ?).
  apply CI_step_reads_percentile_last.
Qed.

Definition ignores_percentile (m : Q -> M unit) : Prop :=
  forall p p' w, m p w = m p' w.

Lemma ignores_percentile_bind {A} (m0 : M A) (k : A -> Q -> M unit) :
  (forall a, ignores_percentile (k a)) ->
  ignores_percentile (fun p => bind m0 (fun a => k a p)).
Proof.
  intros Hk p p' w. unfold bind.
  destruct (m0 w) as [w' [a|e]]; [apply Hk|reflexivity].
Qed.

Lemma run_ignores_percentile (n_simulations : Z)
    (query query_dual : option (list string)) (query_stage_cost : bool)
    (n_periodical_stages : option nat) (n_processes : Z) :
  ((n_simulations =? 1)%Z || (n_simulations =? -1)%Z)%bool = true ->
  ignores_percentile
    (fun percentile =>
       run n_simulations percentile query query_dual query_stage_cost
           n_periodical_stages n_processes).
Proof.
  intros Hn. unfold run.
  do 16 (apply ignores_percentile_bind; intros ?).
  rewrite (orb_comm (n_simulations =? -1)%Z), Hn.
  intros p p' w. reflexivity.
Qed.

End Percentile.

(** C3 fails as stated: a run with percentile 150 and one simulation
    completes, after calling the solver; with three simulations and a
    [compute_CI] that rejects the percentile, the exception only comes
    after the three sample paths were simulated. *)
Lemma out_of_range_percentile_is_not_rejected :
  let r1 := @run examples.toy 1 150 None None false None 1
              (examples.fresh class_Evaluation (examples.chain3 (Some 1))) in
  let r3 := @run examples.toy 3 150 None None false None 1
              (examples.fresh class_Evaluation (examples.chain3 (Some 1))) in
  ~ (0 < 150 /\ 150 < 100) /\
  snd r1 = Ok tt /\
  length (filter is_forward_call (trace (fst r1))) = 1%nat /\
  snd r3 = Raise ValueError /\
  length (filter is_forward_call (trace (fst r3))) = 3%nat.
Proof.
  cbv zeta. split.
  - intros [_ H]. revert H. apply Qle_not_lt. discriminate.
  - vm_compute. repeat split; reflexivity.
Qed.

(** C3, amended.  [run] does not check the percentile.  It only hands it
    to [compute_CI], once every sample path has been simulated: the
    calls a run makes are a sequence that does not depend on the
    percentile, possibly followed by one call of [compute_CI] with that
    percentile; and when [n_simulations] is 1 or -1 the whole run is the
    same for every percentile. *)
Theorem percentile_only_reaches_compute_CI :
  forall (C : Collaborators) (n_simulations : Z)
         (query query_dual : option (list string)) (query_stage_cost : bool)
         (n_periodical_stages : option nat) (n_processes : Z) (w : world),
    (exists tr, forall percentile,
        let w' := fst (run n_simulations percentile query query_dual
                           query_stage_cost n_periodical_stages n_processes w) in
        trace w' = tr \/
        exists values, trace w' = tr ++ [call_compute_CI values percentile]) /\
    (forall p p',
        if ((n_simulations =? 1)%Z || (n_simulations =? -1)%Z)%bool then
          run n_simulations p query query_dual query_stage_cost
              n_periodical_stages n_processes w
          = run n_simulations p' query query_dual query_stage_cost
                n_periodical_stages n_processes w
        else True).
Proof.
  intros C n_simulations query query_dual query_stage_cost n_periodical_stages
    n_processes w. split.
  - apply (run_reads_percentile_last n_simulations query query_dual
             query_stage_cost n_periodical_stages n_processes w).
  - intros p p'.
    destruct ((n_simulations =? 1)%Z || (n_simulations =? -1)%Z)%bool eqn:E;
      [|exact I].
    apply (run_ignores_percentile n_simulations query query_dual
             query_stage_cost n_periodical_stages n_processes E p p' w).
Qed.

(** *** The calls a computation adds *)

Section Calls.

Context {C : Collaborators}.

Variable allowed : event -> Prop.

(** The record of calls only grows, and by allowed calls. *)
Definition adds_only {A} (m : M A) : Prop :=
  forall w, exists more,
    trace (fst (m w)) = trace w ++ more /\ Forall allowed more.

Lemma adds_nothing {A} (m : M A) :
  (forall w, trace (fst (m w)) = trace w) -> adds_only m.
Proof.
  intros H w. exists []. rewrite app_nil_r. split; [apply H|constructor].
Qed.

Lemma adds_only_emit (e : event) : allowed e -> adds_only (emit e).
Proof.
  intros He w. exists [e]. split; [reflexivity|].
  constructor; [exact He|constructor].
Qed.

Lemma adds_only_bind {A B} (m : M A) (k : A -> M B) :
  adds_only m -> (forall a, adds_only (k a)) -> adds_only (bind m k).
Proof.
  intros Hm Hk w. unfold bind. destruct (Hm w) as [more1 [E1 F1]].
  destruct (m w) as [w' [a|e]]; simpl in E1.
  - destruct (Hk a w') as [more2 [E2 F2]].
    exists (more1 ++ more2). split.
    + rewrite E2, E1, app_assoc. reflexivity.
    + apply Forall_app. split; assumption.
  - exists more1. split; assumption.
Qed.

Lemma adds_only_for_loop {A S} (l : list A) (body : A -> S -> M S) :
  (forall x s, adds_only (body x s)) ->
  forall s, adds_only (for_loop l body s).
Proof.
  intros Hb. induction l as [|x xs IH]; intros s; simpl.
  - apply adds_nothing. reflexivity.
  - apply adds_only_bind; [apply Hb|exact IH].
Qed.

End Calls.

Ltac calls_step :=
  lazymatch goal with
  | |- adds_only _ (ret _) => apply adds_nothing; reflexivity
  | |- adds_only _ (raise _) => apply adds_nothing; reflexivity
  | |- adds_only _ (lift _) => apply adds_nothing; reflexivity
  | |- adds_only _ get_self => apply adds_nothing; reflexivity
  | |- adds_only _ get_shared => apply adds_nothing; reflexivity
  | |- adds_only _ (put_shared _) => apply adds_nothing; reflexivity
  | |- adds_only _ (modify_self _) => apply adds_nothing; reflexivity
  | |- adds_only _ (emit _) => apply adds_only_emit
  | |- adds_only _ (for_loop _ _ _) => apply adds_only_for_loop; intros ? ?
  | |- adds_only _ (bind _ _) => apply adds_only_bind; [|intros ?]
  | |- adds_only _ (if ?b then _ else _) => destruct b
  | |- adds_only _ (match ?x with _ => _ end) => destruct x
  end.

Section Workers.

Context {C : Collaborators}.

Lemma forward_pass_adds_forward_calls (pv : pv_ref) (j : nat) (rs : RandomState) :
  adds_only (fun e => is_forward_call e = true) (forward_pass pv j rs).
Proof.
  unfold forward_pass, pv_setitem, attribute.
  repeat first [ calls_step | reflexivity ].
Qed.

(** A computation whose first call, if it makes one, is the forward pass
    of sample path [j] with random state [rs], whatever follows it. *)
Definition first_call_is_forward (j : nat) (rs : RandomState) {A}
    (m : M A) : Prop :=
  forall (B : Type) (k : A -> M B),
    (forall a, adds_only (fun e => is_forward_call e = true) (k a)) ->
    forall w, exists more,
      trace (fst (bind m k w)) = trace w ++ more /\
      Forall (fun e => is_forward_call e = true) more /\
      match more with
      | [] => True
      | e :: _ => exists a, e = call_forward j rs a
      end.

Lemma first_call_after_silent (j : nat) (rs : RandomState) {A A'}
    (m0 : M A') (f : A' -> M A) :
  (forall w, fst (m0 w) = w) ->
  (forall a, first_call_is_forward j rs (f a)) ->
  first_call_is_forward j rs (bind m0 f).
Proof.
  intros Hm Hf B k Hk w. unfold bind at 1 2.
  specialize (Hm w). destruct (m0 w) as [w' [a|e]]; simpl in Hm; subst w'.
  - apply (Hf a B k Hk w).
  - exists []. rewrite app_nil_r. repeat split. constructor.
Qed.

Lemma first_call_emit (j : nat) (rs : RandomState) (a : forward_args) {A}
    (f : unit -> M A) :
  (forall x, adds_only (fun e => is_forward_call e = true) (f x)) ->
  first_call_is_forward j rs (bind (emit (call_forward j rs a)) f).
Proof.
  intros Hf B k Hk w. unfold bind at 1 2. cbn [emit].
  set (w1 := {| self := self w; shared := shared w;
                trace := trace w ++ [call_forward j rs a] |}).
  destruct (adds_only_bind _ (f tt) k (Hf tt) Hk w1) as [more [E F]].
  exists (call_forward j rs a :: more). split; [|split].
  - unfold bind in E. rewrite E. unfold w1. cbn [trace].
    rewrite <- app_assoc. reflexivity.
  - constructor; [reflexivity|exact F].
  - exists a. reflexivity.
Qed.

Lemma forward_pass_first_call (pv : pv_ref) (j : nat) (rs : RandomState) :
  first_call_is_forward j rs (forward_pass pv j rs).
Proof.
  unfold forward_pass.
  apply first_call_after_silent; [reflexivity|intros s].
  apply first_call_after_silent; [reflexivity|intros x1].
  apply first_call_after_silent; [reflexivity|intros x2].
  apply first_call_after_silent; [reflexivity|intros x3].
  apply first_call_after_silent;
    [intros w; unfold attribute; destruct (solver s); reflexivity|intros slv].
  cbv zeta. apply first_call_emit. intros _.
  unfold pv_setitem.
  repeat first [ calls_step | reflexivity ].
Qed.

End Workers.

(** C9.  A worker ([run_single]) whose first assigned sample path is
    [j0] creates its random state from the seed [[2**32-1, j0]]: that is
    the first call it makes, whatever the state it runs in; every later
    call is a forward pass, and the first of them (the pass of [j0])
    receives the random state created from that seed.  The seed depends
    on nothing but [j0], so the same partition of the sample paths gives
    every worker the same random state again. *)
Theorem worker_seed_is_first_job :
  forall (C : Collaborators) (pv : pv_ref) (j0 : nat) (rest : list nat)
         (w : world),
    let seed := [2 ^ 32 - 1; Z.of_nat j0]%Z in
    worker_seed (j0 :: rest) = Ok seed /\
    exists more,
      trace (fst (run_single pv (j0 :: rest) w))
      = trace w ++ call_RandomState seed :: more /\
      Forall (fun e => is_forward_call e = true) more /\
      match more with
      | [] => True
      | e :: _ => exists a, e = call_forward j0 (new_RandomState seed) a
      end.
Proof.
  intros C pv j0 rest w seed. split; [reflexivity|].
  unfold run_single.
  unfold bind at 1. unfold lift at 1.
  change (worker_seed (j0 :: rest)) with (Ok seed). cbv iota.
  unfold bind at 1. cbn [emit].
  set (w1 := {| self := self w; shared := shared w;
                trace := trace w ++ [call_RandomState seed] |}).
  cbn [for_loop].
  destruct (forward_pass_first_call pv j0 (new_RandomState seed) RandomState
              (for_loop rest (forward_pass pv))
              (adds_only_for_loop _ rest (forward_pass pv)
                 (forward_pass_adds_forward_calls pv)) w1)
    as [more [E [F H]]].
  exists more. split; [|split; assumption].
  unfold bind at 1.
  destruct (bind (forward_pass pv j0 (new_RandomState seed))
                 (for_loop rest (forward_pass pv)) w1) as [w2 [x|e]];
    cbn [fst ret] in *; rewrite E; unfold w1; cbn [trace];
    rewrite <- app_assoc; reflexivity.
Qed.

(** *** Arrays *)

Lemma list_set_length {A} (l : list A) (i : nat) (x : A) :
  length (list_set l i x) = length l.
Proof.
  revert i. induction l as [|h t IH]; intros [|i]; simpl; auto.
Qed.

Lemma list_set_first {A} (l : list A) (i : nat) (x : A) :
  nth_error (list_set l (S i) x) 0 = nth_error l 0.
Proof. destruct l; reflexivity. Qed.

Lemma list_set_middle {A} (l1 l2 : list A) (y x : A) :
  list_set (l1 ++ y :: l2) (length l1) x = l1 ++ x :: l2.
Proof.
  induction l1 as [|h t IH]; simpl; [reflexivity|]. rewrite IH. reflexivity.
Qed.

Lemma combine_map_same {A B D} (f : A -> B) (g : A -> D) (l : list A) :
  combine (map f l) (map g l) = map (fun x => (f x, g x)) l.
Proof.
  induction l as [|x xs IH]; simpl; [reflexivity|]. rewrite IH. reflexivity.
Qed.

Lemma repeat_as_map {A B} (x : B) (l : list A) :
  repeat x (length l) = map (fun _ => x) l.
Proof.
  induction l as [|h t IH]; simpl; [reflexivity|]. rewrite IH. reflexivity.
Qed.

(** Writing a column with one entry per row. *)
Lemma set_column_rows {A X} (nc : nat) (f : X -> list A) (g : X -> A)
    (l : list X) (j : nat) :
  (j < nc)%nat ->
  set_column {| ncols := nc; rows := map f l |} j (map g l)
  = Ok {| ncols := nc; rows := map (fun x => list_set (f x) j (g x)) l |}.
Proof.
  intros Hj. unfold set_column. cbn [ncols rows].
  rewrite (proj2 (Nat.ltb_lt j nc) Hj).
  rewrite !length_map, Nat.eqb_refl.
  rewrite combine_map_same, map_map. reflexivity.
Qed.

(** Writing a column other than the first keeps the number of rows and
    the first entry of every row. *)
Lemma set_column_keeps_first {A} (M M' : ndarray2 A) (t : nat) (v : list A)
    (z : A) :
  set_column M (S t) v = Ok M' ->
  Forall (fun row => nth_error row 0 = Some z) (rows M) ->
  length (rows M') = length (rows M) /\
  Forall (fun row => nth_error row 0 = Some z) (rows M').
Proof.
  unfold set_column. intros H HF.
  destruct (S t <? ncols M)%nat; [|discriminate].
  destruct (length v =? length (rows M))%nat eqn:E.
  - injection H as <-. cbn [rows]. apply Nat.eqb_eq in E. split.
    + rewrite length_map, length_combine. lia.
    + apply Forall_forall. intros row Hrow.
      apply in_map_iff in Hrow as [[r x] [<- Hin]].
      apply in_combine_l in Hin. cbn [fst snd].
      rewrite list_set_first. rewrite Forall_forall in HF. apply HF. exact Hin.
  - destruct v as [|x [|y v']]; try discriminate.
    injection H as <-. cbn [rows]. split.
    + apply length_map.
    + apply Forall_forall. intros row Hrow.
      apply in_map_iff in Hrow as [r [<- Hin]].
      rewrite list_set_first. rewrite Forall_forall in HF. apply HF. exact Hin.
Qed.

(** *** The first entry of every row of the matched indices *)

Section StageZero.

Context {C : Collaborators}.

Definition stage_zero_is_zero (n : nat) (w : world) : Prop :=
  exists M, markovian_idx (self w) = Some M /\
            length (rows M) = n /\
            Forall (fun row => nth_error row 0 = Some 0%nat) (rows M).

Lemma matching_loop_keeps_stage_zero (n : nat) (m : MSLP RandomState)
    (samples : list (list (list float))) (n_sim : nat) (ts : list nat) :
  Forall (fun t => (1 <= t)%nat) ts ->
  forall w,
    stage_zero_is_zero n w ->
    stage_zero_is_zero n
      (fst (for_each ts
              (fun t =>
                 bind get_self (fun s =>
                 bind (attribute (markovian_idx s)) (fun idx =>
                 bind (lift (nearest_Markov_states m samples n_sim t)) (fun col =>
                 bind (lift (set_column idx t col)) (fun idx' =>
                 modify_self (set_markovian_idx (Some idx')))))))
              w)).
Proof.
  unfold for_each.
  induction 1 as [|t ts Ht _ IH]; intros w Hw; [exact Hw|].
  cbn [for_loop]. unfold bind at 1.
  match goal with
  | |- context [let (w', r) := ?body w in _] => destruct (body w) as [w1 r] eqn:E
  end.
  assert (H1 : stage_zero_is_zero n w1).
  { revert E. unfold bind, get_self, attribute, lift, modify_self.
    destruct Hw as (M & HM & Hlen & HF). rewrite HM. cbn [ret].
    destruct (nearest_Markov_states m samples n_sim t) as [col|e].
    - destruct (set_column M t col) as [M'|e] eqn:ES.
      + intros [= <- _]. exists M'. cbn [self markovian_idx set_markovian_idx].
        destruct t as [|t]; [lia|].
        destruct (set_column_keeps_first M M' t col 0%nat ES HF) as [L F].
        split; [reflexivity|]. split; [lia|exact F].
      + intros [= <- _]. exists M. auto.
    - intros [= <- _]. exists M. auto. }
  destruct r as [[]|e]; [apply IH; exact H1|exact H1].
Qed.

End StageZero.

(** C10.  In the evaluation of a continuous Markovian process, once the
    array of matched indices is allocated (the random state is set and
    the number of simulations is not negative), the entry of stage 0 is 0
    for every sample path: the matching loop starts at stage 1 and no
    column assignment touches column 0.  This holds in the state the
    method leaves, whether it completes or stops with an exception at a
    later stage. *)
Theorem matched_index_of_stage_zero_is_zero :
  forall (C : Collaborators) (w : world) (n : Z) (rs : RandomState),
    cls (self w) = class_EvaluationTrue ->
    _type (MSP (self w)) = Markovian ->
    n_simulations (self w) = Some n ->
    (0 <= n)%Z ->
    random_state (self w) = Some rs ->
    (1 <= T (MSP (self w)))%nat ->
    let w' := fst (_compute_sample_path_idx_and_markovian_path w) in
    exists M,
      markovian_idx (self w') = Some M /\
      length (rows M) = Z.to_nat n /\
      forall i, (i < Z.to_nat n)%nat ->
                exists row, nth_error (rows M) i = Some row /\
                            nth_error row 0 = Some 0%nat.
Proof.
  intros C w n rs Hcls Htype Hn Hpos Hrs HT w'.
  assert (H : stage_zero_is_zero (Z.to_nat n) w').
  { unfold w', _compute_sample_path_idx_and_markovian_path.
    unfold bind at 1. unfold get_self at 1. rewrite Hcls.
    unfold EvaluationTrue__compute_sample_path_idx_and_markovian_path.
    unfold bind at 1. unfold get_self at 1.
    unfold bind at 1. rewrite Hn. cbn [attribute ret].
    unfold bind at 1. cbn [modify_self].
    unfold bind at 1. cbn [modify_self self].
    rewrite Htype.
    unfold bind at 1. rewrite Hrs. cbn [attribute ret].
    unfold bind at 1. cbn [emit].
    unfold bind at 1. cbn [modify_self].
    unfold bind at 1.
    assert (E : (n <? 0)%Z = false) by (apply Z.ltb_ge; exact Hpos).
    rewrite E. cbn [ret].
    unfold bind at 1. cbn [modify_self].
    apply matching_loop_keeps_stage_zero.
    - apply Forall_forall. intros t Ht. unfold range2 in Ht.
      apply in_seq in Ht. lia.
    - eexists. split; [reflexivity|]. cbn [rows full].
      split; [apply repeat_length|].
      apply Forall_forall. intros row Hrow. apply repeat_spec in Hrow. subst row.
      destruct (T (MSP (self w))); [lia|reflexivity]. }
  destruct H as (M & HM & Hlen & HF).
  exists M. split; [exact HM|]. split; [exact Hlen|].
  intros i Hi. rewrite <- Hlen in Hi.
  destruct (nth_error (rows M) i) as [row|] eqn:E.
  - exists row. split; [reflexivity|].
    rewrite Forall_forall in HF. apply HF. apply (nth_error_In _ _ E).
  - apply nth_error_None in E. lia.
Qed.

Lemma matched_index_of_stage_zero_is_zero_witness :
  let w := examples.markovian_evaluation 2 in
  cls (self w) = class_EvaluationTrue /\
  _type (MSP (self w)) = Markovian /\
  n_simulations (self w) = Some 2%Z /\
  (0 <= 2)%Z /\
  random_state (self w) = Some ([], 0%nat) /\
  (1 <= T (MSP (self w)))%nat /\
  @_compute_sample_path_idx_and_markovian_path examples.toy w
  = (fst (@_compute_sample_path_idx_and_markovian_path examples.toy w), Ok tt) /\
  exists M,
    markovian_idx
      (self (fst (@_compute_sample_path_idx_and_markovian_path examples.toy w)))
    = Some M /\
    length (rows M) = Z.to_nat 2 /\
    forall i, (i < Z.to_nat 2)%nat ->
              exists row, nth_error (rows M) i = Some row /\
                          nth_error row 0 = Some 0%nat.
Proof.
  intros w.
  split; [reflexivity|]. split; [reflexivity|]. split; [reflexivity|].
  split; [lia|]. split; [reflexivity|]. split; [vm_compute; lia|].
  split; [vm_compute; reflexivity|].
  exact (matched_index_of_stage_zero_is_zero examples.toy w 2
           ([], 0%nat) eq_refl eq_refl eq_refl ltac:(lia) eq_refl
           ltac:(vm_compute; lia)).
Defined.

(** *** The first minimum *)

Lemma argmin_from_first_minimum (l pre : list float) (bi : nat) :
  first_minimum pre bi ->
  first_minimum (pre ++ l)
                (argmin_from bi (nth bi pre 0%float) (length pre) l).
Proof.
  revert pre bi. induction l as [|x xs IH]; intros pre bi Hinv.
  - rewrite app_nil_r. exact Hinv.
  - cbn [argmin_from].
    replace (pre ++ x :: xs) with ((pre ++ [x]) ++ xs)
      by (rewrite <- app_assoc; reflexivity).
    destruct Hinv as [Hbi Hcase].
    destruct (is_nan (nth bi pre 0%float)) eqn:Enan.
    + (* the scan has stopped at a NaN *)
      destruct Hcase as [[_ Hbefore]|[Hnone _]];
        [|rewrite (Hnone bi Hbi) in Enan; discriminate].
      split; [rewrite !length_app; lia|]. left. split.
      * rewrite <- app_assoc, app_nth1 by exact Hbi. exact Enan.
      * intros k Hk. rewrite <- app_assoc, app_nth1 by lia. apply Hbefore, Hk.
    + destruct Hcase as [[Hn _]|[Hnone Hmin]]; [congruence|].
      replace (S (length pre)) with (length (pre ++ [x]))
        by (rewrite length_app; simpl; lia).
      destruct (nth bi pre 0 <=? x)%float eqn:Ele.
      * (* the entry is not below the minimum so far *)
        assert (Hinv : first_minimum (pre ++ [x]) bi).
        { split; [rewrite length_app; simpl; lia|]. right.
          destruct (leb_not_nan _ _ Ele) as [_ Hx]. split.
          - intros k Hk. rewrite length_app in Hk. simpl in Hk.
            destruct (Nat.eq_dec k (length pre)) as [->|Hne].
            + rewrite nth_middle. exact Hx.
            + rewrite app_nth1 by lia. apply Hnone. lia.
          - intros k Hk. rewrite length_app in Hk. simpl in Hk.
            rewrite (app_nth1 pre [x] 0%float Hbi).
            destruct (Nat.eq_dec k (length pre)) as [->|Hne].
            + rewrite nth_middle. split; [exact Ele|lia].
            + rewrite app_nth1 by lia. apply Hmin. lia. }
        pose proof (IH (pre ++ [x]) bi Hinv) as H.
        rewrite (app_nth1 pre [x] 0%float Hbi) in H. exact H.
      * (* the entry is below the minimum so far, or a NaN *)
        assert (Hinv : first_minimum (pre ++ [x]) (length pre)).
        { split; [rewrite length_app; simpl; lia|].
          destruct (is_nan x) eqn:Ex.
          - left. split; [rewrite nth_middle; exact Ex|].
            intros k Hk. rewrite app_nth1 by lia. apply Hnone, Hk.
          - right. pose proof (leb_total _ _ Enan Ex Ele) as Hxb. split.
            + intros k Hk. rewrite length_app in Hk. simpl in Hk.
              destruct (Nat.eq_dec k (length pre)) as [->|Hne].
              * rewrite nth_middle. exact Ex.
              * rewrite app_nth1 by lia. apply Hnone. lia.
            + intros k Hk. rewrite length_app in Hk. simpl in Hk.
              rewrite nth_middle.
              destruct (Nat.eq_dec k (length pre)) as [->|Hne].
              * rewrite nth_middle. split; [apply leb_refl; exact Ex|lia].
              * rewrite app_nth1 by lia.
                destruct (Hmin k ltac:(lia)) as [Hle _].
                split; [apply (leb_trans _ (nth bi pre 0%float)); assumption|].
                intros _.
                destruct (nth k pre 0 <=? x)%float eqn:Ek; [|reflexivity].
                rewrite (leb_trans _ _ _ Hle Ek) in Ele. discriminate. }
        pose proof (IH (pre ++ [x]) (length pre) Hinv) as H.
        rewrite nth_middle in H. exact H.
Qed.

Lemma first_argmin_first_minimum (ds : list float) :
  ds <> [] -> first_minimum ds (first_argmin ds).
Proof.
  destruct ds as [|d ds']; [congruence|]. intros _.
  apply (argmin_from_first_minimum ds' [d] 0).
  split; [simpl; lia|].
  destruct (is_nan d) eqn:E.
  - left. split; [exact E|]. intros k Hk. lia.
  - right. split; intros k Hk; simpl in Hk; assert (k = 0%nat) by lia; subst k.
    + exact E.
    + split; [apply leb_refl; exact E|lia].
Qed.

(** Among distances that are neither negative nor NaN, a zero distance
    at position [k] puts the selected position at the first zero. *)
Lemma zero_distance_is_matched (ds : list float) (j k : nat) :
  first_minimum ds j ->
  (forall i, (i < length ds)%nat -> (0 <=? nth i ds 0)%float = true) ->
  (k < length ds)%nat ->
  (nth k ds 0 =? 0)%float = true ->
  (nth j ds 0 =? 0)%float = true /\
  (j <= k)%nat /\
  ((forall k', (k' < k)%nat -> (nth k' ds 0 =? 0)%float = false) -> j = k).
Proof.
  intros [Hj Hcase] Hpos Hk Hzero.
  destruct Hcase as [[Hn _]|[_ Hmin]].
  { destruct (leb_not_nan _ _ (Hpos j Hj)) as [_ H]. congruence. }
  destruct (Hmin k Hk) as [Hle Hlt].
  assert (Hzj : (nth j ds 0 =? 0)%float = true)
    by (apply (nonneg_below_zero _ (nth k ds 0%float)); auto).
  assert (Hjk : (j <= k)%nat).
  { destruct (Nat.le_gt_cases j k) as [H|H]; [exact H|].
    specialize (Hlt H).
    rewrite (zero_le_nonneg _ _ Hzero (Hpos j Hj)) in Hlt. discriminate. }
  split; [exact Hzj|]. split; [exact Hjk|].
  intros Hfirst. destruct (Nat.eq_dec j k) as [E|E]; [exact E|].
  rewrite (Hfirst j ltac:(lia)) in Hzj. discriminate.
Qed.

(** *** Squared distances *)

Section Distances.

Context {C : Collaborators}.

Lemma squared_distance_sqdist (x s : list float) :
  length x = length s -> squared_distance numpy_sum x s = Ok (sqdist x s).
Proof.
  intros H. unfold squared_distance, broadcast_sub.
  rewrite (proj2 (Nat.eqb_eq _ _) H). reflexivity.
Qed.

Hypothesis sound : numpy_sum_sound.

Lemma sqdist_nonneg (x s : list float) :
  Forall (fun a => is_finite a = true) x ->
  Forall (fun a => is_finite a = true) s ->
  (0 <=? sqdist x s)%float = true.
Proof.
  intros Hx Hs. unfold sqdist. apply (proj2 sound).
  rewrite map_map. apply Forall_map. apply Forall_forall.
  intros [a b] Hin. cbn [fst snd].
  rewrite Forall_forall in Hx, Hs.
  apply square_nonneg, sub_finite_not_nan.
  - apply Hx. apply (in_combine_l _ _ _ _ Hin).
  - apply Hs. apply (in_combine_r _ _ _ _ Hin).
Qed.

Lemma sqdist_of_equal (x s : list float) :
  Forall (fun a => is_finite a = true) x ->
  Forall2 (fun a b => (a =? b)%float = true) x s ->
  (sqdist x s =? 0)%float = true.
Proof.
  intros Hx Heq. unfold sqdist.
  assert (E : map (fun a => a * a)%float
                  (map (fun ab => fst ab - snd ab)%float (combine x s))
              = repeat 0%float (length x)).
  { induction Heq as [|a b x s Hab _ IH]; [reflexivity|].
    inversion Hx as [|? ? Ha Hx']; subst.
    cbn [combine map length repeat fst snd]. rewrite (IH Hx'). f_equal.
    apply square_of_zero, sub_equal_is_zero; assumption. }
  rewrite E. apply (proj1 sound).
Qed.

(** A trajectory value equal to one of the states, all of them finite,
    is matched to the first state at the computed distance zero. *)
Lemma exact_match (x : list float) (states : list (list float)) (k : nat) :
  Forall (fun a => is_finite a = true) x ->
  Forall (Forall (fun a => is_finite a = true)) states ->
  (k < length states)%nat ->
  Forall2 (fun a b => (a =? b)%float = true) x (nth k states []) ->
  let j := first_argmin (map (sqdist x) states) in
  (sqdist x (nth j states []) =? 0)%float = true /\
  (j <= k)%nat /\
  ((forall k', (k' < k)%nat ->
               (sqdist x (nth k' states []) =? 0)%float = false) ->
   j = k).
Proof.
  intros Hx Hstates Hk Heq j.
  assert (Hne : map (sqdist x) states <> []).
  { destruct states; [simpl in Hk; lia|discriminate]. }
  pose proof (first_argmin_first_minimum _ Hne) as Hmin. fold j in Hmin.
  assert (Hnth : forall i, (i < length states)%nat ->
                 nth i (map (sqdist x) states) 0%float
                 = sqdist x (nth i states [])).
  { intros i Hi.
    rewrite (nth_indep _ 0%float (sqdist x [])) by (rewrite length_map; exact Hi).
    apply map_nth. }
  assert (Hj : (j < length states)%nat)
    by (destruct Hmin as [H _]; rewrite length_map in H; exact H).
  destruct (zero_distance_is_matched _ j k Hmin) as (Hz & Hjk & Hfirst).
  - intros i Hi. rewrite length_map in Hi. rewrite (Hnth i Hi).
    apply sqdist_nonneg; [exact Hx|].
    rewrite Forall_forall in Hstates. apply Hstates, nth_In, Hi.
  - rewrite length_map. exact Hk.
  - rewrite (Hnth k Hk). apply sqdist_of_equal; assumption.
  - rewrite (Hnth j Hj) in Hz. split; [exact Hz|]. split; [exact Hjk|].
    intros Hlow. apply Hfirst. intros k' Hk'.
    rewrite (Hnth k' ltac:(lia)). apply Hlow, Hk'.
Qed.

End Distances.

(** The left-to-right sum of the sample collaborators is sound. *)
Lemma toy_numpy_sum_sound : @numpy_sum_sound examples.toy.
Proof.
  split.
  - intros n. change (@numpy_sum examples.toy) with examples.toy_numpy_sum.
    unfold examples.toy_numpy_sum.
    induction n as [|n IH]; [reflexivity|].
    cbn [repeat fold_left].
    replace (0 + 0)%float with 0%float by reflexivity. exact IH.
  - intros l Hl. change (@numpy_sum examples.toy) with examples.toy_numpy_sum.
    unfold examples.toy_numpy_sum.
    assert (H : forall acc, (0 <=? acc)%float = true ->
                            (0 <=? fold_left PrimFloat.add l acc)%float = true).
    { induction Hl as [|a l Ha _ IH]; intros acc Hacc; [exact Hacc|].
      cbn [fold_left]. apply IH, add_nonneg; assumption. }
    apply H. reflexivity.
Qed.

(** *** The distance table and its row-wise minimum *)

Lemma comprehension_of_map {A A' B} (f : A' -> result B) (h : A -> A')
    (l : list A) :
  comprehension f (map h l) = comprehension (fun x => f (h x)) l.
Proof.
  induction l as [|x xs IH]; simpl; [reflexivity|]. rewrite IH. reflexivity.
Qed.

Lemma read_row_written {A} (d : A -> float) (l : list A) :
  read_row (map (fun s => Some (d s)) l) = Ok (map d l).
Proof.
  unfold read_row. rewrite comprehension_of_map.
  apply comprehension_map. reflexivity.
Qed.

Lemma list_set_at {A} (l1 l2 : list A) (y x : A) (i : nat) :
  i = length l1 -> list_set (l1 ++ y :: l2) i x = l1 ++ x :: l2.
Proof. intros ->. apply list_set_middle. Qed.

Lemma argmin_first_argmin (ds : list float) :
  ds <> [] -> argmin ds = Ok (first_argmin ds).
Proof. destruct ds; [congruence|reflexivity]. Qed.

Lemma stage_slice_closed (samples : list (list (list float))) (t : nat) :
  (forall path, In path samples -> (t < length path)%nat) ->
  stage_slice samples t = Ok (map (fun path => nth t path []) samples).
Proof.
  intros H. unfold stage_slice. apply comprehension_map.
  intros path Hin. apply subscript_nth. apply H. exact Hin.
Qed.

Section DistanceTable.

Context {C : Collaborators}.

Variable samples : list (list (list float)).
Variable t : nat.
Variable K : nat.

Hypothesis Hstage : forall path, In path samples -> (t < length path)%nat.

Let written (path : list (list float)) (states : list (list float))
  : list (option float) :=
  map (fun s => Some (sqdist (nth t path []) s)) states.

Let step (acc : result (ndarray2 (option float)))
    (idx_state : nat * list float) : result (ndarray2 (option float)) :=
  (dist <- acc ;;
   x <- stage_slice samples t ;;
   col <- comprehension
            (fun row => squared_distance numpy_sum row (snd idx_state)) x ;;
   set_column dist (fst idx_state) (map (@Some float) col))%result.

Lemma distance_table_fold (rest : list (list float)) :
  forall done : list (list float),
    (forall path s, In path samples -> In s rest ->
                    length s = length (nth t path [])) ->
    (length done + length rest = K)%nat ->
    fold_left step (combine (seq (length done) (length rest)) rest)
      (Ok {| ncols := K;
             rows := map (fun path => written path done
                                      ++ repeat None (length rest)) samples |})
    = Ok {| ncols := K;
            rows := map (fun path => written path (done ++ rest)) samples |}.
Proof.
  induction rest as [|s rest IH]; intros done Hdim Hlen.
  - cbn [length seq combine fold_left repeat]. do 2 f_equal.
    apply map_ext. intros path. rewrite !app_nil_r. reflexivity.
  - cbn [length seq combine fold_left].
    assert (Estep :
      step (Ok {| ncols := K;
                  rows := map (fun path => written path done
                                           ++ repeat None (S (length rest)))
                              samples |})
           (length done, s)
      = Ok {| ncols := K;
              rows := map (fun path => written path (done ++ [s])
                                       ++ repeat None (length rest))
                          samples |}).
    { unfold step. cbn [rbind fst snd].
      rewrite (stage_slice_closed samples t Hstage). cbn [rbind].
      rewrite comprehension_of_map.
      rewrite (comprehension_map _ (fun path => sqdist (nth t path []) s)).
      - cbn [rbind]. rewrite map_map.
        rewrite (set_column_rows K _ (fun path => Some (sqdist (nth t path []) s)))
          by (simpl in Hlen; lia).
        do 2 f_equal. apply map_ext. intros path.
        unfold written. rewrite map_app. cbn [map repeat].
        rewrite <- app_assoc. cbn [app].
        apply list_set_at. symmetry. apply length_map.
      - intros path Hin. apply squared_distance_sqdist.
        symmetry. apply Hdim; [exact Hin|left; reflexivity]. }
    fold step. rewrite Estep.
    replace (S (length done)) with (length (done ++ [s]))
      by (rewrite length_app; simpl; lia).
    rewrite (IH (done ++ [s])).
    + rewrite <- app_assoc. reflexivity.
    + intros path s' Hp Hs'. apply Hdim; [exact Hp|right; exact Hs'].
    + rewrite length_app. simpl in *. lia.
Qed.

End DistanceTable.

Lemma nearest_Markov_states_closed {C : Collaborators} (m : MSLP RandomState)
    (samples : list (list (list float))) (n t : nat) (ns : list nat) :
  n_Markov_states m = PerStage ns ->
  length samples = n ->
  (t < length ns)%nat ->
  (t < length (Markov_states m))%nat ->
  nth t ns 0%nat = length (nth t (Markov_states m) []) ->
  (1 <= length (nth t (Markov_states m) []))%nat ->
  (forall path, In path samples ->
     (t < length path)%nat /\
     forall s, In s (nth t (Markov_states m) []) ->
               length s = length (nth t path [])) ->
  nearest_Markov_states m samples n t
  = Ok (map (fun path =>
               first_argmin (map (sqdist (nth t path []))
                                 (nth t (Markov_states m) [])))
            samples).
Proof.
  intros Hns Hn Ht1 Ht2 HK Hne Hpaths.
  unfold nearest_Markov_states. rewrite Hns. cbn [Markov_count].
  rewrite (subscript_nth ns t 0%nat Ht1). cbn [rbind].
  rewrite (subscript_nth (Markov_states m) t [] Ht2). cbn [rbind].
  set (states := nth t (Markov_states m) []) in *.
  rewrite HK. unfold full, range.
  rewrite <- Hn, repeat_as_map.
  pose proof (distance_table_fold samples t (length states)
                (fun path Hin => proj1 (Hpaths path Hin)) states []
                (fun path s Hp Hs => proj2 (Hpaths path Hp) s Hs) eq_refl) as Hfold.
  cbn [length app map] in Hfold. rewrite Hfold. cbn [rbind].
  unfold argmin_axis1. cbn [ncols rows].
  destruct (length states =? 0)%nat eqn:E; [apply Nat.eqb_eq in E; lia|].
  rewrite comprehension_of_map.
  apply comprehension_map. intros path _.
  rewrite read_row_written. cbn [rbind].
  apply argmin_first_argmin.
  destruct states; [simpl in Hne; lia|discriminate].
Qed.

(** *** The matching loop *)

Section Matching.

Context {C : Collaborators}.

Lemma for_each_cons {A} (x : A) (xs : list A) (body : A -> M unit) (w : world) :
  for_each (x :: xs) body w = bind (body x) (fun _ => for_each xs body) w.
Proof.
  unfold for_each. cbn [for_loop]. unfold bind.
  destruct (body x w) as [w' [[]|e]]; reflexivity.
Qed.

Lemma bind_ok {A B} (m : M A) (k : A -> M B) (w w1 : world) (a : A) :
  m w = (w1, Ok a) -> bind m k w = k a w1.
Proof. intros H. unfold bind. rewrite H. reflexivity. Qed.

(** What [matcher_inputs_ok] gives for one stage. *)
Definition stage_inputs_ok (m : MSLP RandomState)
    (samples : list (list (list float))) (ns : list nat) (t : nat) : Prop :=
  (t < length ns)%nat /\
  (t < length (Markov_states m))%nat /\
  nth t ns 0%nat = length (nth t (Markov_states m) []) /\
  (1 <= length (nth t (Markov_states m) []))%nat /\
  forall path, In path samples ->
    (t < length path)%nat /\
    forall s, In s (nth t (Markov_states m) []) ->
              length s = length (nth t path []).

Lemma matcher_inputs_ok_inv (m : MSLP RandomState)
    (samples : list (list (list float))) (n : Z) :
  matcher_inputs_ok m samples n = true ->
  (0 <= n)%Z /\ length samples = Z.to_nat n /\ (1 <= T m)%nat /\
  exists ns, n_Markov_states m = PerStage ns /\
             forall t, (1 <= t < T m)%nat -> stage_inputs_ok m samples ns t.
Proof.
  unfold matcher_inputs_ok. intros H.
  apply andb_true_iff in H as [H Hst].
  apply andb_true_iff in H as [H HT].
  apply andb_true_iff in H as [Hn Hlen].
  apply Z.leb_le in Hn. apply Nat.eqb_eq in Hlen. apply Nat.leb_le in HT.
  repeat split; try assumption.
  destruct (n_Markov_states m) as [|ns]; [discriminate|].
  exists ns. split; [reflexivity|].
  intros t Ht. rewrite forallb_forall in Hst.
  assert (Hin : In t (range2 1 (T m))) by (unfold range2; apply in_seq; lia).
  specialize (Hst t Hin). cbv zeta in Hst.
  apply andb_true_iff in Hst as [Hst Hpaths].
  apply andb_true_iff in Hst as [Hst Hne].
  apply andb_true_iff in Hst as [Hst HK].
  apply andb_true_iff in Hst as [H1 H2].
  apply Nat.ltb_lt in H1, H2. apply Nat.eqb_eq in HK. apply Nat.leb_le in Hne.
  repeat split; try assumption.
  - rewrite forallb_forall in Hpaths. specialize (Hpaths path H).
    apply andb_true_iff in Hpaths as [Hp _]. apply Nat.ltb_lt. exact Hp.
  - intros s Hs. rewrite forallb_forall in Hpaths. specialize (Hpaths path H).
    apply andb_true_iff in Hpaths as [_ Hp]. rewrite forallb_forall in Hp.
    apply Nat.eqb_eq. apply Hp. exact Hs.
Qed.

Lemma matching_loop_closed (m : MSLP RandomState)
    (samples : list (list (list float))) (ns : list nat) (r : nat) :
  n_Markov_states m = PerStage ns ->
  (forall t, (1 <= t < T m)%nat -> stage_inputs_ok m samples ns t) ->
  forall (j : nat) (w : world),
    (j + r + 1 = T m)%nat ->
    markovian_idx (self w)
    = Some {| ncols := T m;
              rows := map (fun path =>
                             (0%nat :: map (fun t => first_argmin
                                              (map (sqdist (nth t path []))
                                                   (nth t (Markov_states m) [])))
                                           (seq 1 j))
                             ++ repeat 0%nat r) samples |} ->
    exists w',
      for_each (seq (1 + j) r)
        (fun t =>
           bind get_self (fun s =>
           bind (attribute (markovian_idx s)) (fun idx =>
           bind (lift (nearest_Markov_states m samples (length samples) t))
                (fun col =>
           bind (lift (set_column idx t col)) (fun idx' =>
           modify_self (set_markovian_idx (Some idx')))))))
        w = (w', Ok tt) /\
      markovian_samples (self w') = markovian_samples (self w) /\
      markovian_idx (self w')
      = Some {| ncols := T m;
                rows := map (fun path =>
                               0%nat :: map (fun t => first_argmin
                                               (map (sqdist (nth t path []))
                                                    (nth t (Markov_states m) [])))
                                            (seq 1 (j + r))) samples |}.
Proof.
  intros Hns Hstages. induction r as [|r IH]; intros j w HT Hidx.
  - exists w. split; [reflexivity|]. split; [reflexivity|].
    rewrite Hidx. do 2 f_equal. apply map_ext. intros path.
    rewrite Nat.add_0_r. cbn [repeat]. apply app_nil_r.
  - cbn [seq]. rewrite for_each_cons.
    destruct (Hstages (1 + j)%nat ltac:(lia)) as (H1 & H2 & HK & Hne & Hpaths).
    erewrite bind_ok; cycle 1.
    { erewrite bind_ok by reflexivity. cbv beta.
      rewrite Hidx. erewrite bind_ok by reflexivity.
      rewrite (nearest_Markov_states_closed m samples (length samples) (1 + j) ns
                 Hns eq_refl H1 H2 HK Hne Hpaths).
      erewrite bind_ok by reflexivity.
      rewrite set_column_rows by lia.
      erewrite bind_ok by reflexivity.
      reflexivity. }
    match goal with
    | |- exists w', for_each _ _ ?w1 = _ /\ _ =>
        destruct (IH (S j) w1) as (w' & Hrun & Hsamples & Hfinal)
    end.
    + lia.
    + cbn [self markovian_idx set_markovian_idx]. do 2 f_equal.
      apply map_ext. intros path.
      rewrite seq_S, map_app. cbn [map repeat].
      rewrite app_comm_cons, <- app_assoc. cbn [app].
      match goal with
      | |- list_set (_ :: ?l ++ _ :: ?l2) _ ?x = _ =>
          apply (list_set_at (0%nat :: l) l2 0%nat x)
      end.
      cbn [length]. rewrite length_map, length_seq. reflexivity.
    + exists w'. split; [exact Hrun|]. split; [exact Hsamples|].
      replace (j + S r)%nat with (S j + r)%nat by lia. exact Hfinal.
Qed.

Lemma matcher_closed (w : world) (n : Z) (rs : RandomState) :
  cls (self w) = class_EvaluationTrue ->
  _type (MSP (self w)) = Markovian ->
  n_simulations (self w) = Some n ->
  random_state (self w) = Some rs ->
  matcher_inputs_ok (MSP (self w))
    (Markovian_uncertainty (MSP (self w)) rs n) n = true ->
  exists w',
    _compute_sample_path_idx_and_markovian_path w = (w', Ok tt) /\
    markovian_samples (self w')
    = Some (Markovian_uncertainty (MSP (self w)) rs n) /\
    markovian_idx (self w')
    = Some {| ncols := T (MSP (self w));
              rows := map (matched_row (MSP (self w)))
                          (Markovian_uncertainty (MSP (self w)) rs n) |}.
Proof.
  intros Hcls Htype Hn Hrs Hok.
  destruct (matcher_inputs_ok_inv _ _ _ Hok) as (Hpos & Hlen & HT & ns & Hns & Hst).
  set (m := MSP (self w)) in *.
  set (samples := Markovian_uncertainty m rs n) in *.
  assert (E : (n <? 0)%Z = false) by (apply Z.ltb_ge; exact Hpos).
  unfold _compute_sample_path_idx_and_markovian_path.
  erewrite bind_ok by reflexivity. cbv beta. rewrite Hcls.
  unfold EvaluationTrue__compute_sample_path_idx_and_markovian_path.
  erewrite bind_ok by reflexivity. cbv beta zeta.
  rewrite Hn. erewrite bind_ok by reflexivity.
  erewrite bind_ok by reflexivity.
  erewrite bind_ok by reflexivity.
  fold m. rewrite Htype.
  rewrite Hrs. erewrite bind_ok by reflexivity.
  erewrite bind_ok by reflexivity.
  erewrite bind_ok by reflexivity.
  rewrite E. erewrite bind_ok by reflexivity.
  erewrite bind_ok by reflexivity.
  fold samples. rewrite <- Hlen. unfold range2.
  match goal with
  | |- exists w', for_each _ _ ?w1 = _ /\ _ =>
      destruct (matching_loop_closed m samples ns (T m - 1) Hns Hst 0 w1)
        as (w' & Hrun & Hsamples & Hfinal)
  end.
  - lia.
  - cbn [self markovian_idx set_markovian_idx]. unfold full.
    do 2 f_equal. rewrite repeat_as_map. apply map_ext. intros path.
    cbn [seq map app]. destruct (T m) as [|T']; [lia|].
    cbn [repeat]. rewrite Nat.sub_succ, Nat.sub_0_r. reflexivity.
  - exists w'. split; [exact Hrun|]. split.
    + rewrite Hsamples. reflexivity.
    + rewrite Hfinal. reflexivity.
Qed.

Lemma matched_row_nth (m : MSLP RandomState) (path : list (list float))
    (t : nat) :
  (1 <= t < T m)%nat ->
  nth t (matched_row m path) 0%nat
  = first_argmin (map (sqdist (nth t path [])) (nth t (Markov_states m) [])).
Proof.
  intros Ht. unfold matched_row.
  destruct t as [|t]; [lia|]. cbn [nth].
  set (F := fun t0 => first_argmin (map (sqdist (nth t0 path []))
                                        (nth t0 (Markov_states m) []))).
  rewrite (nth_indep _ 0%nat (F 0%nat)) by (rewrite length_map, length_seq; lia).
  rewrite (map_nth F). rewrite seq_nth by lia. reflexivity.
Qed.

End Matching.

(** C6 fails as stated: the stage-1 value 0 of the trajectory equals the
    state of index 1 and differs from the state of index 0, which is
    2^-600, yet it is matched to index 0.  The square of the difference
    to 2^-600 is below the smallest positive float64 and rounds to zero,
    so the two computed distances are equal and the lower index wins,
    although the state of index 1 alone is at distance zero. *)
Lemma equal_state_not_matched_to_its_index :
  let w := examples.markovian_evaluation 1 in
  let r := @_compute_sample_path_idx_and_markovian_path examples.toy w in
  snd r = Ok tt /\
  markovian_samples (self (fst r)) = Some [examples.trajectory] /\
  nth 1 (Markov_states examples.markovian3) [] = [[0x1p-600]; [0]]%float /\
  nth 1 examples.trajectory [] = [0]%float /\
  (0x1p-600 =? 0)%float = false /\
  markovian_idx (self (fst r))
  = Some {| ncols := 3; rows := [[0; 0; 1]%nat] |}.
Proof. vm_compute. repeat split; reflexivity. Qed.

(** C6, amended.  For consistent inputs the matcher completes and stores,
    for every trajectory, the row [matched_row]: a function of the
    program and the trajectories alone, so two runs on the same inputs
    store the same indices.  At each stage t >= 1 the stored index is the
    one that the minimum scan selects among the squared Euclidean
    distances as float64 arithmetic evaluates them: the first position of
    their minimum (ties go to the lowest index), or of the first NaN.
    When the value and the states of the stage are finite, a value equal
    to the state of index k is matched to the lowest index whose
    computed distance is zero: an index that is at most k, and k itself
    when no state of lower index is at the computed distance zero. *)
Theorem nearest_Markov_state_matching :
  forall (C : Collaborators) (w : world) (n : Z) (rs : RandomState),
    cls (self w) = class_EvaluationTrue ->
    _type (MSP (self w)) = Markovian ->
    n_simulations (self w) = Some n ->
    random_state (self w) = Some rs ->
    matcher_inputs_ok (MSP (self w))
      (Markovian_uncertainty (MSP (self w)) rs n) n = true ->
    let m := MSP (self w) in
    let samples := Markovian_uncertainty m rs n in
    exists (w' : world) (M : ndarray2 nat),
      _compute_sample_path_idx_and_markovian_path w = (w', Ok tt) /\
      markovian_samples (self w') = Some samples /\
      markovian_idx (self w') = Some M /\
      rows M = map (matched_row m) samples /\
      forall i t,
        (i < Z.to_nat n)%nat -> (1 <= t < T m)%nat ->
        let x := nth t (nth i samples []) [] in
        let states := nth t (Markov_states m) [] in
        let j := nth t (nth i (rows M) []) 0%nat in
        first_minimum (map (sqdist x) states) j /\
        (numpy_sum_sound ->
         Forall (fun a => is_finite a = true) x ->
         Forall (Forall (fun a => is_finite a = true)) states ->
         forall k,
           (k < length states)%nat ->
           Forall2 (fun a b => (a =? b)%float = true) x (nth k states []) ->
           (sqdist x (nth j states []) =? 0)%float = true /\
           (j <= k)%nat /\
           ((forall k', (k' < k)%nat ->
                        (sqdist x (nth k' states []) =? 0)%float = false) ->
            j = k)).
Proof.
  intros C w n rs Hcls Htype Hn Hrs Hok m samples.
  destruct (matcher_closed w n rs Hcls Htype Hn Hrs Hok)
    as (w' & Hrun & Hsamples & Hidx).
  destruct (matcher_inputs_ok_inv _ _ _ Hok) as (_ & Hlen & _ & ns & _ & Hst).
  fold m in Hrun, Hsamples, Hidx, Hlen, Hst.
  fold samples in Hsamples, Hidx, Hlen, Hst.
  exists w', {| ncols := T m; rows := map (matched_row m) samples |}.
  split; [exact Hrun|]. split; [exact Hsamples|]. split; [exact Hidx|].
  split; [reflexivity|].
  intros i t Hi Ht. cbn [rows]. cbv zeta.
  rewrite <- Hlen in Hi.
  rewrite (nth_indep _ [] (matched_row m [])) by (rewrite length_map; exact Hi).
  rewrite (map_nth (matched_row m)), matched_row_nth by exact Ht.
  destruct (Hst t Ht) as (_ & _ & _ & Hne & _).
  split.
  - apply first_argmin_first_minimum.
    destruct (nth t (Markov_states m) []); [simpl in Hne; lia|discriminate].
  - intros Hsound Hx Hstates k Hk Heq. apply exact_match; assumption.
Qed.

Lemma nearest_Markov_state_matching_witness :
  let w := examples.markovian_evaluation 2 in
  cls (self w) = class_EvaluationTrue /\
  _type (MSP (self w)) = Markovian /\
  n_simulations (self w) = Some 2%Z /\
  random_state (self w) = Some ([], 0%nat) /\
  matcher_inputs_ok (MSP (self w))
    (Markovian_uncertainty (MSP (self w)) ([], 0%nat) 2) 2 = true /\
  @numpy_sum_sound examples.toy /\
  exists (w' : world) (M : ndarray2 nat),
    @_compute_sample_path_idx_and_markovian_path examples.toy w = (w', Ok tt) /\
    markovian_idx (self w') = Some M /\
    rows M = map (@matched_row examples.toy _ (MSP (self w)))
                 (Markovian_uncertainty (MSP (self w)) ([], 0%nat) 2) /\
    (nth 1 (nth 0 (rows M) []) 0 <= 1)%nat.
Proof.
  intros w.
  split; [reflexivity|]. split; [reflexivity|]. split; [reflexivity|].
  split; [reflexivity|]. split; [vm_compute; reflexivity|].
  split; [exact toy_numpy_sum_sound|].
  destruct (nearest_Markov_state_matching examples.toy w 2 ([], 0%nat)
              eq_refl eq_refl eq_refl eq_refl ltac:(vm_compute; reflexivity))
    as (w' & M & H1 & _ & H3 & H4 & H5).
  exists w', M. split; [exact H1|]. split; [exact H3|]. split; [exact H4|].
  destruct (H5 0%nat 1%nat ltac:(vm_compute; lia) ltac:(vm_compute; lia))
    as [_ Hexact].
  destruct (Hexact toy_numpy_sum_sound
              ltac:(repeat constructor)
              ltac:(repeat constructor)
              1%nat ltac:(vm_compute; lia)
              ltac:(repeat constructor)) as (_ & Hle & _).
  exact Hle.
Defined.

End evaluation_facts.

(** * Further properties of the sample-path model *)

Module path_facts.

Import msp msp_facts.

Local Open Scope Q_scope.

Lemma comprehension_app {A B} (f : A -> result B) (l1 l2 : list A) :
  comprehension f (l1 ++ l2)
  = (ys1 <- comprehension f l1 ;;
     ys2 <- comprehension f l2 ;;
     Ok (ys1 ++ ys2))%result.
Proof.
  induction l1 as [|x xs IH]; simpl.
  - destruct (comprehension f l2); reflexivity.
  - destruct (f x) as [y|e]; simpl; [|reflexivity].
    rewrite IH.
    destruct (comprehension f xs) as [ys|e]; simpl; [|reflexivity].
    destruct (comprehension f l2); reflexivity.
Qed.

Lemma comprehension_ext_in {A B} (f g : A -> result B) (l : list A) :
  (forall x, In x l -> f x = g x) -> comprehension f l = comprehension g l.
Proof.
  induction l as [|x xs IH]; intros H; simpl; [reflexivity|].
  rewrite (H x (or_introl eq_refl)), IH; [reflexivity|].
  intros y Hy. apply H. right. exact Hy.
Qed.

Lemma subscript_app_l {A} (l l' : list A) (i : nat) :
  (i < length l)%nat -> subscript (l ++ l') i = subscript l i.
Proof. intros H. unfold subscript. rewrite nth_error_app1 by exact H. reflexivity. Qed.

Lemma subscript_last {A} (l : list A) (x : A) :
  subscript (l ++ [x]) (length l) = Ok x.
Proof.
  unfold subscript. rewrite nth_error_app2 by lia.
  rewrite Nat.sub_diag. reflexivity.
Qed.

Lemma prod_Q_app (l1 l2 : list Q) : prod_Q (l1 ++ l2) == prod_Q l1 * prod_Q l2.
Proof.
  induction l1 as [|x xs IH]; simpl.
  - ring.
  - rewrite IH. ring.
Qed.

Lemma prod_Q_snoc (l : list Q) (y : Q) : prod_Q (l ++ [y]) == prod_Q l * y.
Proof. rewrite prod_Q_app. simpl. ring. Qed.

(** A comprehension over [range (S n)] is the one over [range n] followed
    by the body at [n]. *)
Lemma comprehension_range_S {B} (f : nat -> result B) (a n : nat) :
  comprehension f (seq a (S n))
  = (ys <- comprehension f (seq a n) ;;
     y <- f (a + n)%nat ;;
     Ok (ys ++ [y]))%result.
Proof.
  rewrite seq_S, comprehension_app. simpl.
  destruct (comprehension f (seq a n)) as [ys|e]; simpl; [|reflexivity].
  destruct (f (a + n)%nat); reflexivity.
Qed.

Lemma length_snoc {A} (l : list A) (x : A) : length (l ++ [x]) = S (length l).
Proof. rewrite length_app. simpl. lia. Qed.

Section Weights.

Context {RS : Type}.
Implicit Type self : MSLP RS.

Variable self : MSLP RS.

Lemma independent_weight_step (p : list (list Q)) (sp : list nat) (s : nat) :
  comprehension
    (fun t => pt <- subscript p t ;;
              s' <- subscript (sp ++ [s]) t ;;
              subscript pt s')%result
    (range (length (sp ++ [s])))
  = (ys <- comprehension
             (fun t => pt <- subscript p t ;;
                       s' <- subscript sp t ;;
                       subscript pt s')
             (range (length sp)) ;;
     y <- (pt <- subscript p (length sp) ;;
           s' <- subscript (sp ++ [s]) (length sp) ;;
           subscript pt s') ;;
     Ok (ys ++ [y]))%result.
Proof.
  rewrite length_snoc. unfold range. rewrite comprehension_range_S.
  rewrite (comprehension_ext_in
             (fun t => pt <- subscript p t ;;
                       s' <- subscript (sp ++ [s]) t ;;
                       subscript pt s')%result
             (fun t => pt <- subscript p t ;;
                       s' <- subscript sp t ;;
                       subscript pt s')%result).
  - reflexivity.
  - intros t Ht. apply in_seq in Ht.
    rewrite subscript_app_l by lia. reflexivity.
Qed.

(** The factor of stage [t] in the weight of a mixed path: the
    transition probability into the Markov state of the stage, and the
    probability of the outcome given that state. *)
Definition transition_term (TM : list (list (list Q))) (mp : list nat) (t : nat)
  : result Q :=
  (Pt <- subscript TM t ;;
   a <- subscript mp (t - 1) ;;
   row <- subscript Pt a ;;
   b <- subscript mp t ;;
   subscript row b)%result.

Definition outcome_term (p : list (list (list Q))) (sp mp : list nat) (t : nat)
  : result Q :=
  (pt <- subscript p t ;;
   k <- subscript mp t ;;
   pk <- subscript pt k ;;
   s <- subscript sp t ;;
   subscript pk s)%result.

Lemma transition_term_prefix (TM : list (list (list Q))) (mp : list nat)
    (k t : nat) :
  (t < length mp)%nat ->
  transition_term TM (mp ++ [k]) t = transition_term TM mp t.
Proof.
  intros H. unfold transition_term.
  rewrite !subscript_app_l by lia. reflexivity.
Qed.

Lemma outcome_term_prefix (p : list (list (list Q))) (sp mp : list nat)
    (s k t : nat) :
  (t < length sp)%nat -> (t < length mp)%nat ->
  outcome_term p (sp ++ [s]) (mp ++ [k]) t = outcome_term p sp mp t.
Proof.
  intros H1 H2. unfold outcome_term.
  rewrite !subscript_app_l by lia. reflexivity.
Qed.


Lemma mixed_weight_unfold (sp mp : list nat) :
  _compute_weight_sample_path self (Mixed sp mp)
  = (probability <- _set_up_probability self ;;
     match probability with
     | ProbIndep _ => Raise TypeError
     | ProbMixed p =>
         ts <- comprehension (transition_term (transition_matrix self) mp)
                 (range2 1 (length sp)) ;;
         ps <- comprehension (outcome_term p sp mp) (range (length sp)) ;;
         Ok (prod_Q ts * prod_Q ps)
     end)%result.
Proof.
  unfold _compute_weight_sample_path.
  destruct (_set_up_probability self) as [[q|q]|e]; reflexivity.
Qed.

Lemma mixed_current_weight_unfold (sp mp : list nat) (s k : nat) :
  _compute_current_weight_sample_path self (Mixed (sp ++ [s]) (mp ++ [k]))
  = (probability <- _set_up_probability self ;;
     match probability with
     | ProbIndep p => _ <- subscript p 1 ;; Raise TypeError
     | ProbMixed p =>
         weight <- (if (0 <? length sp)%nat then
                      transition_term (transition_matrix self) (mp ++ [k])
                        (length sp)
                    else Ok 1) ;;
         r <- outcome_term p (sp ++ [s]) (mp ++ [k]) (length sp) ;;
         Ok (weight * r)
     end)%result.
Proof.
  unfold _compute_current_weight_sample_path.
  destruct (_set_up_probability self) as [[q|q]|e]; try reflexivity.
  cbn [rbind]. rewrite length_snoc.
  unfold outcome_term, transition_term.
  destruct (0 <? length sp)%nat;
    repeat match goal with
           | |- context [rbind (subscript ?l ?i) _] =>
               destruct (subscript l i); cbn [rbind]; try reflexivity
           end.
Qed.

Lemma transitions_step (TM : list (list (list Q))) (mp : list nat) (k n : nat) :
  length mp = n ->
  comprehension (transition_term TM (mp ++ [k])) (range2 1 (S n))
  = match n with
    | O => Ok []
    | S _ =>
        (ys <- comprehension (transition_term TM mp) (range2 1 n) ;;
         y <- transition_term TM (mp ++ [k]) n ;;
         Ok (ys ++ [y]))%result
    end.
Proof.
  intros H. unfold range2. destruct n as [|m]; [reflexivity|].
  replace (S (S m) - 1)%nat with (S m) by lia.
  replace (S m - 1)%nat with m by lia.
  rewrite comprehension_range_S.
  rewrite (comprehension_ext_in (transition_term TM (mp ++ [k]))
                                (transition_term TM mp)); [reflexivity|].
  intros t Ht. apply in_seq in Ht. apply transition_term_prefix. lia.
Qed.

Lemma outcomes_step (p : list (list (list Q))) (sp mp : list nat) (s k : nat) :
  length mp = length sp ->
  comprehension (outcome_term p (sp ++ [s]) (mp ++ [k])) (range (S (length sp)))
  = (ys <- comprehension (outcome_term p sp mp) (range (length sp)) ;;
     y <- outcome_term p (sp ++ [s]) (mp ++ [k]) (length sp) ;;
     Ok (ys ++ [y]))%result.
Proof.
  intros H. unfold range. rewrite comprehension_range_S.
  rewrite (comprehension_ext_in (outcome_term p (sp ++ [s]) (mp ++ [k]))
                                (outcome_term p sp mp)); [reflexivity|].
  intros t Ht. apply in_seq in Ht. apply outcome_term_prefix; lia.
Qed.

End Weights.

Ltac result_cases :=
  repeat match goal with
         | |- context [rbind ?a _] =>
             lazymatch a with
             | Ok _ => fail
             | Raise _ => fail
             | rbind _ _ => fail
             | _ => destruct a; cbn [rbind]
             end
         end.

Lemma weight_of_child {RS : Type} (self : MSLP RS) (path : sample_path)
    (s k : nat) :
  aligned path ->
  (forall w' c,
      _compute_weight_sample_path self path = Ok w' ->
      _compute_current_weight_sample_path self (child path s k) = Ok c ->
      exists w, _compute_weight_sample_path self (child path s k) = Ok w /\
                w == w' * c) /\
  (forall w,
      _compute_weight_sample_path self (child path s k) = Ok w ->
      exists w' c,
        _compute_weight_sample_path self path = Ok w' /\
        _compute_current_weight_sample_path self (child path s k) = Ok c /\
        w == w' * c).
Proof.
  revert path. intros [sp|sp mp] Hal; cbn [child].
  - unfold _compute_weight_sample_path, _compute_current_weight_sample_path.
    destruct (_set_up_probability self) as [[p|p]|e]; cbn [rbind].
    + rewrite independent_weight_step, length_snoc.
      result_cases; split; intros; try discriminate;
        repeat match goal with H : Ok _ = Ok _ |- _ => inversion H; clear H; subst end;
        repeat eexists; apply prod_Q_snoc.
    + destruct sp; cbn [app]; split; intros; discriminate.
    + split; intros; discriminate.
  - cbn [aligned] in Hal.
    rewrite mixed_current_weight_unfold, !mixed_weight_unfold.
    destruct (_set_up_probability self) as [[p|p]|e]; cbn [rbind];
      try (split; intros; discriminate).
    rewrite length_snoc, (transitions_step _ mp k (length sp) Hal),
      (outcomes_step p sp mp s k Hal).
    destruct (length sp) as [|m] eqn:En.
    + change (range2 1 0) with (@nil nat). cbn [comprehension Nat.ltb Nat.leb rbind].
      result_cases; split; intros; try discriminate;
        repeat match goal with H : Ok _ = Ok _ |- _ => inversion H; clear H; subst end;
        repeat eexists; rewrite ?prod_Q_snoc; cbn [prod_Q fold_right]; ring.
    + change (0 <? S m)%nat with true. cbv iota.
      result_cases; split; intros; try discriminate;
        repeat match goal with H : Ok _ = Ok _ |- _ => inversion H; clear H; subst end;
        repeat eexists; rewrite ?prod_Q_snoc; ring.
Qed.

(** *** Nodes of the scenario tree *)

Lemma indices_below_prefix (bounds idx : list nat) :
  indices_below (firstn (length idx) bounds) idx = true ->
  (length idx <= length bounds)%nat /\
  forall u, (u < length idx)%nat -> (nth u idx 0 < nth u bounds 0)%nat.
Proof.
  intros H. pose proof (indices_below_length _ _ H) as Hl.
  rewrite length_firstn in Hl.
  split; [lia|]. intros u Hu.
  pose proof (indices_below_nth _ _ u H) as Hn.
  rewrite length_firstn in Hn. specialize (Hn ltac:(lia)).
  rewrite nth_firstn in Hn.
  destruct (u <? length idx)%nat eqn:E; [exact Hn|].
  apply Nat.ltb_ge in E. lia.
Qed.

Lemma independent_ok_inv {RS} (self : MSLP RS) :
  independent_ok self = true ->
  n_Markov_states self = IntOne /\ length (models self) = T self /\
  forall t, (t < T self)%nat ->
            exists m, nth t (models self) (Copies []) = Single m /\
                      model_ok m = true.
Proof.
  unfold independent_ok.
  destruct (n_Markov_states self); [|discriminate].
  intros H. apply andb_true_iff in H as [Hlen Hall].
  apply Nat.eqb_eq in Hlen. rewrite forallb_forall in Hall.
  repeat split; [exact Hlen|].
  intros t Ht.
  assert (Hin : In (nth t (models self) (Copies [])) (models self))
    by (apply nth_In; lia).
  specialize (Hall _ Hin).
  destruct (nth t (models self) (Copies [])) as [m|]; [|discriminate].
  exists m. split; [reflexivity|exact Hall].
Qed.

Section Nodes.

Context {RS : Type}.
Variable self : MSLP RS.

Lemma independent_term_closed (sp : list nat) (t : nat) :
  independent_ok self = true ->
  (t < T self)%nat -> (t < length sp)%nat ->
  (nth t sp 0 < outcome_count (nth t (models self) (Copies [])))%nat ->
  (pt <- subscript (map (fun sm => nth 0 (stage_probabilities sm) [])
                        (models self)) t ;;
   s <- subscript sp t ;;
   subscript pt s)%result
  = Ok (nth (nth t sp 0%nat)
            (nth 0 (stage_probabilities (nth t (models self) (Copies []))) []) 0).
Proof.
  intros Hok Ht Hsp Hs.
  destruct (independent_ok_inv self Hok) as (_ & Hlen & Hall).
  destruct (Hall t Ht) as (m & Hm & Hmo).
  rewrite (subscript_nth _ _ []) by (rewrite length_map; lia). cbn [rbind].
  rewrite (subscript_nth _ _ 0%nat) by lia. cbn [rbind].
  rewrite (stage_table_nth (fun sm => nth 0 (stage_probabilities sm) []))
    by reflexivity.
  apply subscript_nth.
  rewrite Hm in *. cbn [stage_probabilities nth outcome_count] in *.
  rewrite (model_ok_length m Hmo). exact Hs.
Qed.

Lemma outcome_term_closed (ns sp mp : list nat) (t : nat) :
  chain_ok self = true ->
  n_Markov_states self = PerStage ns ->
  (t < T self)%nat -> (t < length sp)%nat -> (t < length mp)%nat ->
  (nth t mp 0 < nth t ns 0)%nat ->
  (nth t sp 0 < outcome_count (nth t (models self) (Copies [])))%nat ->
  outcome_term (map stage_probabilities (models self)) sp mp t
  = Ok (nth (nth t sp 0%nat)
            (nth (nth t mp 0%nat)
                 (stage_probabilities (nth t (models self) (Copies []))) []) 0).
Proof.
  intros Hok Hns Ht Hsp Hmp Hk Hs.
  destruct (chain_ok_inv self Hok) as (ns' & P0 & Ps & Hn & _ & HT & Hst & _).
  rewrite Hn in Hns. injection Hns as <-.
  pose proof (stages_ok_length _ _ Hst) as Hlen.
  pose proof (stages_ok_nth _ _ t Hst ltac:(lia)) as Hc.
  apply copies_ok_inv in Hc as (m0 & ms & Hsm & Hl & Hms).
  unfold outcome_term.
  rewrite (subscript_nth _ _ []) by (rewrite length_map; lia). cbn [rbind].
  rewrite (subscript_nth _ _ 0%nat) by lia. cbn [rbind].
  rewrite (stage_table_nth stage_probabilities) by reflexivity.
  rewrite Hsm in *. cbn [stage_probabilities outcome_count] in *.
  rewrite (subscript_nth _ _ []) by (rewrite length_map; lia). cbn [rbind].
  rewrite (subscript_nth _ _ 0%nat) by lia. cbn [rbind].
  apply subscript_nth.
  rewrite (nth_indep _ [] (probability_or_uniform m0))
    by (rewrite length_map; lia).
  rewrite (map_nth probability_or_uniform (m0 :: ms) m0).
  assert (Hin : In (nth (nth t mp 0%nat) (m0 :: ms) m0) (m0 :: ms))
    by (apply nth_In; lia).
  destruct (Hms _ Hin) as [Hmo Hcount].
  rewrite (model_ok_length _ Hmo), Hcount. exact Hs.
Qed.

Lemma transition_term_closed (ns mp : list nat) (u : nat) :
  chain_ok self = true ->
  n_Markov_states self = PerStage ns ->
  (S u < T self)%nat -> (S u < length mp)%nat ->
  (nth u mp 0 < nth u ns 0)%nat ->
  (nth (S u) mp 0 < nth (S u) ns 0)%nat ->
  transition_term (transition_matrix self) mp (S u)
  = Ok (nth (nth (S u) mp 0%nat)
            (nth (nth u mp 0%nat) (nth (S u) (transition_matrix self) []) []) 0).
Proof.
  intros Hok Hns Ht Hmp Ha Hb.
  destruct (chain_ok_inv self Hok) as (ns' & P0 & Ps & Hn & HTM & HT & _ & Htr).
  rewrite Hn in Hns. injection Hns as <-.
  pose proof (transitions_ok_length _ _ _ Htr) as HlenPs.
  cbn [length] in HT.
  pose proof (transitions_ok_nth 1 ns' Ps u Htr ltac:(lia)) as HM.
  apply matrix_ok_inv in HM as [HlenP Hrows].
  destruct (Hrows _ Ha) as [Hrow _].
  change (nth (S u) (1%nat :: ns') 0%nat) with (nth u ns' 0%nat) in Hb.
  unfold transition_term. rewrite HTM.
  rewrite (subscript_nth _ _ []) by (cbn [length]; lia). cbn [rbind nth].
  rewrite Nat.sub_succ, Nat.sub_0_r.
  rewrite (subscript_nth _ _ 0%nat) by lia. cbn [rbind].
  rewrite (subscript_nth _ _ []) by lia. cbn [rbind].
  rewrite (subscript_nth _ _ 0%nat) by lia. cbn [rbind].
  apply subscript_nth. lia.
Qed.

Lemma node_independent_inv (path : sample_path) :
  n_Markov_states self = IntOne ->
  node self path = true ->
  exists sp, path = Indep sp /\
    (length sp <= length (models self))%nat /\
    forall u, (u < length sp)%nat ->
      (nth u sp 0 < outcome_count (nth u (models self) (Copies [])))%nat.
Proof.
  intros Hn H. unfold node in H. rewrite Hn in H.
  destruct path as [sp|sp mp]; [|discriminate].
  exists sp. split; [reflexivity|].
  apply indices_below_prefix in H as [Hl Hall]. rewrite length_map in Hl.
  split; [exact Hl|]. intros u Hu. rewrite <- (outcome_count_nth (models self) u). apply Hall, Hu.
Qed.

Lemma node_chain_inv (ns : list nat) (path : sample_path) :
  n_Markov_states self = PerStage ns ->
  node self path = true ->
  (stage_of path <= length ns)%nat ->
  exists sp mp, path = Mixed sp mp /\ length mp = length sp /\
    (forall u, (u < length sp)%nat ->
       (nth u sp 0 < outcome_count (nth u (models self) (Copies [])))%nat) /\
    (forall u, (u < length sp)%nat -> (nth u mp 0 < nth u ns 0)%nat).
Proof.
  intros Hn H Hst. unfold node in H. rewrite Hn in H.
  destruct path as [sp|sp mp]; [discriminate|]. cbn [stage_of] in Hst.
  apply andb_true_iff in H as [H1 H2].
  exists sp, mp. split; [reflexivity|].
  pose proof (indices_below_length _ _ H2) as Hl2.
  rewrite length_firstn in Hl2.
  assert (Hlen : length mp = length sp) by lia.
  apply indices_below_prefix in H1 as [_ Hall1].
  rewrite <- Hlen in H2. apply indices_below_prefix in H2 as [_ Hall2].
  split; [exact Hlen|]. split.
  - intros u Hu. rewrite <- (outcome_count_nth (models self) u). apply Hall1, Hu.
  - intros u Hu. apply Hall2. lia.
Qed.

Lemma current_weight_of_child (path : sample_path) (s k : nat) :
  independent_ok self = true \/ chain_ok self = true ->
  node self path = true ->
  (stage_of path < T self)%nat ->
  In (s, k) (children self path) ->
  _compute_current_weight_sample_path self (child path s k)
  = Ok (step_probability self path s k).
Proof.
  intros [Hok|Hok] Hnode Ht Hin.
  - destruct (independent_ok_inv self Hok) as (Hn & Hlen & _).
    destruct (node_independent_inv path Hn Hnode) as (sp & -> & _ & _).
    cbn [stage_of child] in *. unfold children in Hin. rewrite Hn in Hin.
    apply in_map_iff in Hin as (s' & Heq & Hs). injection Heq as Hs1 Hk1; subst s' k.
    apply range_In in Hs. cbn [stage_of] in Hs.
    unfold _compute_current_weight_sample_path.
    rewrite (set_up_probability_independent self Hok). cbn [rbind].
    rewrite length_snoc.
    rewrite independent_term_closed; try assumption.
    + rewrite nth_middle. reflexivity.
    + rewrite length_snoc. lia.
    + rewrite nth_middle. exact Hs.
  - destruct (chain_ok_inv self Hok) as (ns' & P0 & Ps & Hn & HTM & HT & _ & _).
    destruct (node_chain_inv (1%nat :: ns') path Hn Hnode ltac:(lia))
      as (sp & mp & -> & Hlen & Hsp & Hmp).
    cbn [stage_of child] in *. unfold children in Hin. rewrite Hn in Hin.
    cbn [stage_of] in Hin.
    apply in_prod_iff in Hin as [Hs Hk]. apply range_In in Hs, Hk.
    rewrite mixed_current_weight_unfold.
    rewrite (set_up_probability_chain self Hok). cbn [rbind].
    rewrite (outcome_term_closed (1%nat :: ns')); try assumption;
      rewrite ?length_snoc, <- ?Hlen, ?nth_middle, ?Hlen, ?nth_middle;
      try lia; try assumption.
    unfold step_probability. cbn [stage_of].
    destruct (length sp) as [|u] eqn:Eu.
    + reflexivity.
    + change (0 <? S u)%nat with true. cbv iota.
      rewrite (transition_term_closed (1%nat :: ns')); try assumption;
        rewrite ?length_snoc, ?Hlen; try lia.
      * cbn [rbind]. rewrite <- Hlen, nth_middle.
        rewrite app_nth1 by lia. reflexivity.
      * rewrite app_nth1 by lia. apply Hmp. lia.
      * rewrite <- Hlen, nth_middle, Hlen. exact Hk.
Qed.

Lemma step_probabilities_total (path : sample_path) :
  independent_ok self = true \/ chain_ok self = true ->
  node self path = true ->
  (stage_of path < T self)%nat ->
  sum_Q (map (fun sk => step_probability self path (fst sk) (snd sk))
             (children self path)) == 1.
Proof.
  intros [Hok|Hok] Hnode Ht.
  - destruct (independent_ok_inv self Hok) as (Hn & Hlen & Hall).
    destruct (node_independent_inv path Hn Hnode) as (sp & -> & _ & _).
    cbn [stage_of] in Ht. destruct (Hall _ Ht) as (m & Hm & Hmo).
    unfold children, step_probability. rewrite Hn. cbn [stage_of].
    rewrite map_map. cbn [fst snd]. rewrite Hm.
    cbn [outcome_count stage_probabilities nth].
    rewrite <- (model_ok_length m Hmo), sum_Q_nth_range.
    apply model_ok_sum, Hmo.
  - destruct (chain_ok_inv self Hok) as (ns' & P0 & Ps & Hn & HTM & HT & Hst & Htr).
    destruct (node_chain_inv (1%nat :: ns') path Hn Hnode ltac:(lia))
      as (sp & mp & -> & Hlen & Hsp & Hmp).
    cbn [stage_of] in Ht.
    pose proof (stages_ok_nth _ _ (length sp) Hst ltac:(lia)) as Hc.
    apply copies_ok_inv in Hc as (m0 & ms & Hsm & Hl & Hms).
    unfold children, step_probability. rewrite Hn. cbn [stage_of].
    rewrite Hsm. cbn [outcome_count stage_probabilities].
    rewrite sum_Q_list_prod. cbn [fst snd]. rewrite sum_Q_swap.
    assert (Hrows : forall k, (k < nth (length sp) (1%nat :: ns') 0)%nat ->
              sum_Q (map (fun s => nth s (nth k (map probability_or_uniform
                                                     (m0 :: ms)) []) 0)
                         (range (n_samples m0))) == 1).
    { intros k Hk.
      rewrite (nth_indep _ [] (probability_or_uniform m0))
        by (rewrite length_map; lia).
      rewrite (map_nth probability_or_uniform (m0 :: ms) m0).
      assert (Hin : In (nth k (m0 :: ms) m0) (m0 :: ms)) by (apply nth_In; lia).
      destruct (Hms _ Hin) as [Hmo Hcount].
      rewrite <- Hcount, <- (model_ok_length _ Hmo), sum_Q_nth_range.
      apply model_ok_sum, Hmo. }
    destruct (length sp) as [|u] eqn:Eu.
    + cbn [nth range seq map sum_Q fold_right].
      rewrite sum_Q_scale, (Hrows 0%nat) by (cbn [nth]; lia). ring.
    + pose proof (transitions_ok_length _ _ _ Htr) as HlenPs.
      cbn [length] in HT.
      pose proof (transitions_ok_nth 1 ns' Ps u Htr ltac:(lia)) as HM.
      apply matrix_ok_inv in HM as [_ HMrows].
      destruct (HMrows _ (Hmp u ltac:(lia))) as [Hrow Hrow1].
      rewrite HTM. cbn [nth] in *.
      rewrite (sum_Q_ext _ (fun k => nth k (nth (nth u mp 0%nat) (nth u Ps []) []) 0)).
      * rewrite <- Hrow, sum_Q_nth_range. exact Hrow1.
      * intros k Hk. apply range_In in Hk.
        rewrite sum_Q_scale, (Hrows k Hk). ring.
Qed.

Lemma weight_of_node (path : sample_path) :
  independent_ok self = true \/ chain_ok self = true ->
  node self path = true ->
  (stage_of path <= T self)%nat ->
  exists w, _compute_weight_sample_path self path = Ok w.
Proof.
  intros [Hok|Hok] Hnode Ht.
  - destruct (independent_ok_inv self Hok) as (Hn & Hlen & _).
    destruct (node_independent_inv path Hn Hnode) as (sp & -> & _ & Hsp).
    cbn [stage_of] in Ht.
    unfold _compute_weight_sample_path.
    rewrite (set_up_probability_independent self Hok). cbn [rbind].
    erewrite comprehension_map.
    + cbn [rbind]. eexists. reflexivity.
    + intros t Hin. apply range_In in Hin.
      apply independent_term_closed; try assumption; try lia. apply Hsp, Hin.
  - destruct (chain_ok_inv self Hok) as (ns' & P0 & Ps & Hn & HTM & HT & _ & _).
    destruct (node_chain_inv (1%nat :: ns') path Hn Hnode ltac:(lia))
      as (sp & mp & -> & Hlen & Hsp & Hmp).
    cbn [stage_of] in Ht.
    rewrite mixed_weight_unfold.
    rewrite (set_up_probability_chain self Hok). cbn [rbind].
    erewrite (comprehension_map (transition_term _ _)
                (fun t => nth (nth t mp 0%nat)
                              (nth (nth (t - 1) mp 0%nat)
                                   (nth t (transition_matrix self) []) []) 0)).
    + cbn [rbind]. erewrite comprehension_map.
      * cbn [rbind]. eexists. reflexivity.
      * intros t Hin. apply range_In in Hin.
        apply (outcome_term_closed (1%nat :: ns')); try assumption; try lia.
        -- apply Hmp, Hin.
        -- apply Hsp, Hin.
    + intros t Hin. unfold range2 in Hin. apply in_seq in Hin.
      destruct t as [|u]; [lia|].
      rewrite Nat.sub_succ, Nat.sub_0_r.
      apply (transition_term_closed (1%nat :: ns')); try assumption; try lia.
      * apply Hmp. lia.
      * apply Hmp. lia.
Qed.

End Nodes.

Lemma node_aligned {RS} (self : MSLP RS) (path : sample_path) :
  independent_ok self = true \/ chain_ok self = true ->
  node self path = true ->
  (stage_of path <= T self)%nat ->
  aligned path.
Proof.
  intros [Hok|Hok] Hnode Ht.
  - destruct (independent_ok_inv self Hok) as (Hn & _ & _).
    destruct (node_independent_inv self path Hn Hnode) as (sp & -> & _).
    exact I.
  - destruct (chain_ok_inv self Hok) as (ns' & P0 & Ps & Hn & _ & HT & _ & _).
    destruct (node_chain_inv self (1%nat :: ns') path Hn Hnode ltac:(lia))
      as (sp & mp & -> & Hlen & _).
    exact Hlen.
Qed.

(** X1.  The weight of a path is the weight of the path without its last
    stage times the conditional weight of that stage: whenever the two
    factors are computed the weight of the longer path is their product,
    and whenever the weight of the longer path is computed so are the
    two factors.  (In the Markov chain case the two tuples of the path
    have one entry per stage.) *)
Theorem weight_extends_by_current_weight :
  forall (RS : Type) (self : MSLP RS) (path : sample_path) (s k : nat),
    aligned path ->
    (forall w' c,
        _compute_weight_sample_path self path = Ok w' ->
        _compute_current_weight_sample_path self (child path s k) = Ok c ->
        exists w, _compute_weight_sample_path self (child path s k) = Ok w /\
                  w == w' * c) /\
    (forall w,
        _compute_weight_sample_path self (child path s k) = Ok w ->
        exists w' c,
          _compute_weight_sample_path self path = Ok w' /\
          _compute_current_weight_sample_path self (child path s k) = Ok c /\
          w == w' * c).
Proof. intros RS self path s k. apply weight_of_child. Qed.

Lemma weight_extends_by_current_weight_witness :
  aligned (Mixed [0; 0]%nat [0; 1]%nat) /\
  ((forall w' c,
       _compute_weight_sample_path (examples.chain3 None)
         (Mixed [0; 0]%nat [0; 1]%nat) = Ok w' ->
       _compute_current_weight_sample_path (examples.chain3 None)
         (child (Mixed [0; 0]%nat [0; 1]%nat) 0 0) = Ok c ->
       exists w, _compute_weight_sample_path (examples.chain3 None)
                   (child (Mixed [0; 0]%nat [0; 1]%nat) 0 0) = Ok w /\
                 w == w' * c) /\
   (forall w,
       _compute_weight_sample_path (examples.chain3 None)
         (child (Mixed [0; 0]%nat [0; 1]%nat) 0 0) = Ok w ->
       exists w' c,
         _compute_weight_sample_path (examples.chain3 None)
           (Mixed [0; 0]%nat [0; 1]%nat) = Ok w' /\
         _compute_current_weight_sample_path (examples.chain3 None)
           (child (Mixed [0; 0]%nat [0; 1]%nat) 0 0) = Ok c /\
         w == w' * c)).
Proof.
  split; [reflexivity|].
  exact (weight_extends_by_current_weight _ (examples.chain3 None)
           (Mixed [0; 0]%nat [0; 1]%nat) 0%nat 0%nat eq_refl).
Defined.

(** X2.  In a configured program the conditional weights of the
    continuations of a path by one stage are all computed and sum to
    one: over the outcomes of the next stage for a stage-wise independent
    process, over its outcomes and Markov states for a Markov chain. *)
Theorem current_weights_of_children_sum_to_one :
  forall (RS : Type) (self : MSLP RS) (path : sample_path),
    independent_ok self = true \/ chain_ok self = true ->
    node self path = true ->
    (stage_of path < T self)%nat ->
    exists cs,
      comprehension
        (fun sk => _compute_current_weight_sample_path self
                     (child path (fst sk) (snd sk)))
        (children self path) = Ok cs /\
      sum_Q cs == 1.
Proof.
  intros RS self path Hok Hnode Ht.
  exists (map (fun sk => step_probability self path (fst sk) (snd sk))
              (children self path)).
  split.
  - apply comprehension_map. intros [s k] Hin.
    apply current_weight_of_child; assumption.
  - apply step_probabilities_total; assumption.
Qed.

Lemma current_weights_of_children_sum_to_one_witness :
  (independent_ok (examples.chain3 None) = true
   \/ chain_ok (examples.chain3 None) = true) /\
  node (examples.chain3 None) (Mixed [0; 0]%nat [0; 1]%nat) = true /\
  (stage_of (Mixed [0; 0]%nat [0; 1]%nat) < T (examples.chain3 None))%nat /\
  exists cs,
    comprehension
      (fun sk => _compute_current_weight_sample_path (examples.chain3 None)
                   (child (Mixed [0; 0]%nat [0; 1]%nat) (fst sk) (snd sk)))
      (children (examples.chain3 None) (Mixed [0; 0]%nat [0; 1]%nat)) = Ok cs /\
    sum_Q cs == 1.
Proof.
  split; [right; reflexivity|].
  split; [reflexivity|].
  split; [simpl; lia|].
  apply (current_weights_of_children_sum_to_one _ (examples.chain3 None)
           (Mixed [0; 0]%nat [0; 1]%nat)).
  - right. reflexivity.
  - reflexivity.
  - simpl. lia.
Defined.

(** X3.  In a configured program the weight of every path through the
    first stages is computed, and the weights of its continuations by
    one stage sum to it. *)
Theorem weights_of_children_sum_to_weight_of_node :
  forall (RS : Type) (self : MSLP RS) (path : sample_path),
    independent_ok self = true \/ chain_ok self = true ->
    node self path = true ->
    (stage_of path < T self)%nat ->
    exists w ws,
      _compute_weight_sample_path self path = Ok w /\
      comprehension
        (fun sk => _compute_weight_sample_path self
                     (child path (fst sk) (snd sk)))
        (children self path) = Ok ws /\
      sum_Q ws == w.
Proof.
  intros RS self path Hok Hnode Ht.
  destruct (weight_of_node self path Hok Hnode ltac:(lia)) as [w Hw].
  pose proof (node_aligned self path Hok Hnode ltac:(lia)) as Hal.
  destruct (comprehension_Forall2
              (fun sk => _compute_weight_sample_path self
                           (child path (fst sk) (snd sk)))
              (fun sk y => y == w * step_probability self path (fst sk) (snd sk))
              (children self path)) as (ws & Hws & Hall).
  - intros [s k] Hin. cbn [fst snd].
    destruct (weight_of_child self path s k Hal) as [Hstep _].
    apply (Hstep w _ Hw).
    apply current_weight_of_child; assumption.
  - exists w, ws. split; [exact Hw|]. split; [exact Hws|].
    rewrite (sum_Q_Forall2 _ _ _ Hall), sum_Q_scale.
    rewrite (step_probabilities_total self path Hok Hnode Ht). ring.
Qed.

Lemma weights_of_children_sum_to_weight_of_node_witness :
  (independent_ok (examples.independent3 None) = true
   \/ chain_ok (examples.independent3 None) = true) /\
  node (examples.independent3 None) (Indep [0; 1]%nat) = true /\
  (stage_of (Indep [0; 1]%nat) < T (examples.independent3 None))%nat /\
  exists w ws,
    _compute_weight_sample_path (examples.independent3 None) (Indep [0; 1]%nat)
    = Ok w /\
    comprehension
      (fun sk => _compute_weight_sample_path (examples.independent3 None)
                   (child (Indep [0; 1]%nat) (fst sk) (snd sk)))
      (children (examples.independent3 None) (Indep [0; 1]%nat)) = Ok ws /\
    sum_Q ws == w.
Proof.
  split; [left; reflexivity|].
  split; [reflexivity|].
  split; [simpl; lia|].
  apply (weights_of_children_sum_to_weight_of_node _
           (examples.independent3 None) (Indep [0; 1]%nat)).
  - left. reflexivity.
  - reflexivity.
  - simpl. lia.
Defined.

(** *** Enumeration up to a stage *)

Lemma map_nth_range_firstn {A B} (g : A -> B) (l : list A) (d : A) (n : nat) :
  (n <= length l)%nat ->
  map (fun i => g (nth i l d)) (range n) = firstn n (map g l).
Proof.
  intros H. rewrite firstn_map.
  rewrite <- (map_nth_range g (firstn n l) d).
  rewrite length_firstn, Nat.min_l by exact H.
  apply map_ext_in. intros i Hi. apply range_In in Hi.
  rewrite nth_firstn.
  destruct (i <? n)%nat eqn:E; [reflexivity|].
  apply Nat.ltb_ge in E. lia.
Qed.

Lemma range_Z_succ (t : nat) : range_Z (Z.of_nat t + 1) = range (S t).
Proof. unfold range_Z. f_equal. lia. Qed.

Lemma prod_nat_app (l1 l2 : list nat) :
  prod_nat (l1 ++ l2) = (prod_nat l1 * prod_nat l2)%nat.
Proof.
  induction l1 as [|x xs IH]; simpl; [lia|]. rewrite IH. lia.
Qed.

Lemma prod_nat_firstn_skipn (n : nat) (l : list nat) :
  prod_nat l = (prod_nat (firstn n l) * prod_nat (skipn n l))%nat.
Proof. rewrite <- prod_nat_app, firstn_skipn. reflexivity. Qed.

Section Enumeration.

Context {RS : Type}.
Variable self : MSLP RS.

Lemma enumerate_independent_upto (t : nat) :
  independent_ok self = true ->
  (t < T self)%nat ->
  _enumerate_sample_paths self (Z.of_nat t)
  = Ok (prod_nat (firstn (S t) (map outcome_count (models self))),
        map Indep
            (product (map range (firstn (S t) (map outcome_count (models self)))))).
Proof.
  intros Hok Ht.
  destruct (independent_ok_inv self Hok) as (Hn & Hlen & Hall).
  unfold _enumerate_sample_paths. rewrite Hn, range_Z_succ.
  rewrite (comprehension_map _
             (fun i => outcome_count (nth i (models self) (Copies [])))).
  - cbn [rbind].
    rewrite (map_nth_range_firstn outcome_count) by lia. reflexivity.
  - intros i Hi. apply range_In in Hi.
    rewrite (subscript_nth _ _ (Copies [])) by lia. cbn [rbind].
    destruct (Hall i ltac:(lia)) as (m & -> & _). reflexivity.
Qed.

Lemma enumerate_chain_upto (ns : list nat) (t : nat) :
  chain_ok self = true ->
  n_Markov_states self = PerStage ns ->
  (t < T self)%nat ->
  _enumerate_sample_paths self (Z.of_nat t)
  = Ok ((prod_nat ns
         * prod_nat (firstn (S t) (map outcome_count (models self))))%nat,
        map (fun p => Mixed (fst p) (snd p))
            (list_prod
               (product (map range
                             (firstn (S t) (map outcome_count (models self)))))
               (product (map range (firstn (S t) ns))))).
Proof.
  intros Hok Hns Ht.
  destruct (chain_ok_inv self Hok) as (ns' & P0 & Ps & Hn & _ & HT & Hst & _).
  rewrite Hns in Hn. injection Hn as ->.
  pose proof (stages_ok_length _ _ Hst) as Hlen.
  unfold _enumerate_sample_paths. rewrite Hns, range_Z_succ.
  rewrite (comprehension_map _
             (fun i => outcome_count (nth i (models self) (Copies [])))).
  - cbn [rbind].
    rewrite (comprehension_map _ (fun i => nth i (1%nat :: ns') 0%nat)).
    + cbn [rbind].
      rewrite (map_nth_range_firstn (fun x => x)), map_id by lia.
      rewrite (map_nth_range_firstn outcome_count) by lia. reflexivity.
    + intros i Hi. apply range_In in Hi. apply subscript_nth. lia.
  - intros i Hi. apply range_In in Hi.
    rewrite (subscript_nth _ _ (Copies [])) by lia. cbn [rbind].
    pose proof (stages_ok_nth _ _ i Hst ltac:(lia)) as Hc.
    apply copies_ok_inv in Hc as (m0 & ms & Hsm & _ & _).
    rewrite Hsm. reflexivity.
Qed.

Lemma indices_below_firstn_iff (bounds idx : list nat) (n : nat) :
  (n <= length bounds)%nat ->
  indices_below (firstn n bounds) idx = true <->
  indices_below (firstn (length idx) bounds) idx = true /\ length idx = n.
Proof.
  intros Hn. split.
  - intros H. pose proof (indices_below_length _ _ H) as Hl.
    rewrite length_firstn, Nat.min_l in Hl by exact Hn.
    rewrite Hl. split; [exact H|reflexivity].
  - intros [H <-]. exact H.
Qed.

Lemma In_map_Indep (sp : list nat) (l : list (list nat)) :
  In (Indep sp) (map Indep l) <-> In sp l.
Proof.
  rewrite in_map_iff. split.
  - intros (x & Hx & Hin). injection Hx as ->. exact Hin.
  - intros H. exists sp. split; [reflexivity|exact H].
Qed.

Lemma In_map_Mixed (sp mp : list nat) (l : list (list nat * list nat)) :
  In (Mixed sp mp) (map (fun p => Mixed (fst p) (snd p)) l) <-> In (sp, mp) l.
Proof.
  rewrite in_map_iff. split.
  - intros ([x y] & Hx & Hin). cbn [fst snd] in Hx. injection Hx as -> ->.
    exact Hin.
  - intros H. exists (sp, mp). split; [reflexivity|exact H].
Qed.

Lemma NoDup_map_Indep (l : list (list nat)) : NoDup l -> NoDup (map Indep l).
Proof.
  apply Injective_map_NoDup. intros a b H. injection H as ->. reflexivity.
Qed.

Lemma NoDup_map_Mixed (l : list (list nat * list nat)) :
  NoDup l -> NoDup (map (fun p => Mixed (fst p) (snd p)) l).
Proof.
  apply Injective_map_NoDup. intros [a b] [c d] H. cbn [fst snd] in H.
  injection H as -> ->. reflexivity.
Qed.

End Enumeration.

(** X4.  Enumerating the sample paths of a configured program up to a
    stage [t] below the horizon returns, without repetition, exactly the
    paths through the stages [0..t] whose indices exist.  The count
    returned with them is, as long as that number is below 2^63 (the
    range of the 64-bit integers in which the count is computed), their
    number for a stage-wise independent process; for a Markov chain it
    is their number times the numbers of Markov states of all the stages
    after [t], since the count multiplies the Markov-state counts of
    every stage of the program. *)
Theorem enumeration_up_to_a_stage :
  forall (RS : Type) (self : MSLP RS) (t : nat),
    independent_ok self = true \/ chain_ok self = true ->
    (t < T self)%nat ->
    exists n paths,
      _enumerate_sample_paths self (Z.of_nat t) = Ok (n, paths) /\
      (forall path,
          In path paths <-> node self path = true /\ stage_of path = S t) /\
      NoDup paths /\
      let later := match n_Markov_states self with
                   | IntOne => 1%nat
                   | PerStage ns => prod_nat (skipn (S t) ns)
                   end in
      ((Z.of_nat (length paths * later) < 2 ^ 63)%Z ->
       n = (length paths * later)%nat).
Proof.
  intros RS self t [Hok|Hok] Ht.
  - destruct (independent_ok_inv self Hok) as (Hn & Hlen & _).
    eexists _, _. split; [apply enumerate_independent_upto; assumption|].
    assert (Hb : (S t <= length (map outcome_count (models self)))%nat)
      by (rewrite length_map; lia).
    split; [|split].
    + intros [sp|sp mp]; unfold node; rewrite Hn; cbn [stage_of].
      * rewrite In_map_Indep, product_In, <- indices_below_iff.
        apply indices_below_firstn_iff. exact Hb.
      * split; [|intros [H _]; discriminate].
        intros H. apply in_map_iff in H as (x & Hx & _). discriminate.
    + apply NoDup_map_Indep, product_NoDup, ranges_NoDup.
    + intros later _. unfold later.
      rewrite Hn, length_map, product_length, prod_nat_range_lengths. lia.
  - destruct (chain_ok_inv self Hok) as (ns' & P0 & Ps & Hn & _ & HT & Hst & _).
    pose proof (stages_ok_length _ _ Hst) as Hlen.
    eexists _, _.
    split; [apply (enumerate_chain_upto self (1%nat :: ns')); assumption|].
    assert (Hb : (S t <= length (map outcome_count (models self)))%nat)
      by (rewrite length_map; lia).
    assert (Hb' : (S t <= length (1%nat :: ns'))%nat) by lia.
    split; [|split].
    + intros [sp|sp mp]; unfold node; rewrite Hn; cbn [stage_of].
      * split; [|intros [H _]; discriminate].
        intros H. apply in_map_iff in H as (x & Hx & _). discriminate.
      * rewrite In_map_Mixed, in_prod_iff, !product_In, <- !indices_below_iff.
        rewrite andb_true_iff.
        rewrite (indices_below_firstn_iff _ sp (S t) Hb).
        split.
        -- intros [[H1 H2] H3]. rewrite <- H2 in H3. repeat split; assumption.
        -- intros [[H1 H2] H3]. rewrite H3 in H2. repeat split; assumption.
    + apply NoDup_map_Mixed, list_prod_NoDup; apply product_NoDup, ranges_NoDup.
    + intros later _. unfold later.
      rewrite Hn, length_map, length_prod, !product_length,
        !prod_nat_range_lengths.
      rewrite (prod_nat_firstn_skipn (S t) (1%nat :: ns')) at 1. lia.
Qed.

Lemma enumeration_up_to_a_stage_witness :
  (independent_ok (examples.chain3 None) = true
   \/ chain_ok (examples.chain3 None) = true) /\
  (1 < T (examples.chain3 None))%nat /\
  exists n paths,
    _enumerate_sample_paths (examples.chain3 None) (Z.of_nat 1) = Ok (n, paths) /\
    (forall path,
        In path paths <->
        node (examples.chain3 None) path = true /\ stage_of path = 2%nat) /\
    NoDup paths /\
    (Z.of_nat (length paths * 2) < 2 ^ 63)%Z /\
    n = (length paths * 2)%nat.
Proof.
  split; [right; reflexivity|].
  split; [simpl; lia|].
  destruct (enumeration_up_to_a_stage _ (examples.chain3 None) 1%nat
              (or_intror eq_refl) ltac:(simpl; lia))
    as (n & paths & Hrun & Hin & Hnodup & Hcount).
  exists n, paths.
  split; [exact Hrun|]. split; [exact Hin|]. split; [exact Hnodup|].
  assert (Hlen : length paths = 2%nat).
  { vm_compute in Hrun. injection Hrun as _ <-. reflexivity. }
  assert (Hbound : (Z.of_nat (length paths * 2) < 2 ^ 63)%Z)
    by (rewrite Hlen; vm_compute; reflexivity).
  split; [exact Hbound|]. exact (Hcount Hbound).
Defined.

Lemma comprehension_first_failure {A B} (f : A -> result B) (l1 l2 : list A)
    (x : A) (e : exn) :
  (forall y, In y l1 -> exists b, f y = Ok b) ->
  f x = Raise e ->
  comprehension f (l1 ++ x :: l2) = Raise e.
Proof.
  intros Hl1 Hx. induction l1 as [|y ys IH]; simpl.
  - rewrite Hx. reflexivity.
  - destruct (Hl1 y (or_introl eq_refl)) as [b ->]. cbn [rbind].
    rewrite IH; [reflexivity|].
    intros z Hz. apply Hl1. right. exact Hz.
Qed.

Lemma range_split (n m : nat) :
  (n < m)%nat -> range m = range n ++ n :: seq (S n) (m - S n).
Proof.
  intros H. unfold range.
  replace m with (n + S (m - S n))%nat at 1 by lia.
  rewrite seq_app. reflexivity.
Qed.

(** X5.  Enumerating the sample paths of a configured program up to a
    stage that the program does not have raises [IndexError]: the list of
    stage models is subscripted past its end. *)
Theorem enumeration_beyond_the_last_stage_raises :
  forall (RS : Type) (self : MSLP RS) (t : nat),
    independent_ok self = true \/ chain_ok self = true ->
    (T self <= t)%nat ->
    _enumerate_sample_paths self (Z.of_nat t) = Raise IndexError.
Proof.
  intros RS self t Hok Ht.
  assert (Hlen : length (models self) = T self).
  { destruct Hok as [Hok|Hok].
    - apply (independent_ok_inv self Hok).
    - destruct (chain_ok_inv self Hok) as (ns' & P0 & Ps & _ & _ & HT & Hst & _).
      rewrite (stages_ok_length _ _ Hst). exact HT. }
  assert (Hfail : subscript (models self) (T self) = Raise IndexError).
  { unfold subscript.
    rewrite (proj2 (nth_error_None (models self) (T self))) by lia.
    reflexivity. }
  unfold _enumerate_sample_paths. rewrite range_Z_succ.
  rewrite (range_split (T self) (S t)) by lia.
  destruct Hok as [Hok|Hok].
  - destruct (independent_ok_inv self Hok) as (Hn & _ & Hall). rewrite Hn.
    rewrite (comprehension_first_failure _ _ _ _ IndexError); [reflexivity| |].
    + intros i Hi. apply range_In in Hi.
      rewrite (subscript_nth _ _ (Copies [])) by lia. cbn [rbind].
      destruct (Hall i Hi) as (m & -> & _). eexists. reflexivity.
    + rewrite Hfail. reflexivity.
  - destruct (chain_ok_inv self Hok) as (ns' & P0 & Ps & Hn & _ & HT & Hst & _).
    rewrite Hn.
    rewrite (comprehension_first_failure _ _ _ _ IndexError); [reflexivity| |].
    + intros i Hi. apply range_In in Hi.
      rewrite (subscript_nth _ _ (Copies [])) by lia. cbn [rbind].
      pose proof (stages_ok_nth _ _ i Hst ltac:(lia)) as Hc.
      apply copies_ok_inv in Hc as (m0 & ms & Hsm & _ & _).
      rewrite Hsm. eexists. reflexivity.
    + rewrite Hfail. reflexivity.
Qed.

Lemma enumeration_beyond_the_last_stage_raises_witness :
  (independent_ok (examples.independent3 None) = true
   \/ chain_ok (examples.independent3 None) = true) /\
  (T (examples.independent3 None) <= 3)%nat /\
  _enumerate_sample_paths (examples.independent3 None) (Z.of_nat 3)
  = Raise IndexError.
Proof.
  split; [left; reflexivity|].
  split; [simpl; lia|].
  apply (enumeration_beyond_the_last_stage_raises _
           (examples.independent3 None) 3%nat).
  - left. reflexivity.
  - simpl. lia.
Defined.

Lemma Forall2_map_same {A B} (R : A -> B -> Prop) (f : A -> B) (l : list A) :
  (forall x, In x l -> R x (f x)) -> Forall2 R l (map f l).
Proof.
  induction l as [|x xs IH]; intros H; simpl; constructor.
  - apply H. left. reflexivity.
  - apply IH. intros y Hy. apply H. right. exact Hy.
Qed.

Lemma Forall2_map_right {A B D} (R : A -> D -> Prop) (f : B -> D)
    (l : list A) (l' : list B) :
  Forall2 (fun a b => R a (f b)) l l' -> Forall2 R l (map f l').
Proof. induction 1; simpl; constructor; assumption. Qed.

Lemma Forall2_In_right {A B} (R : A -> B -> Prop) (l : list A) (l' : list B)
    (b : B) :
  Forall2 R l l' -> In b l' -> exists a, In a l /\ R a b.
Proof.
  induction 1 as [|x y xs ys Hxy _ IH]; intros Hin; [contradiction|].
  destruct Hin as [->|Hin].
  - exists x. split; [left; reflexivity|exact Hxy].
  - destruct (IH Hin) as (a & Ha & HR). exists a. split; [right|]; assumption.
Qed.

Lemma stages_ok_Forall2 (ns : list nat) (ms : list stage_models) :
  stages_ok ns ms = true -> Forall2 (fun n sm => copies_ok n sm = true) ns ms.
Proof.
  revert ms. induction ns as [|n ns IH]; intros [|sm ms] H; simpl in H;
    try discriminate; constructor.
  - apply andb_true_iff in H as [H _]. exact H.
  - apply IH. apply andb_true_iff in H as [_ H]. exact H.
Qed.

Lemma copies_ok_measures (n : nat) (sm : stage_models) :
  copies_ok n sm = true ->
  length (stage_probabilities sm) = n /\
  Forall (fun row => length row = outcome_count sm /\ sum_Q row == 1)
         (stage_probabilities sm).
Proof.
  intros H. apply copies_ok_inv in H as (m0 & ms & -> & Hl & Hms).
  cbn [stage_probabilities outcome_count]. split.
  - rewrite length_map. exact Hl.
  - apply Forall_map, Forall_forall. intros m Hm.
    destruct (Hms m Hm) as [Hmo Hcount].
    rewrite (model_ok_length m Hmo). split; [exact Hcount|].
    apply model_ok_sum, Hmo.
Qed.

(** X6.  For a configured program [_set_up_probability] returns one entry
    per stage, and every measure in it has one probability per outcome
    of its stage and sums to one, whether it was given or is the uniform
    default; in the Markov chain case a stage has one measure per Markov
    state. *)
Theorem probability_table_is_normalized :
  forall (RS : Type) (self : MSLP RS),
    independent_ok self = true \/ chain_ok self = true ->
    match _set_up_probability self with
    | Ok (ProbIndep p) =>
        n_Markov_states self = IntOne /\
        Forall2 (fun sm row => length row = outcome_count sm /\ sum_Q row == 1)
                (models self) p
    | Ok (ProbMixed p) =>
        exists ns,
          n_Markov_states self = PerStage ns /\
          Forall2 (fun n rows => length rows = n) ns p /\
          Forall2 (fun sm rows =>
                     Forall (fun row => length row = outcome_count sm /\
                                        sum_Q row == 1) rows)
                  (models self) p
    | Raise _ => False
    end.
Proof.
  intros RS self [Hok|Hok].
  - rewrite (set_up_probability_independent self Hok).
    unfold independent_ok in Hok.
    destruct (n_Markov_states self); [|discriminate].
    apply andb_true_iff in Hok as [_ Hall]. rewrite forallb_forall in Hall.
    split; [reflexivity|].
    apply Forall2_map_same. intros [m|ms] Hin; specialize (Hall _ Hin);
      [|discriminate].
    cbn [single_ok] in Hall.
    cbn [stage_probabilities nth outcome_count].
    split; [apply model_ok_length|apply model_ok_sum]; exact Hall.
  - rewrite (set_up_probability_chain self Hok).
    destruct (chain_ok_inv self Hok) as (ns' & P0 & Ps & Hn & _ & _ & Hst & _).
    exists (1%nat :: ns'). split; [exact Hn|].
    apply stages_ok_Forall2 in Hst. split.
    + apply Forall2_map_right.
      apply (Forall2_impl _ (fun n sm H => proj1 (copies_ok_measures n sm H)) Hst).
    + apply Forall2_map_same. intros sm Hin.
      destruct (Forall2_In_right _ _ _ _ Hst Hin) as (n & _ & Hc).
      apply (copies_ok_measures n sm Hc).
Qed.

Lemma probability_table_is_normalized_witness :
  (independent_ok (examples.independent3 None) = true
   \/ chain_ok (examples.independent3 None) = true) /\
  match _set_up_probability (examples.independent3 None) with
  | Ok (ProbIndep p) =>
      n_Markov_states (examples.independent3 None) = IntOne /\
      Forall2 (fun sm row => length row = outcome_count sm /\ sum_Q row == 1)
              (models (examples.independent3 None)) p
  | Ok (ProbMixed p) =>
      exists ns,
        n_Markov_states (examples.independent3 None) = PerStage ns /\
        Forall2 (fun n rows => length rows = n) ns p /\
        Forall2 (fun sm rows =>
                   Forall (fun row => length row = outcome_count sm /\
                                      sum_Q row == 1) rows)
                (models (examples.independent3 None)) p
  | Raise _ => False
  end.
Proof.
  split; [left; reflexivity|].
  apply (probability_table_is_normalized _ (examples.independent3 None)).
  left. reflexivity.
Defined.

(** *** The order of the enumeration *)

Lemma StronglySorted_app {A} (R : A -> A -> Prop) (l1 l2 : list A) :
  StronglySorted R l1 -> StronglySorted R l2 ->
  (forall a b, In a l1 -> In b l2 -> R a b) ->
  StronglySorted R (l1 ++ l2).
Proof.
  induction l1 as [|x xs IH]; intros H1 H2 H; simpl; [exact H2|].
  inversion H1 as [|? ? Hxs Hx]; subst. constructor.
  - apply IH; [exact Hxs|exact H2|]. intros a b Ha Hb. apply H; [right|]; assumption.
  - apply Forall_app. split; [exact Hx|].
    apply Forall_forall. intros b Hb. apply H; [left; reflexivity|exact Hb].
Qed.

Lemma StronglySorted_map {A B} (R : A -> A -> Prop) (R' : B -> B -> Prop)
    (f : A -> B) (l : list A) :
  (forall a b, R a b -> R' (f a) (f b)) ->
  StronglySorted R l -> StronglySorted R' (map f l).
Proof.
  intros Hf. induction 1 as [|x xs _ IH Hx]; simpl; constructor.
  - exact IH.
  - apply Forall_map. apply (Forall_impl _ (fun b => Hf x b) Hx).
Qed.

Lemma StronglySorted_flat_map {A B} (Rx : A -> A -> Prop) (R : B -> B -> Prop)
    (g : A -> list B) (l : list A) :
  StronglySorted Rx l ->
  (forall x, StronglySorted R (g x)) ->
  (forall x x' a b, Rx x x' -> In a (g x) -> In b (g x') -> R a b) ->
  StronglySorted R (flat_map g l).
Proof.
  intros Hl Hg Hcross. induction Hl as [|x xs _ IH Hx]; simpl; [constructor|].
  apply StronglySorted_app; [apply Hg|exact IH|].
  intros a b Ha Hb. apply in_flat_map in Hb as (x' & Hx' & Hb).
  rewrite Forall_forall in Hx.
  apply (Hcross x x'); [apply Hx, Hx'|exact Ha|exact Hb].
Qed.

Lemma seq_StronglySorted (a n : nat) : StronglySorted lt (seq a n).
Proof.
  revert a. induction n as [|n IH]; intros a; simpl; constructor.
  - apply IH.
  - apply Forall_forall. intros b Hb. apply in_seq in Hb. lia.
Qed.

Lemma product_StronglySorted (ls : list (list nat)) :
  Forall (StronglySorted lt) ls -> StronglySorted lex_lt (product ls).
Proof.
  induction 1 as [|l ls Hl _ IH]; cbn [product].
  - repeat constructor.
  - apply (StronglySorted_flat_map lt); [exact Hl| |].
    + intros x. apply (StronglySorted_map lex_lt); [|exact IH].
      intros a b Hab. right. split; [reflexivity|exact Hab].
    + intros x x' a b Hxx Ha Hb.
      apply in_map_iff in Ha as (a' & <- & _).
      apply in_map_iff in Hb as (b' & <- & _).
      left. exact Hxx.
Qed.

Lemma list_prod_StronglySorted {A B} (R : A -> A -> Prop) (R' : B -> B -> Prop)
    (l : list A) (l' : list B) :
  StronglySorted R l -> StronglySorted R' l' ->
  StronglySorted
    (fun p q => R (fst p) (fst q) \/ (fst p = fst q /\ R' (snd p) (snd q)))
    (list_prod l l').
Proof.
  intros Hl Hl'. induction Hl as [|x xs _ IH Hx]; simpl; [constructor|].
  apply StronglySorted_app; [|exact IH|].
  - apply (StronglySorted_map R'); [|exact Hl'].
    intros a b Hab. right. split; [reflexivity|exact Hab].
  - intros p q Hp Hq.
    apply in_map_iff in Hp as (a & <- & _).
    destruct q as [y b]. apply in_prod_iff in Hq as [Hy _].
    rewrite Forall_forall in Hx. left. apply Hx, Hy.
Qed.

Lemma ranges_StronglySorted (ns : list nat) :
  Forall (StronglySorted lt) (map range ns).
Proof.
  apply Forall_map, Forall_forall. intros n _. apply seq_StronglySorted.
Qed.

(** X7.  The sample paths of a configured program are enumerated in
    strictly increasing lexicographic order: by outcome tuple and, for a
    Markov chain, among the paths of one outcome tuple by Markov state
    tuple. *)
Theorem enumeration_is_in_lexicographic_order :
  forall (RS : Type) (self : MSLP RS) (t : nat),
    independent_ok self = true \/ chain_ok self = true ->
    (t < T self)%nat ->
    exists n paths,
      _enumerate_sample_paths self (Z.of_nat t) = Ok (n, paths) /\
      StronglySorted path_lt paths.
Proof.
  intros RS self t [Hok|Hok] Ht.
  - eexists _, _. split; [apply enumerate_independent_upto; assumption|].
    apply (StronglySorted_map lex_lt); [intros a b H; exact H|].
    apply product_StronglySorted, ranges_StronglySorted.
  - destruct (chain_ok_inv self Hok) as (ns' & P0 & Ps & Hn & _).
    eexists _, _.
    split; [apply (enumerate_chain_upto self (1%nat :: ns')); assumption|].
    eapply StronglySorted_map;
      [|apply (list_prod_StronglySorted lex_lt lex_lt);
        apply product_StronglySorted, ranges_StronglySorted].
    intros [a a'] [b b'] H. exact H.
Qed.

Lemma enumeration_is_in_lexicographic_order_witness :
  (independent_ok (examples.chain3 None) = true
   \/ chain_ok (examples.chain3 None) = true) /\
  (2 < T (examples.chain3 None))%nat /\
  exists n paths,
    _enumerate_sample_paths (examples.chain3 None) (Z.of_nat 2) = Ok (n, paths) /\
    StronglySorted path_lt paths.
Proof.
  split; [right; reflexivity|].
  split; [simpl; lia|].
  apply (enumeration_is_in_lexicographic_order _ (examples.chain3 None) 2%nat).
  - right. reflexivity.
  - simpl. lia.
Defined.

(** *** Values of the state variables *)

Lemma round_cases (x : Q) :
  (round x = Qfloor x /\ x - inject_Z (Qfloor x) <= 1 # 2) \/
  (round x = (Qfloor x + 1)%Z /\ 1 # 2 <= x - inject_Z (Qfloor x)).
Proof.
  unfold round.
  destruct (Qcompare_spec (x - inject_Z (Qfloor x)) (1 # 2)) as [H|H|H].
  - destruct (Z.even (Qfloor x)); [left|right]; (split; [reflexivity|]);
      rewrite H; apply Qle_refl.
  - left. split; [reflexivity|apply Qlt_le_weak, H].
  - right. split; [reflexivity|apply Qlt_le_weak, H].
Qed.

Lemma round_error (x : Q) : Qabs (inject_Z (round x) - x) <= 1 # 2.
Proof.
  pose proof (Qfloor_le x) as Hlo. pose proof (Qlt_floor x) as Hhi.
  rewrite inject_Z_plus in Hhi. change (inject_Z 1) with 1 in Hhi.
  apply Qabs_Qle_condition.
  destruct (round_cases x) as [[-> H]|[-> H]];
    rewrite ?inject_Z_plus; change (inject_Z 1) with 1;
    revert Hlo Hhi H; generalize (inject_Z (Qfloor x)); intros f Hlo Hhi H;
    split; lra.
Qed.

Lemma round_integer (z : Z) : round (inject_Z z) = z.
Proof.
  unfold round. rewrite Qfloor_Z.
  replace (inject_Z z - inject_Z z ?= 1 # 2) with Lt; [reflexivity|].
  symmetry. apply (proj1 (Qlt_alt _ _)).
  generalize (inject_Z z). intros q. lra.
Qed.

(** X8.  [_get_forward_solution] returns one value per state variable.
    For a binary or integer variable it is an integer no further than
    one half from the variable's value (and that value itself when it is
    an integer); the bounds are not applied to it.  For any other
    variable it is a float that is the variable's value whenever that
    lies between the bounds, and lies between the bounds whenever the
    lower bound does not exceed the upper one. *)
Theorem forward_solution_is_rounded_or_within_bounds :
  forall (RS : Type) (self : MSLP RS) (states : list Var) (t : nat),
    Forall2
      (fun var x =>
         if String.eqb (vtype var) "B" || String.eqb (vtype var) "I" then
           exists z, x = py_int z /\
                     Qabs (inject_Z z - X var) <= 1 # 2 /\
                     (forall i, X var = inject_Z i -> z = i)
         else
           exists q, x = py_float q /\
                     (lb var <= X var <= ub var -> q = X var) /\
                     (lb var <= ub var -> lb var <= q <= ub var))
      states (_get_forward_solution self states t).
Proof.
  intros RS self states t. unfold _get_forward_solution.
  apply Forall2_map_same. intros var _.
  destruct (String.eqb (vtype var) "B" || String.eqb (vtype var) "I").
  - eexists. split; [reflexivity|]. split; [apply round_error|].
    intros i ->. apply round_integer.
  - unfold Qlt_bool.
    destruct (Qle_bool (lb var) (X var)) eqn:E1; cbn [negb].
    + apply Qle_bool_iff in E1.
      destruct (Qle_bool (X var) (ub var)) eqn:E2; cbn [negb].
      * apply Qle_bool_iff in E2.
        eexists. split; [reflexivity|]. split; [reflexivity|].
        intros _. split; assumption.
      * assert (H2 : ~ X var <= ub var)
          by (intros H; apply Qle_bool_iff in H; congruence).
        eexists. split; [reflexivity|]. split.
        -- intros [_ H]. contradiction.
        -- intros H. split; [exact H|apply Qle_refl].
    + assert (H1 : ~ lb var <= X var)
        by (intros H; apply Qle_bool_iff in H; congruence).
      eexists. split; [reflexivity|]. split.
      * intros [H _]. contradiction.
      * intros H. split; [apply Qle_refl|exact H].
Qed.

(** *** The enumeration that the exhaustive evaluation uses *)

Lemma enumerate_full_spec {RS} (self : MSLP RS) :
  independent_ok self = true \/ chain_ok self = true ->
  exists paths,
    _enumerate_sample_paths self (Z.of_nat (T self) - 1)
    = Ok (length paths, paths) /\
    (forall p, In p paths <-> full_path self p = true) /\
    NoDup paths /\
    sum_Q (map (weightOf_spec self) paths) == 1.
Proof.
  intros [Hok|Hok].
  - destruct (independent_ok_inv self Hok) as (Hn & _ & _).
    eexists. split; [|split; [|split]].
    + rewrite (enumerate_independent self Hok). f_equal. f_equal.
      rewrite length_map, product_length. symmetry.
      apply prod_nat_range_lengths.
    + intros [sp|sp mp]; unfold full_path; rewrite Hn.
      * rewrite In_map_Indep, product_In, <- indices_below_iff. reflexivity.
      * split; [|discriminate].
        intros H. apply in_map_iff in H as (x & Hx & _). discriminate.
    + apply NoDup_map_Indep, product_NoDup, ranges_NoDup.
    + apply weightOf_spec_total_independent, Hok.
  - destruct (chain_ok_inv self Hok) as (ns' & P0 & Ps & Hn & _).
    eexists. split; [|split; [|split]].
    + rewrite (enumerate_chain self _ Hok Hn). f_equal. f_equal.
      rewrite length_map, length_prod, !product_length,
        !prod_nat_range_lengths. apply Nat.mul_comm.
    + intros [sp|sp mp]; unfold full_path; rewrite Hn.
      * split; [|discriminate].
        intros H. apply in_map_iff in H as (x & Hx & _). discriminate.
      * rewrite In_map_Mixed, in_prod_iff, !product_In, <- !indices_below_iff.
        rewrite andb_true_iff. reflexivity.
    + apply NoDup_map_Mixed, list_prod_NoDup; apply product_NoDup, ranges_NoDup.
    + apply (weightOf_spec_total_chain self _ Hok Hn).
Qed.

Lemma comprehension_over_indices {A B} (f : A -> result B) (l1 l2 : list A) :
  comprehension (fun j => (x <- subscript (l1 ++ l2) j ;; f x)%result)
                (seq (length l1) (length l2))
  = comprehension f l2.
Proof.
  revert l1. induction l2 as [|y ys IH]; intros l1; [reflexivity|].
  cbn [length seq comprehension].
  unfold subscript at 1. rewrite nth_error_app2 by lia.
  rewrite Nat.sub_diag. cbn [nth_error rbind].
  destruct (f y) as [b|e]; cbn [rbind]; [|reflexivity].
  specialize (IH (l1 ++ [y])). rewrite <- app_assoc, length_snoc in IH.
  cbn [app] in IH. rewrite IH. reflexivity.
Qed.

Lemma comprehension_subscript_range {A B} (f : A -> result B) (l : list A) :
  comprehension (fun j => (x <- subscript l j ;; f x)%result) (range (length l))
  = comprehension f l.
Proof. apply (comprehension_over_indices f [] l). Qed.

Lemma comprehension_Ok_Forall2 {A B} (f : A -> result B) (l : list A)
    (ys : list B) :
  comprehension f l = Ok ys -> Forall2 (fun x y => f x = Ok y) l ys.
Proof.
  revert ys. induction l as [|x xs IH]; intros ys H; cbn in H.
  - injection H as <-. constructor.
  - destruct (f x) as [y|e] eqn:E; [|discriminate]. cbn in H.
    destruct (comprehension f xs) as [ys'|e]; [|discriminate]. cbn in H.
    injection H as <-. constructor; [exact E|apply IH; reflexivity].
Qed.

(** The sum behind [numpy.dot], with the second factor taken up to the
    equality of rationals. *)
Lemma dot_sum_pointwise {A} (g : A -> Q) (vs ws : list Q) (xs : list A) :
  Forall2 (fun x w => w == g x) xs ws ->
  sum_Q (map (fun vw => fst vw * snd vw) (combine vs ws))
  == sum_Q (map (fun vx => fst vx * g (snd vx)) (combine vs xs)).
Proof.
  intros H. revert vs. induction H as [|x w xs ws Hxw _ IH]; intros [|v vs];
    cbn; try reflexivity.
  rewrite IH, Hxw. reflexivity.
Qed.

End path_facts.

(** * Further properties of the evaluation engine *)

Module run_facts.

Import msp evaluation evaluation_facts.

Local Open Scope Q_scope.

(** *** The gap *)

Lemma truediv_nonzero (a d : Q) : ~ d == 0 -> truediv a d = Ok (a / d).
Proof.
  intros H. unfold truediv.
  destruct (Qeq_bool d 0) eqn:E; [|reflexivity].
  apply Qeq_bool_iff in E. contradiction.
Qed.

Lemma float64_abs_truediv_nonzero (a d : Q) :
  ~ d == 0 -> float64_abs_truediv a d = gap_float (Qabs (a / d)).
Proof.
  intros H. unfold float64_abs_truediv.
  destruct (Qeq_bool d 0) eqn:E; [|reflexivity].
  apply Qeq_bool_iff in E. contradiction.
Qed.

Lemma Qabs_div (a d : Q) : ~ d == 0 -> Qabs (a / d) == Qabs a / Qabs d.
Proof.
  intros H. unfold Qdiv. rewrite Qabs_Qmult, Qabs_Qinv. reflexivity.
Qed.

Lemma Qabs_zero_iff (a : Q) : Qabs a == 0 <-> a == 0.
Proof.
  split; intros H.
  - revert H. apply Qabs_case; intros; lra.
  - rewrite H. reflexivity.
Qed.

Lemma relative_distance_zero_iff (x d : Q) :
  ~ d == 0 -> (Qabs (x - d) / Qabs d == 0 <-> x == d).
Proof.
  intros Hd.
  assert (Hd' : ~ Qabs d == 0) by (rewrite Qabs_zero_iff; exact Hd).
  split; intros H.
  - assert (H0 : Qabs (x - d) == 0).
    { rewrite <- (Qmult_div_r (Qabs (x - d)) (Qabs d) Hd'), H. ring. }
    apply (proj1 (Qabs_zero_iff _)) in H0. lra.
  - assert (E : x - d == 0) by lra.
    rewrite E. reflexivity.
Qed.

Lemma compute_gap_spec {C : Collaborators} (w : world) (d x : Q) :
  db (self w) = Some d ->
  ~ d == 0 ->
  gap_reference (self w) = Some x ->
  exists g,
    _compute_gap w
    = ({| self := set_gap (Some (gap_float g)) (self w);
          shared := shared w; trace := trace w |}, Ok tt) /\
    g == Qabs (x - d) / Qabs d /\
    0 <= g /\
    (g == 0 <-> x == d).
Proof.
  intros Hdb Hd Href.
  assert (Hfinal : forall a,
             Qabs a == Qabs (x - d) ->
             Qabs (a / d) == Qabs (x - d) / Qabs d /\
             0 <= Qabs (a / d) /\
             (Qabs (a / d) == 0 <-> x == d)).
  { intros a Ha.
    assert (E : Qabs (a / d) == Qabs (x - d) / Qabs d)
      by (rewrite (Qabs_div a d Hd), Ha; reflexivity).
    split; [exact E|]. split; [apply Qabs_nonneg|].
    rewrite E. apply relative_distance_zero_iff, Hd. }
  unfold gap_reference in Href.
  unfold _compute_gap, try_except, bind, get_self, lift, modify_self.
  rewrite Hdb. cbn [operand rbind].
  destruct (CI (self w)) as [ci|].
  - destruct (sense (MSP (self w)) =? 1)%Z; injection Href as <-;
      rewrite (float64_abs_truediv_nonzero _ d Hd);
      eexists; (split; [reflexivity|]); apply Hfinal.
    + reflexivity.
    + rewrite <- Qabs_opp. apply Qabs_wd. ring.
  - destruct (epv (self w)) as [e|].
    + injection Href as <-. rewrite (float64_abs_truediv_nonzero _ d Hd).
      eexists. split; [reflexivity|]. apply Hfinal. reflexivity.
    + destruct (pv (self w)) as [[|p0 rest]|]; try discriminate.
      injection Href as <-.
      cbn [first_of subscript nth_error rbind].
      rewrite (truediv_nonzero _ d Hd). cbn [rbind].
      eexists. split; [reflexivity|]. apply Hfinal. reflexivity.
Qed.

(** X9.  With a bound different from zero and a value to compare with
    it, the gap computation completes and stores the distance between
    the value and the bound relative to the size of the bound; the value
    is the end of the confidence interval on the side of the sense (the
    upper end for minimization), else the exact expected value, else the
    first policy value.  The gap is never negative, is zero exactly when
    the value equals the bound, and nothing else is modified. *)
Theorem gap_is_relative_distance_to_bound :
  forall (C : Collaborators) (w : world) (d x : Q),
    db (self w) = Some d ->
    ~ d == 0 ->
    gap_reference (self w) = Some x ->
    exists g,
      _compute_gap w
      = ({| self := set_gap (Some (gap_float g)) (self w);
            shared := shared w; trace := trace w |}, Ok tt) /\
      g == Qabs (x - d) / Qabs d /\
      0 <= g /\
      (g == 0 <-> x == d).
Proof. intros C. apply compute_gap_spec. Qed.

Lemma gap_is_relative_distance_to_bound_witness :
  let w := {| self := set_CI (Some (3, 5))
                        (@__init__ examples.toy class_Evaluation
                                   (examples.chain3 (Some 4)));
              shared := []; trace := [] |} in
  db (self w) = Some 4 /\ ~ 4 == 0 /\
  gap_reference (self w) = Some 5 /\
  exists g,
    @_compute_gap examples.toy w
    = ({| self := set_gap (Some (gap_float g)) (self w);
          shared := shared w; trace := trace w |}, Ok tt) /\
    g == Qabs (5 - 4) / Qabs 4 /\
    0 <= g /\
    (g == 0 <-> 5 == 4).
Proof.
  intros w.
  assert (Hd : ~ 4 == 0) by (intros H; discriminate H).
  split; [reflexivity|].
  split; [exact Hd|].
  split; [reflexivity|].
  exact (gap_is_relative_distance_to_bound examples.toy w 4 5 eq_refl Hd eq_refl).
Defined.

(** *** Computations that keep a relation between the states

    [stable R m]: whatever its outcome, [m] takes a state to one related
    to it by the reflexive and transitive relation [R]. *)

Section Stable.

Context {C : Collaborators}.
Variable R : world -> world -> Prop.
Context {R_refl : Reflexive R} {R_trans : Transitive R}.

Local Open Scope M_scope.

Definition stable {A} (m : M A) : Prop := forall w, R w (fst (m w)).

Lemma stable_outcome {A} (m : M A) (w w' : world) (r : result A) :
  stable m -> m w = (w', r) -> R w w'.
Proof. intros H E. specialize (H w). rewrite E in H. exact H. Qed.

Lemma stable_ret {A} (a : A) : stable (ret a).
Proof. intros w. apply R_refl. Qed.

Lemma stable_raise {A} (e : exn) : stable (@raise world A e).
Proof. intros w. apply R_refl. Qed.

Lemma stable_lift {A} (r : result A) : stable (lift r).
Proof. intros w. apply R_refl. Qed.

Lemma stable_get_self : stable get_self.
Proof. intros w. apply R_refl. Qed.

Lemma stable_get_shared : stable get_shared.
Proof. intros w. apply R_refl. Qed.

Lemma stable_modify_self (f : _Evaluation -> _Evaluation) :
  (forall w, R w {| self := f (self w); shared := shared w; trace := trace w |}) ->
  stable (modify_self f).
Proof. intros H w. apply H. Qed.

Lemma stable_put_shared (a : list Q) :
  (forall w, R w {| self := self w; shared := a; trace := trace w |}) ->
  stable (put_shared a).
Proof. intros H w. apply H. Qed.

Lemma stable_emit (e : event) :
  (forall w, R w {| self := self w; shared := shared w; trace := trace w ++ [e] |}) ->
  stable (emit e).
Proof. intros H w. apply H. Qed.

Lemma stable_bind {A B} (m : M A) (k : A -> M B) :
  stable m -> (forall a, stable (k a)) -> stable (bind m k).
Proof.
  intros Hm Hk w. unfold bind. specialize (Hm w).
  destruct (m w) as [w' [a|e]]; cbn [fst] in Hm.
  - apply (R_trans _ w'); [exact Hm|apply Hk].
  - exact Hm.
Qed.

Lemma stable_try_except {A} (m h : M A) (handles : exn -> bool) :
  stable m -> stable h -> stable (try_except m handles h).
Proof.
  intros Hm Hh w. unfold try_except. specialize (Hm w).
  destruct (m w) as [w' [a|e]]; cbn [fst] in Hm; [exact Hm|].
  destruct (handles e); [|exact Hm].
  apply (R_trans _ w'); [exact Hm|apply Hh].
Qed.

Lemma stable_for_loop {A S} (l : list A) (body : A -> S -> M S) :
  (forall x s, stable (body x s)) ->
  forall s, stable (for_loop l body s).
Proof.
  intros Hb. induction l as [|x xs IH]; intros s; cbn [for_loop].
  - apply stable_ret.
  - apply stable_bind; [apply Hb|exact IH].
Qed.

Lemma stable_for_each {A} (l : list A) (body : A -> M unit) :
  (forall x, stable (body x)) -> stable (for_each l body).
Proof. intros Hb. apply stable_for_loop. intros x _. apply Hb. Qed.

Lemma stable_in_child_process (m : M unit) :
  (forall w w', R w w' ->
                R w {| self := self w; shared := shared w'; trace := trace w' |}) ->
  stable m -> stable (in_child_process m).
Proof. intros H Hm w. apply H, Hm. Qed.

(** A computation that cannot complete from a state satisfying [P]. *)
Definition fails_from {A} (P : world -> Prop) (m : M A) : Prop :=
  forall w, P w -> forall a, snd (m w) <> Ok a.

Lemma fails_from_bind {A B} (P : world -> Prop) (m : M A) (k : A -> M B) :
  (forall w w', P w -> R w w' -> P w') ->
  stable m -> (forall a, fails_from P (k a)) -> fails_from P (bind m k).
Proof.
  intros HP Hm Hk w Hw b. unfold bind. specialize (Hm w).
  destruct (m w) as [w' [a|e]]; cbn [fst] in Hm; [|discriminate].
  apply (Hk a w'). apply (HP w); assumption.
Qed.

(** What a computation that completes from a state satisfying [P]
    leaves. *)
Definition ensures {A} (P : world -> Prop) (m : M A) (Q : world -> Prop)
  : Prop :=
  forall w w' a, P w -> m w = (w', Ok a) -> Q w'.

Lemma ensures_bind {A B} (P Q : world -> Prop) (m : M A) (k : A -> M B) :
  (forall w w', P w -> R w w' -> P w') ->
  stable m -> (forall a, ensures P (k a) Q) -> ensures P (bind m k) Q.
Proof.
  intros HP Hm Hk w w' b Hw H. unfold bind in H. specialize (Hm w).
  destruct (m w) as [w1 [a|e]]; cbn [fst] in Hm; [|discriminate].
  apply (Hk a w1 w' b); [apply (HP w); assumption|exact H].
Qed.

End Stable.

(** The relation "the view [v] of the state is the same". *)
Definition same {C : Collaborators} {V} (v : world -> V) (w w' : world) : Prop :=
  v w' = v w.

#[local] Instance same_Reflexive {C : Collaborators} {V} (v : world -> V) :
  Reflexive (same v).
Proof. intros w. reflexivity. Qed.

#[local] Instance same_Transitive {C : Collaborators} {V} (v : world -> V) :
  Transitive (same v).
Proof. intros w1 w2 w3 H1 H2. unfold same in *. congruence. Qed.

Ltac stable_step side :=
  lazymatch goal with
  | |- stable _ (ret _) => apply stable_ret; exact _
  | |- stable _ (raise _) => apply stable_raise; exact _
  | |- stable _ (lift _) => apply stable_lift; exact _
  | |- stable _ get_self => apply stable_get_self; exact _
  | |- stable _ get_shared => apply stable_get_shared; exact _
  | |- stable _ (put_shared _) => apply stable_put_shared; intros ?; side
  | |- stable _ (modify_self _) => apply stable_modify_self; intros ?; side
  | |- stable _ (emit _) => apply stable_emit; intros ?; side
  | |- stable _ (in_child_process _) =>
      apply stable_in_child_process; [intros ? ?; side|]
  | |- stable _ (try_except _ _ _) => apply stable_try_except; try exact _
  | |- stable _ (for_each _ _) =>
      apply stable_for_each; [ .. | intros ? ]; try exact _
  | |- stable _ (for_loop _ _ _) =>
      apply stable_for_loop; [ .. | intros ? ? ]; try exact _
  | |- stable _ (bind _ _) => apply stable_bind; [ .. | intros ? ]; try exact _
  | |- stable _ (if ?b then _ else _) => destruct b
  | |- stable _ (match ?x with _ => _ end) => destruct x
  end.

Ltac stable_auto side := repeat stable_step side.

Ltac unfold_engine :=
  unfold _compute_sample_path_idx_and_markovian_path,
    _Evaluation__compute_sample_path_idx_and_markovian_path,
    Evaluation__compute_sample_path_idx_and_markovian_path,
    EvaluationTrue__compute_sample_path_idx_and_markovian_path,
    run_single, forward_pass, pv_setitem, pv_deref, attribute, dimension,
    _compute_gap.

Section Bound.

Context {C : Collaborators}.

Lemma gap_without_bound_fails :
  fails_from (fun w => db (self w) = None) _compute_gap.
Proof.
  intros w Hw a.
  unfold _compute_gap, try_except, bind, get_self, lift, modify_self.
  rewrite Hw.
  destruct (CI (self w)) as [ci|].
  - destruct (sense (MSP (self w)) =? 1)%Z; discriminate.
  - destruct (epv (self w)) as [e|]; [discriminate|].
    destruct (pv (self w)) as [[|p0 rest]|]; discriminate.
Qed.

Lemma run_without_bound_fails (n_simulations : Z) (percentile : Q)
    (query query_dual : option (list string)) (query_stage_cost : bool)
    (n_periodical_stages : option nat) (n_processes : Z) :
  fails_from (fun w => db (self w) = None)
    (run n_simulations percentile query query_dual query_stage_cost
         n_periodical_stages n_processes).
Proof.
  unfold run.
  repeat (apply (fails_from_bind (same (fun w => db (self w))));
          [ intros w w' HP HR; unfold same in HR; congruence
          | unfold_engine; stable_auto ltac:(reflexivity)
          | intros ?; cbv zeta ]).
  apply gap_without_bound_fails.
Qed.

End Bound.

(** X10.  An evaluation whose deterministic bound is [None], as it is
    for a program that has not been solved, cannot complete a run:
    whatever the arguments, [run] ends with an exception, at the latest
    in the gap computation, which handles only a division by zero. *)
Theorem run_without_bound_raises :
  forall (C : Collaborators) (n_simulations : Z) (percentile : Q)
         (query query_dual : option (list string)) (query_stage_cost : bool)
         (n_periodical_stages : option nat) (n_processes : Z) (w : world),
    db (self w) = None ->
    (exists e,
        snd (run n_simulations percentile query query_dual query_stage_cost
                 n_periodical_stages n_processes w) = Raise e) /\
    (exists e,
        snd (EvaluationTrue_run n_simulations percentile query query_dual
               query_stage_cost n_periodical_stages n_processes w) = Raise e).
Proof.
  intros C n_simulations percentile query query_dual query_stage_cost
    n_periodical_stages n_processes w Hdb.
  rewrite EvaluationTrue_run_is_run.
  assert (H : exists e,
             snd (run n_simulations percentile query query_dual
                      query_stage_cost n_periodical_stages n_processes w)
             = Raise e).
  { pose proof (run_without_bound_fails n_simulations percentile query
                  query_dual query_stage_cost n_periodical_stages
                  n_processes w Hdb) as H.
    destruct (snd (run n_simulations percentile query query_dual
                       query_stage_cost n_periodical_stages n_processes w))
      as [a|e].
    - exfalso. apply (H a). reflexivity.
    - exists e. reflexivity. }
  split; exact H.
Qed.

Lemma run_without_bound_raises_witness :
  let w := examples.fresh class_Evaluation (examples.chain3 None) in
  db (self w) = None /\
  (exists e, snd (@run examples.toy 3 95 None None false None 1 w) = Raise e) /\
  (exists e,
      snd (@EvaluationTrue_run examples.toy 3 95 None None false None 1 w)
      = Raise e).
Proof.
  intros w. split; [reflexivity|].
  exact (run_without_bound_raises examples.toy 3 95 None None false None 1 w
           eq_refl).
Defined.

(** *** Runs over an unusable number of sample paths *)

(** X11.  A sequential run with [n_simulations = 0] raises [IndexError]:
    the solver is built, the result arrays are allocated with no column,
    and [run_single] then reads the first of its jobs, of which there is
    none.  No sample path is simulated.  (Shown for [Evaluation] and, on
    a program that is not of the Markovian type, for [EvaluationTrue].) *)
Theorem sequential_run_over_no_paths_raises :
  forall (C : Collaborators) (percentile : Q)
         (query query_dual : option (list string)) (query_stage_cost : bool)
         (n_periodical_stages : option nat) (w : world),
    cls (self w) = class_Evaluation \/
    (cls (self w) = class_EvaluationTrue /\
     _type (MSP (self w)) <> Markovian) ->
    exists w',
      run 0 percentile query query_dual query_stage_cost
          n_periodical_stages 1 w
      = (w', Raise IndexError) /\
      filter is_forward_call (trace w') = filter is_forward_call (trace w).
Proof.
  intros C percentile query query_dual query_stage_cost n_periodical_stages w.
  intros Hcls. unfold run.
  change (negb (1 =? 1)%Z) with false. cbn [andb].
  unfold _compute_sample_path_idx_and_markovian_path,
    Evaluation__compute_sample_path_idx_and_markovian_path,
    EvaluationTrue__compute_sample_path_idx_and_markovian_path,
    run_single, attribute, dimension.
  unfold bind, ret, raise, lift, get_self, modify_self, emit.
  destruct (msp.n_periodical_stages (MSP (self w))) as [n0|] eqn:En;
    destruct n_periodical_stages as [n1|];
    cbn; destruct Hcls as [Hc|[Hc Ht]]; rewrite Hc; cbn.
  all: try (destruct (_type (MSP (self w))); try contradiction; cbn).
  all: eexists; (split; [reflexivity|]); cbn.
  all: rewrite filter_app; cbn; apply app_nil_r.
Qed.

Lemma sequential_run_over_no_paths_raises_witness :
  let w := examples.fresh class_Evaluation (examples.chain3 (Some 1)) in
  (cls (self w) = class_Evaluation \/
   (cls (self w) = class_EvaluationTrue /\
    _type (MSP (self w)) <> Markovian)) /\
  exists w',
    @run examples.toy 0 95 None None false None 1 w = (w', Raise IndexError) /\
    filter is_forward_call (trace w') = filter is_forward_call (trace w).
Proof.
  intros w. split; [left; reflexivity|].
  exact (sequential_run_over_no_paths_raises examples.toy 95 None None false
           None w (or_introl eq_refl)).
Defined.

(** X12.  A run with a negative number of simulations that is not the
    exhaustive [-1] raises [ValueError] when the result arrays are
    allocated, after the solver is built and before any sample path is
    simulated; for [EvaluationTrue], which has no exhaustive mode, [-1]
    does so too.  (Shown for [Evaluation] and, on a program that is not
    of the Markovian type, for [EvaluationTrue].) *)
Theorem run_with_negative_count_raises :
  forall (C : Collaborators) (n_simulations : Z) (percentile : Q)
         (query query_dual : option (list string)) (query_stage_cost : bool)
         (n_periodical_stages : option nat) (n_processes : Z) (w : world),
    (n_simulations < 0)%Z ->
    (cls (self w) = class_Evaluation /\ n_simulations <> (-1)%Z) \/
    (cls (self w) = class_EvaluationTrue /\
     _type (MSP (self w)) <> Markovian) ->
    n_processes = 1%Z \/
    (query = None /\ query_dual = None /\ query_stage_cost = false) ->
    exists w',
      run n_simulations percentile query query_dual query_stage_cost
          n_periodical_stages n_processes w
      = (w', Raise ValueError) /\
      filter is_forward_call (trace w') = filter is_forward_call (trace w).
Proof.
  intros C n_simulations percentile query query_dual query_stage_cost
    n_periodical_stages n_processes w.
  intros Hneg Hcls Hguard. unfold run.
  assert (G : negb (n_processes =? 1)%Z
              && (is_some query || is_some query_dual || query_stage_cost)
              = false).
  { destruct Hguard as [->|(-> & -> & ->)]; [reflexivity|].
    apply andb_false_r. }
  rewrite G. clear G Hguard.
  assert (Hlt : (n_simulations <? 0)%Z = true) by (apply Z.ltb_lt; exact Hneg).
  unfold _compute_sample_path_idx_and_markovian_path,
    Evaluation__compute_sample_path_idx_and_markovian_path,
    EvaluationTrue__compute_sample_path_idx_and_markovian_path,
    attribute, dimension.
  unfold bind, ret, raise, lift, get_self, modify_self, emit.
  destruct (msp.n_periodical_stages (MSP (self w))) as [n0|] eqn:En;
    destruct n_periodical_stages as [n1|];
    cbn; destruct Hcls as [[Hc Hn]|[Hc Ht]]; rewrite Hc; cbn.
  all: try (apply Z.eqb_neq in Hn; rewrite Hn; cbn).
  all: try (destruct (_type (MSP (self w))); try contradiction; cbn).
  all: rewrite Hlt; cbn.
  all: eexists; (split; [reflexivity|]); cbn.
  all: rewrite ?filter_app; cbn; rewrite ?app_nil_r; reflexivity.
Qed.

Lemma run_with_negative_count_raises_witness :
  let w := examples.fresh class_EvaluationTrue (examples.chain3 (Some 1)) in
  (-1 < 0)%Z /\
  ((cls (self w) = class_Evaluation /\ (-1)%Z <> (-1)%Z) \/
   (cls (self w) = class_EvaluationTrue /\
    _type (MSP (self w)) <> Markovian)) /\
  (2%Z = 1%Z \/
   (@None (list string) = None /\ @None (list string) = None /\ false = false)) /\
  exists w',
    @run examples.toy (-1) 95 None None false None 2 w = (w', Raise ValueError) /\
    filter is_forward_call (trace w') = filter is_forward_call (trace w).
Proof.
  intros w.
  assert (H1 : (-1 < 0)%Z) by lia.
  assert (H2 : (cls (self w) = class_Evaluation /\ (-1)%Z <> (-1)%Z) \/
               (cls (self w) = class_EvaluationTrue /\
                _type (MSP (self w)) <> Markovian)).
  { right. split; [reflexivity|]. intros H. discriminate H. }
  assert (H3 : 2%Z = 1%Z \/
               (@None (list string) = None /\ @None (list string) = None /\
                false = false))
    by (right; repeat split).
  split; [exact H1|]. split; [exact H2|]. split; [exact H3|].
  exact (run_with_negative_count_raises examples.toy (-1) 95 None None false
           None 2 w H1 H2 H3).
Defined.

(** *** The sequential run, path by path *)

Lemma bind_inv {C : Collaborators} {A B} (m : M A) (k : A -> M B)
    (w w' : world) (b : B) :
  bind m k w = (w', Ok b) ->
  exists w1 a, m w = (w1, Ok a) /\ k a w1 = (w', Ok b).
Proof.
  unfold bind. destruct (m w) as [w1 [a|e]]; [|discriminate].
  intros H. exists w1, a. split; [reflexivity|exact H].
Qed.

Arguments forward_events {C} tr : simpl never.

Ltac destruct_scrutinee H :=
  match type of H with
  | context [match ?x with _ => _ end] =>
      lazymatch x with
      | context [match _ with _ => _ end] => fail
      | _ => destruct x eqn:?; try discriminate H; cbn in H
      end
  end.

Section Sequential.

Context {C : Collaborators}.

Local Open Scope M_scope.

Lemma forward_events_app (tr1 tr2 : list event) :
  forward_events (tr1 ++ tr2) = forward_events tr1 ++ forward_events tr2.
Proof. apply flat_map_app. Qed.

Lemma forward_pass_sequential_inv (j : nat) (rs rs' : RandomState)
    (w w' : world) :
  forward_pass ref_self_pv j rs w = (w', Ok rs') ->
  exists slv a l,
    solver (self w) = Some slv /\
    pv (self w) = Some l /\ (j < length l)%nat /\
    trace w' = trace w ++ [call_forward j rs a] /\
    pv (self w') = Some (list_set l j (res_pv (fst (_forward slv rs a)))) /\
    rs' = snd (_forward slv rs a) /\
    solver (self w') = Some slv /\
    n_sample_paths (self w') = n_sample_paths (self w).
Proof.
  unfold forward_pass, pv_setitem, attribute, setitem.
  unfold bind, ret, raise, lift, get_self, modify_self, emit.
  intros H. cbn in H.
  repeat destruct_scrutinee H.
  all: injection H as <- <-.
  all: eexists _, _, _; cbn.
  all: repeat split; try reflexivity.
  all: try assumption.
  all: try (match goal with
            | H : (_ <=? _)%nat = true |- (_ < _)%nat =>
                apply Nat.leb_le in H; lia
            end).
  all: match goal with
       | H : _forward _ _ _ = _ |- _ => rewrite H; reflexivity
       end.
Qed.

Lemma sequential_loop_spec (slv : solver_object RandomState) (k : nat) :
  forall (a : nat) (rs rs' : RandomState) (w w' : world) (vals : list Q),
    for_loop (seq a k) (forward_pass ref_self_pv) rs w = (w', Ok rs') ->
    solver (self w) = Some slv ->
    pv (self w) = Some (vals ++ repeat 0 k) ->
    length vals = a ->
    exists calls,
      forward_events (trace w') = forward_events (trace w) ++ calls /\
      map call_index calls = seq a k /\
      pv (self w') = Some (vals ++ map (returned_value slv) calls) /\
      chained slv rs calls /\
      solver (self w') = Some slv /\
      n_sample_paths (self w') = n_sample_paths (self w).
Proof.
  induction k as [|k IH]; intros a rs rs' w w' vals H Hslv Hpv Hlen.
  - cbn in H. injection H as <- <-. exists []. cbn.
    rewrite app_nil_r. repeat split; try assumption. 
  - cbn [seq for_loop] in H.
    apply bind_inv in H as (w1 & rs1 & H1 & H).
    apply forward_pass_sequential_inv in H1
      as (slv0 & args & l & Hs0 & Hl & Hj & Htr & Hpv1 & Hrs1 & Hs1 & Hn1).
    rewrite Hslv in Hs0. injection Hs0 as <-.
    rewrite Hpv in Hl. injection Hl as <-.
    cbn [repeat] in Hpv1.
    rewrite (list_set_at vals (repeat 0 k) 0 _ a (eq_sym Hlen)) in Hpv1.
    destruct (IH (S a) rs1 rs' w1 w'
                 (vals ++ [res_pv (fst (_forward slv rs args))]) H Hs1)
      as (calls & Hfe & Hidx & Hpv' & Hch & Hs' & Hn').
    + rewrite Hpv1, <- app_assoc. reflexivity.
    + rewrite length_app. cbn [length]. lia.
    + exists ((a, rs, args) :: calls).
      split; [|split; [|split; [|split; [|split]]]].
      * rewrite Hfe, Htr, forward_events_app, <- app_assoc. reflexivity.
      * cbn [map call_index fst]. rewrite Hidx. reflexivity.
      * rewrite Hpv', <- app_assoc. reflexivity.
      * cbn [chained fst snd]. split; [reflexivity|].
        rewrite <- Hrs1. exact Hch.
      * exact Hs'.
      * rewrite Hn'. exact Hn1.
Qed.

End Sequential.

(** The attributes and calls that the closing steps of a run leave
    alone. *)
Definition sequential_view {C : Collaborators} (w : world) :=
  (solver (self w), n_sample_paths (self w), pv (self w),
   forward_events (trace w)).

Definition solver_view {C : Collaborators} (w : world) :=
  (solver (self w), forward_events (trace w)).

Ltac view_side :=
  unfold same, sequential_view, solver_view; cbn;
  rewrite ?forward_events_app; cbn; rewrite ?app_nil_r; reflexivity.

Section SequentialRun.

Context {C : Collaborators}.

Local Open Scope M_scope.

Lemma preparation_keeps_solver :
  stable (same solver_view) _compute_sample_path_idx_and_markovian_path.
Proof. unfold_engine. stable_auto view_side. Qed.

Lemma compute_gap_keeps_results : stable (same sequential_view) _compute_gap.
Proof. unfold_engine. stable_auto view_side. Qed.

Lemma worker_seed_range (n : nat) (seed : list Z) :
  worker_seed (range n) = Ok seed ->
  (1 <= n)%nat /\ seed = [2 ^ 32 - 1; 0]%Z.
Proof.
  destruct n as [|n]; [discriminate|].
  cbn. intros H. injection H as <-. split; [lia|reflexivity].
Qed.


End SequentialRun.

(** X13.  A sequential run that completes has simulated the sample
    paths [0, 1, ..., n-1] once each and in this order, [n >= 1] being
    the number of sample paths it leaves in [n_sample_paths]; [pv] holds,
    at position [j], the policy value that the solver returned for path
    [j]; and one random stream serves all paths: the first forward pass
    gets the state seeded with [[2**32-1, 0]], every later one the state
    left by the pass before it. *)
Theorem sequential_run_simulates_paths_in_order :
  forall (C : Collaborators) (n_simulations : Z) (percentile : Q)
         (query query_dual : option (list string)) (query_stage_cost : bool)
         (n_periodical_stages : option nat) (w w' : world),
    run n_simulations percentile query query_dual query_stage_cost
        n_periodical_stages 1 w = (w', Ok tt) ->
    exists slv calls,
      solver (self w') = Some slv /\
      forward_events (trace w') = forward_events (trace w) ++ calls /\
      map call_index calls = range (length calls) /\
      (1 <= length calls)%nat /\
      n_sample_paths (self w') = Some (Z.of_nat (length calls)) /\
      pv (self w') = Some (map (returned_value slv) calls) /\
      chained slv (new_RandomState [2 ^ 32 - 1; 0]%Z) calls.
Proof.
  intros C n_simulations percentile query query_dual query_stage_cost
    n_periodical_stages w w'.
  intros H. unfold run in H.
  change (negb (1 =? 1)%Z) with false in H. cbn [andb] in H.
  apply bind_inv in H as (w1 & [] & H1 & H). injection H1 as <-.
  apply bind_inv in H as (w2 & s & H2 & H). injection H2 as <- <-.
  apply bind_inv in H as (w3 & T & H3 & H).
  assert (Hblock : exists slv, solver (self w3) = Some slv /\
                               forward_events (trace w3) = forward_events (trace w)).
  { unfold bind, modify_self, emit, ret in H3.
    destruct (msp.n_periodical_stages (MSP (self w))), n_periodical_stages;
      cbn in H3; injection H3 as <- <-; eexists; cbn;
      rewrite forward_events_app, app_nil_r; split; reflexivity. }
  clear H3. destruct Hblock as (slv & Hslv3 & Hfe3).
  apply bind_inv in H as (w4 & [] & H4 & H). injection H4 as <-.
  apply bind_inv in H as (w5 & [] & H5 & H).
  apply (stable_outcome _ _ _ _ _ preparation_keeps_solver) in H5.
  unfold same, solver_view in H5. cbn in H5. injection H5 as Hslv5 Hfe5.
  apply bind_inv in H as (w6 & s6 & H6 & H). injection H6 as <- <-.
  apply bind_inv in H as (w7 & n & H7 & H).
  assert (Hdim : w7 = w5 /\ n_sample_paths (self w5) = Some (Z.of_nat n)).
  { unfold dimension, raise, ret in H7.
    destruct (n_sample_paths (self w5)) as [z|]; [|discriminate].
    destruct (z <? 0)%Z eqn:Ez; [discriminate|].
    injection H7 as <- <-. apply Z.ltb_ge in Ez.
    split; [reflexivity|]. f_equal. lia. }
  clear H7. destruct Hdim as [-> Hn5].
  do 7 (apply bind_inv in H as (? & [] & Hm & H); injection Hm as <-).
  apply bind_inv in H as (w8 & pv_local & H8 & H).
  cbv iota in H8.
  apply bind_inv in H8 as (? & [] & Hm & H8). injection Hm as <-.
  apply bind_inv in H8 as (w9 & [] & H9 & H8). injection H8 as <- <-.
  unfold run_single in H9.
  apply bind_inv in H9 as (? & seed & Hseed & H9).
  unfold lift in Hseed. injection Hseed as <- Hseed.
  apply worker_seed_range in Hseed as [Hn1 ->].
  apply bind_inv in H9 as (? & [] & Hm & H9). injection Hm as <-.
  apply bind_inv in H9 as (w10 & rs' & Hloop & H9). injection H9 as <-.
  apply (sequential_loop_spec slv n 0 _ _ _ _ []) in Hloop
    as (calls & Hfe & Hidx & Hpv & Hch & Hslv10 & Hn10);
    [ | cbn; congruence | reflexivity | reflexivity ].
  cbn in Hfe, Hpv, Hn10.
  rewrite forward_events_app in Hfe. cbn in Hfe. rewrite app_nil_r in Hfe.
  assert (Hlen : length calls = n).
  { rewrite <- (length_map call_index), Hidx. apply length_seq. }
  apply bind_inv in H as (w11 & [] & H11 & H).
  destruct (n_simulations =? -1)%Z; [discriminate|]. injection H11 as <-.
  apply bind_inv in H as (w12 & [] & H12 & H).
  assert (Hci : same sequential_view w10 w12).
  { refine (stable_outcome _ _ _ _ _ _ H12).
    stable_auto view_side. }
  apply (stable_outcome _ _ _ _ _ compute_gap_keeps_results) in H.
  assert (Hall : sequential_view w' = sequential_view w10)
    by (unfold same in *; congruence).
  unfold sequential_view in Hall.
  injection Hall as Hs Hn Hp Hf.
  exists slv, calls.
  rewrite Hs, Hn, Hp, Hf, Hlen.
  split; [exact Hslv10|].
  split; [rewrite Hfe, Hfe5, Hfe3; reflexivity|].
  split; [exact Hidx|].
  split; [exact Hn1|].
  split; [rewrite Hn10; exact Hn5|].
  split; [exact Hpv|exact Hch].
Qed.

Lemma sequential_run_simulates_paths_in_order_witness :
  let w := examples.fresh class_Evaluation (examples.chain3 (Some 1)) in
  let w' := fst (@run examples.toy 3 95 None None false None 1 w) in
  @run examples.toy 3 95 None None false None 1 w = (w', Ok tt) /\
  exists slv calls,
    solver (self w') = Some slv /\
    forward_events (trace w') = forward_events (trace w) ++ calls /\
    map call_index calls = range (length calls) /\
    (1 <= length calls)%nat /\
    n_sample_paths (self w') = Some (Z.of_nat (length calls)) /\
    pv (self w') = Some (map (returned_value slv) calls) /\
    chained slv (@new_RandomState examples.toy [2 ^ 32 - 1; 0]%Z) calls.
Proof.
  intros w w'.
  assert (H : @run examples.toy 3 95 None None false None 1 w = (w', Ok tt))
    by (vm_compute; reflexivity).
  split; [exact H|].
  exact (sequential_run_simulates_paths_in_order examples.toy 3 95 None None
           false None w w' H).
Defined.

(** *** The exhaustive run with worker processes *)

(** What the gap computation leaves alone. *)
Definition results_view {C : Collaborators} (w : world) :=
  (pv (self w), epv (self w), sample_path_idx (self w), MSP (self w),
   shared w).

Section ParallelRun.

Context {C : Collaborators}.

Local Open Scope M_scope.

Lemma compute_gap_keeps_expected_value :
  stable (same results_view) _compute_gap.
Proof.
  unfold_engine. stable_auto ltac:(unfold same, results_view; reflexivity).
Qed.

Lemma dot_inv (a b : list Q) (e : Q) :
  dot a b = Ok e ->
  length a = length b /\
  e = sum_Q (map (fun xy => fst xy * snd xy) (combine a b)).
Proof.
  unfold dot. destruct (length a =? length b)%nat eqn:E; [|discriminate].
  intros H. injection H as <-. apply Nat.eqb_eq in E.
  split; [exact E|reflexivity].
Qed.


End ParallelRun.

(** X14.  An exhaustive run ([n_simulations = -1]) with worker processes
    that completes leaves in [pv] the content of the array shared with
    the workers, and in [epv] the sum over the sample paths of the policy
    value of the path times the weight of the path, the weight being the
    one [_compute_weight_sample_path] computes for the path stored at
    the same position of [sample_path_idx]. *)
Theorem parallel_exhaustive_run_sets_expected_value :
  forall (C : Collaborators) (percentile : Q)
         (query query_dual : option (list string)) (query_stage_cost : bool)
         (n_periodical_stages : option nat) (n_processes : Z) (w w' : world),
    n_processes <> 1%Z ->
    run (-1) percentile query query_dual query_stage_cost
        n_periodical_stages n_processes w = (w', Ok tt) ->
    exists values weights,
      pv (self w') = Some values /\
      values = shared w' /\
      comprehension
        (fun j =>
           match sample_path_idx (self w') with
           | None => Raise TypeError
           | Some paths =>
               (path <- subscript paths j ;;
                _compute_weight_sample_path (MSP (self w')) path)%result
           end)
        (range (length values)) = Ok weights /\
      epv (self w')
      = Some (sum_Q (map (fun xy => fst xy * snd xy) (combine values weights))).
Proof.
  intros C percentile query query_dual query_stage_cost n_periodical_stages
    n_processes w w'.
  intros Hp H. unfold run in H.
  apply Z.eqb_neq in Hp. rewrite Hp in H. cbn [negb andb] in H.
  do 7 (apply bind_inv in H as (? & ? & _ & H)).
  do 7 (apply bind_inv in H as (? & [] & _ & H)).
  apply bind_inv in H as (w8 & pv_local & H8 & H).
  cbv iota in H8.
  apply bind_inv in H8 as (? & jobs & _ & H8).
  apply bind_inv in H8 as (? & [] & _ & H8).
  apply bind_inv in H8 as (wb & [] & _ & H8).
  apply bind_inv in H8 as (? & a & Ha & H8). injection Ha as <- <-.
  apply bind_inv in H8 as (? & [] & Hm & H8). injection Hm as <-.
  injection H8 as <- <-.
  change (-1 =? -1)%Z with true in H. cbv iota in H.
  change (negb (true || (-1 =? 1)%Z)) with false in H. cbv iota in H.
  apply bind_inv in H as (w9 & [] & H9 & H).
  apply bind_inv in H9 as (? & a & Ha & H9).
  unfold pv_deref in Ha. injection Ha as <- <-.
  apply bind_inv in H9 as (? & s & Hs & H9). injection Hs as <- <-.
  apply bind_inv in H9 as (? & weights & Hw & H9).
  unfold lift in Hw. injection Hw as <- Hw.
  apply bind_inv in H9 as (? & e & He & H9).
  unfold lift in He. injection He as <- He.
  injection H9 as <-.
  apply bind_inv in H as (w10 & [] & H10 & H). injection H10 as <-.
  apply (stable_outcome _ _ _ _ _ compute_gap_keeps_expected_value) in H.
  unfold same, results_view in H. cbn in H, Hw, He.
  injection H as Hpv Hepv Hidx HMSP Hsh.
  apply dot_inv in He as [Hlen ->].
  pose proof (comprehension_length _ _ _ Hw) as Hlw.
  rewrite range_length in Hlw.
  exists (shared wb), weights.
  rewrite Hpv, Hepv, Hidx, HMSP, Hsh, Hlen, Hlw.
  repeat split. exact Hw.
Qed.

Lemma parallel_exhaustive_run_sets_expected_value_witness :
  let w := examples.fresh class_Evaluation (examples.chain3 (Some 1)) in
  let w' := fst (@run examples.toy (-1) 95 None None false None 2 w) in
  2%Z <> 1%Z /\
  @run examples.toy (-1) 95 None None false None 2 w = (w', Ok tt) /\
  exists values weights,
    pv (self w') = Some values /\
    values = shared w' /\
    comprehension
      (fun j =>
         match sample_path_idx (self w') with
         | None => Raise TypeError
         | Some paths =>
             (path <- subscript paths j ;;
              _compute_weight_sample_path (MSP (self w')) path)%result
         end)
      (range (length values)) = Ok weights /\
    epv (self w')
    = Some (sum_Q (map (fun xy => fst xy * snd xy) (combine values weights))).
Proof.
  intros w w'.
  assert (Hp : 2%Z <> 1%Z) by lia.
  assert (H : @run examples.toy (-1) 95 None None false None 2 w = (w', Ok tt))
    by (vm_compute; reflexivity).
  split; [exact Hp|]. split; [exact H|].
  exact (parallel_exhaustive_run_sets_expected_value examples.toy 95 None None
           false None 2 w w' Hp H).
Defined.

(** *** What a worker writes *)

(** The shared array keeps its length and its entries outside [jobs]. *)
Definition writes_within {C : Collaborators} (jobs : list nat) (w w' : world)
  : Prop :=
  length (shared w') = length (shared w) /\
  forall i, ~ In i jobs -> nth_error (shared w') i = nth_error (shared w) i.

#[local] Instance writes_within_Reflexive {C : Collaborators} (jobs : list nat) :
  Reflexive (writes_within jobs).
Proof. intros w. split; [reflexivity|]. intros i _. reflexivity. Qed.

#[local] Instance writes_within_Transitive {C : Collaborators} (jobs : list nat) :
  Transitive (writes_within jobs).
Proof.
  intros w1 w2 w3 [L1 H1] [L2 H2]. split; [congruence|].
  intros i Hi. rewrite (H2 i Hi). apply H1, Hi.
Qed.

Lemma list_set_other {A} (l : list A) (i j : nat) (x : A) :
  i <> j -> nth_error (list_set l j x) i = nth_error l i.
Proof.
  revert i j. induction l as [|h t IH]; intros [|i] [|j] H; cbn;
    try reflexivity; try congruence.
  apply IH. congruence.
Qed.

Section Workers.

Context {C : Collaborators}.

Local Open Scope M_scope.

Lemma stable_for_loop_in (R : world -> world -> Prop)
    {R_refl : Reflexive R} {R_trans : Transitive R} {A S}
    (l : list A) (body : A -> S -> M S) :
  (forall x, In x l -> forall s, stable R (body x s)) ->
  forall s, stable R (for_loop l body s).
Proof.
  induction l as [|x xs IH]; intros Hb s; cbn [for_loop].
  - apply stable_ret. exact _.
  - apply stable_bind; [exact _| |].
    + apply Hb. left. reflexivity.
    + intros s'. apply IH. intros y Hy. apply Hb. right. exact Hy.
Qed.

Lemma pv_setitem_writes_within (jobs : list nat) (j : nat) (x : Q) :
  In j jobs -> stable (writes_within jobs) (pv_setitem ref_shared j x).
Proof.
  intros Hj w. unfold pv_setitem, bind, get_shared, lift, put_shared, setitem.
  destruct (j <? length (shared w))%nat; cbn; [|reflexivity].
  split; [apply list_set_length|].
  intros i Hi. apply list_set_other. intros ->. contradiction.
Qed.

Lemma forward_pass_writes_within (jobs : list nat) (j : nat)
    (rs : RandomState) :
  In j jobs -> stable (writes_within jobs) (forward_pass ref_shared j rs).
Proof.
  intros Hj. unfold forward_pass, attribute.
  repeat first
    [ apply (pv_setitem_writes_within jobs j _ Hj)
    | stable_step ltac:(split; [reflexivity|intros ? ?; reflexivity]) ].
Qed.

Lemma run_single_writes_within (jobs : list nat) :
  stable (writes_within jobs) (run_single ref_shared jobs).
Proof.
  unfold run_single.
  apply stable_bind; [exact _|apply stable_lift; exact _|intros seed].
  apply stable_bind;
    [exact _
    |apply stable_emit; intros w; split; [reflexivity|intros ? ?; reflexivity]
    |intros _].
  apply stable_bind; [exact _| |intros _; apply stable_ret; exact _].
  apply stable_for_loop_in; [exact _|exact _|].
  intros j Hj rs. apply forward_pass_writes_within, Hj.
Qed.

End Workers.

(** X15.  A worker process started by [run] on the jobs [jobs] never
    raises into the parent and leaves the parent's object as it was; of
    the array shared with the other workers it keeps the length and
    every entry whose index is not one of its jobs. *)
Theorem worker_writes_only_its_jobs :
  forall (C : Collaborators) (jobs : list nat) (w : world),
    let r := in_child_process (run_single ref_shared jobs) w in
    snd r = Ok tt /\
    self (fst r) = self w /\
    length (shared (fst r)) = length (shared w) /\
    forall i, ~ In i jobs ->
              nth_error (shared (fst r)) i = nth_error (shared w) i.
Proof.
  intros C jobs w. cbn.
  destruct (run_single_writes_within jobs w) as [Hl Hi].
  repeat split; assumption.
Qed.

(** *** What the solver is asked

    [hoare allowed P m Q]: started on an object satisfying [P], the
    computation [m] makes only calls satisfying [allowed], whatever its
    outcome, and leaves an object satisfying [Q] if it completes. *)

Section Hoare.

Context {C : Collaborators}.
Variable allowed : event -> Prop.

Local Open Scope M_scope.

Definition hoare {A} (P : _Evaluation -> Prop) (m : M A)
    (Q : _Evaluation -> Prop) : Prop :=
  forall w, P (self w) ->
    (exists more, trace (fst (m w)) = trace w ++ more /\ Forall allowed more) /\
    (forall a, snd (m w) = Ok a -> Q (self (fst (m w)))).

Lemma hoare_silent {A} (P Q : _Evaluation -> Prop) (m : M A) :
  (forall w, trace (fst (m w)) = trace w) ->
  (forall w a, P (self w) -> snd (m w) = Ok a -> Q (self (fst (m w)))) ->
  hoare P m Q.
Proof.
  intros Ht Hq w Hw. split.
  - exists []. rewrite app_nil_r. split; [apply Ht|constructor].
  - intros a Ha. apply (Hq w a Hw Ha).
Qed.

Lemma hoare_ret {A} (P Q : _Evaluation -> Prop) (a : A) :
  (forall s, P s -> Q s) -> hoare P (ret a) Q.
Proof.
  intros H. apply hoare_silent; [reflexivity|]. intros w b Hw _. apply H, Hw.
Qed.

Lemma hoare_raise {A} (P Q : _Evaluation -> Prop) (e : exn) :
  hoare P (@raise world A e) Q.
Proof. apply hoare_silent; [reflexivity|]. intros w b _ H. discriminate H. Qed.

Lemma hoare_lift {A} (P Q : _Evaluation -> Prop) (r : result A) :
  (forall s, P s -> Q s) -> hoare P (lift r) Q.
Proof.
  intros H. apply hoare_silent; [reflexivity|]. intros w b Hw _. apply H, Hw.
Qed.

Lemma hoare_get_self (P Q : _Evaluation -> Prop) :
  (forall s, P s -> Q s) -> hoare P get_self Q.
Proof.
  intros H. apply hoare_silent; [reflexivity|]. intros w b Hw _. apply H, Hw.
Qed.

Lemma hoare_get_shared (P Q : _Evaluation -> Prop) :
  (forall s, P s -> Q s) -> hoare P get_shared Q.
Proof.
  intros H. apply hoare_silent; [reflexivity|]. intros w b Hw _. apply H, Hw.
Qed.

Lemma hoare_put_shared (a : list Q) (P P' : _Evaluation -> Prop) :
  (forall s, P s -> P' s) -> hoare P (put_shared a) P'.
Proof.
  intros H. apply hoare_silent; [reflexivity|]. intros w b Hw _. apply H, Hw.
Qed.

Lemma hoare_modify_self (P Q : _Evaluation -> Prop)
    (f : _Evaluation -> _Evaluation) :
  (forall s, P s -> Q (f s)) -> hoare P (modify_self f) Q.
Proof.
  intros H. apply hoare_silent; [reflexivity|]. intros w b Hw _. apply H, Hw.
Qed.

Lemma hoare_emit (P Q : _Evaluation -> Prop) (e : event) :
  allowed e -> (forall s, P s -> Q s) -> hoare P (emit e) Q.
Proof.
  intros He H w Hw. split.
  - exists [e]. split; [reflexivity|]. constructor; [exact He|constructor].
  - intros _ _. apply H, Hw.
Qed.

Lemma hoare_bind {A B} (P Q1 Q : _Evaluation -> Prop) (m : M A)
    (k : A -> M B) :
  hoare P m Q1 -> (forall a, hoare Q1 (k a) Q) -> hoare P (bind m k) Q.
Proof.
  intros Hm Hk w Hw. unfold bind.
  destruct (Hm w Hw) as [(more1 & E1 & F1) Hq].
  destruct (m w) as [w1 [a|e]]; cbn [fst snd] in *.
  - destruct (Hk a w1 (Hq a eq_refl)) as [(more2 & E2 & F2) Hq2].
    split; [|exact Hq2].
    exists (more1 ++ more2). split.
    + rewrite E2, E1, app_assoc. reflexivity.
    + apply Forall_app. split; assumption.
  - split; [|intros b H; discriminate H].
    exists more1. split; assumption.
Qed.

Lemma hoare_bind_get_self {B} (P Q : _Evaluation -> Prop)
    (k : _Evaluation -> M B) :
  (forall s, P s -> hoare P (k s) Q) -> hoare P (bind get_self k) Q.
Proof.
  intros Hk w Hw. unfold bind, get_self. apply (Hk (self w) Hw w Hw).
Qed.


Lemma hoare_try_except {A} (P Q : _Evaluation -> Prop) (m h : M A)
    (handles : exn -> bool) :
  hoare P m Q -> hoare (fun _ => True) h Q ->
  hoare P (try_except m handles h) Q.
Proof.
  intros Hm Hh w Hw. unfold try_except.
  destruct (Hm w Hw) as [(more1 & E1 & F1) Hq].
  destruct (m w) as [w1 [a|e]]; cbn [fst snd] in *.
  - split; [|exact Hq]. exists more1. split; assumption.
  - destruct (handles e).
    + destruct (Hh w1 I) as [(more2 & E2 & F2) Hq2].
      split; [|exact Hq2].
      exists (more1 ++ more2). split.
      * rewrite E2, E1, app_assoc. reflexivity.
      * apply Forall_app. split; assumption.
    + split; [|intros b H; discriminate H].
      exists more1. split; assumption.
Qed.

Lemma hoare_for_loop {A S} (I : _Evaluation -> Prop) (l : list A)
    (body : A -> S -> M S) :
  (forall x s, hoare I (body x s) I) ->
  forall s, hoare I (for_loop l body s) I.
Proof.
  intros Hb. induction l as [|x xs IH]; intros s; cbn [for_loop].
  - apply hoare_ret. intros s' H. exact H.
  - apply (hoare_bind I I I); [apply Hb|exact IH].
Qed.

Lemma hoare_in_child_process (P Q : _Evaluation -> Prop) (m : M unit) :
  hoare P m Q -> hoare P (in_child_process m) P.
Proof.
  intros Hm w Hw. destruct (Hm w Hw) as [Ht _].
  split; [exact Ht|]. intros _ _. exact Hw.
Qed.

Lemma hoare_for_each {A} (I : _Evaluation -> Prop) (l : list A)
    (body : A -> M unit) :
  (forall x, hoare I (body x) I) -> hoare I (for_each l body) I.
Proof. intros Hb. apply hoare_for_loop. intros x _. apply Hb. Qed.

End Hoare.

(** One step of a proof that a computation keeps the invariant it
    starts with; [side] proves what the step needs of the invariant. *)
Ltac hoare_step side :=
  lazymatch goal with
  | |- hoare _ _ (ret _) _ => apply hoare_ret; intros ? ?; side
  | |- hoare _ _ (raise _) _ => apply hoare_raise
  | |- hoare _ _ (lift _) _ => apply hoare_lift; intros ? ?; side
  | |- hoare _ _ get_self _ => apply hoare_get_self; intros ? ?; side
  | |- hoare _ _ get_shared _ => apply hoare_get_shared; intros ? ?; side
  | |- hoare _ _ (put_shared _) _ => apply hoare_put_shared; intros ? ?; side
  | |- hoare _ _ (modify_self _) _ =>
      apply hoare_modify_self; intros ? ?; side
  | |- hoare _ _ (emit _) _ => apply hoare_emit; [side|intros ? ?; side]
  | |- hoare _ ?P (in_child_process _) ?P =>
      apply (hoare_in_child_process _ P P)
  | |- hoare _ ?P (for_each _ _) ?P => apply hoare_for_each; intros ?
  | |- hoare _ ?P (for_loop _ _ _) ?P => apply hoare_for_loop; intros ? ?
  | |- hoare _ _ (bind get_self _) _ => apply hoare_bind_get_self; intros ? ?
  | |- hoare ?al ?P (bind _ _) _ => apply (hoare_bind al P P); [|intros ?]
  | |- hoare _ _ (if ?b then _ else _) _ => destruct b
  | |- hoare _ _ (match ?x with _ => _ end) _ => destruct x eqn:?
  end.

(** What has been settled of the object at a point of the run: its
    class, and, once assigned, the flag [solve_true] of an
    [EvaluationTrue] and the queried names and flag. *)
Definition settled {C : Collaborators} (c : class_name) (st : bool)
    (oq oqd : option (list string)) (oqsc : option bool) (s : _Evaluation)
  : Prop :=
  cls s = c /\
  (st = true -> c = class_EvaluationTrue -> solve_true s = true) /\
  (forall q, oq = Some q -> query s = q) /\
  (forall q, oqd = Some q -> query_dual s = q) /\
  (forall b, oqsc = Some b -> query_stage_cost s = b).

Ltac settled_side :=
  unfold settled, carries in *; cbn in *;
  repeat match goal with H : _ /\ _ |- _ => destruct H end;
  repeat split; intros; subst; try discriminate; try congruence; eauto.

Section Asked.

Context {C : Collaborators}.
Variables (c : class_name) (q qd : list string) (qsc : bool).

Local Open Scope M_scope.

Lemma preparation_settles_solve_true :
  hoare (carries c q qd qsc) (settled c false None None None)
        _compute_sample_path_idx_and_markovian_path
        (settled c true None None None).
Proof.
  unfold_engine.
  repeat (cbv zeta;
    lazymatch goal with
    | |- hoare ?al _ (bind (modify_self (set_solve_true true)) _) _ =>
        apply (hoare_bind al _ (settled c true None None None));
        [apply hoare_modify_self; intros ? ?; settled_side|intros ?]
    | _ => hoare_step settled_side
    end).
Qed.

Lemma run_single_carries (pv : pv_ref) (jobs : list nat) :
  hoare (carries c q qd qsc)
        (settled c true (Some q) (Some qd) (Some qsc))
        (run_single pv jobs)
        (settled c true (Some q) (Some qd) (Some qsc)).
Proof.
  unfold_engine. destruct pv; repeat (cbv zeta; hoare_step settled_side).
Qed.

Lemma compute_gap_carries (P : _Evaluation -> Prop) :
  hoare (carries c q qd qsc) P _compute_gap (fun _ => True).
Proof.
  unfold _compute_gap.
  apply hoare_try_except; repeat (cbv zeta; hoare_step ltac:(auto)).
Qed.

Lemma run_carries (n_simulations : Z) (percentile : Q)
    (query query_dual : option (list string))
    (n_periodical_stages : option nat) (n_processes : Z) :
  q = match query with None => [] | Some x => x end ->
  qd = match query_dual with None => [] | Some x => x end ->
  hoare (carries c q qd qsc) (settled c false None None None)
        (run n_simulations percentile query query_dual qsc
             n_periodical_stages n_processes)
        (fun _ => True).
Proof.
  intros Hq Hqd. unfold run. rewrite <- Hq, <- Hqd. clear Hq Hqd.
  unfold dimension, pv_deref.
  repeat (cbv zeta;
    lazymatch goal with
    | |- hoare _ _ _compute_gap _ => apply compute_gap_carries
    | |- hoare _ ?P (run_single _ _) ?P => apply run_single_carries
    | |- hoare ?al _ (bind _compute_sample_path_idx_and_markovian_path _) _ =>
        apply (hoare_bind al _ (settled c true None None None));
        [apply preparation_settles_solve_true|intros ?]
    | |- hoare ?al (settled _ ?st _ ?oqd ?oqsc)
               (bind (modify_self (set_query ?x)) _) _ =>
        apply (hoare_bind al _ (settled c st (Some x) oqd oqsc));
        [apply hoare_modify_self; intros ? ?; settled_side|intros ?]
    | |- hoare ?al (settled _ ?st ?oq _ ?oqsc)
               (bind (modify_self (set_query_dual ?x)) _) _ =>
        apply (hoare_bind al _ (settled c st oq (Some x) oqsc));
        [apply hoare_modify_self; intros ? ?; settled_side|intros ?]
    | |- hoare ?al (settled _ ?st ?oq ?oqd _)
               (bind (modify_self (set_query_stage_cost ?x)) _) _ =>
        apply (hoare_bind al _ (settled c st oq oqd (Some x)));
        [apply hoare_modify_self; intros ? ?; settled_side|intros ?]
    | _ => hoare_step settled_side
    end).
Qed.

End Asked.

(** X16.  Whatever its arguments and its outcome, a run only adds to the
    record of calls, and every forward pass it makes (in the parent or in
    a worker) is handed the queried names and the stage-cost flag of
    this run; a run of an [EvaluationTrue] asks the solver for the true
    problem ([solve_true = True]) in every forward pass. *)
Theorem forward_passes_carry_the_arguments_of_the_run :
  forall (C : Collaborators) (n_simulations : Z) (percentile : Q)
         (query query_dual : option (list string)) (query_stage_cost : bool)
         (n_periodical_stages : option nat) (n_processes : Z) (w : world),
    exists more,
      trace (fst (run n_simulations percentile query query_dual
                      query_stage_cost n_periodical_stages n_processes w))
      = trace w ++ more /\
      Forall (carries (cls (self w))
                      match query with None => [] | Some x => x end
                      match query_dual with None => [] | Some x => x end
                      query_stage_cost)
             more.
Proof.
  intros C n_simulations percentile query query_dual query_stage_cost
    n_periodical_stages n_processes w.
  refine (proj1 (run_carries (cls (self w)) _ _ query_stage_cost n_simulations
                   percentile query query_dual n_periodical_stages
                   n_processes eq_refl eq_refl w _)).
  unfold settled. repeat split; intros; discriminate.
Qed.

(** *** The confidence interval of a sampled run *)

Definition interval_view {C : Collaborators} (w : world) :=
  (pv (self w), CI (self w), trace w).

Section SampledRun.

Context {C : Collaborators}.

Local Open Scope M_scope.

Lemma compute_gap_keeps_interval : stable (same interval_view) _compute_gap.
Proof.
  unfold_engine. stable_auto ltac:(unfold same, interval_view; reflexivity).
Qed.


End SampledRun.

(** X17.  A run that completes with a number of simulations other than
    [-1] and [1] ends by computing the confidence interval: its last call
    is [compute_CI] on the policy values it leaves in [pv], with the
    percentile it was given, and [CI] holds what that call returned. *)
Theorem sampled_run_sets_confidence_interval :
  forall (C : Collaborators) (n_simulations : Z) (percentile : Q)
         (query query_dual : option (list string)) (query_stage_cost : bool)
         (n_periodical_stages : option nat) (n_processes : Z) (w w' : world),
    n_simulations <> (-1)%Z -> n_simulations <> 1%Z ->
    run n_simulations percentile query query_dual query_stage_cost
        n_periodical_stages n_processes w = (w', Ok tt) ->
    exists values ci tr,
      pv (self w') = Some values /\
      compute_CI values percentile = Ok ci /\
      CI (self w') = Some ci /\
      trace w' = tr ++ [call_compute_CI values percentile].
Proof.
  intros C n_simulations percentile query query_dual query_stage_cost
    n_periodical_stages n_processes w w'.
  intros Hn1 Hn2 H. unfold run in H.
  apply Z.eqb_neq in Hn1, Hn2.
  do 15 (apply bind_inv in H as (? & ? & _ & H)).
  rewrite Hn1, Hn2 in H. cbn [orb negb] in H. cbv iota in H.
  apply bind_inv in H as (? & [] & Hm & H). cbv [ret] in Hm. injection Hm as <-.
  apply bind_inv in H as (w1 & [] & H1 & H).
  apply bind_inv in H1 as (? & s & Hs & H1).
  cbv [get_self] in Hs. injection Hs as <- <-.
  apply bind_inv in H1 as (? & values & Hv & H1).
  match type of Hv with context [pv (self ?x)] => rename x into wc end.
  destruct (pv (self wc)) as [l|] eqn:Hpv; [|discriminate].
  cbv [ret] in Hv. injection Hv as <- <-.
  apply bind_inv in H1 as (? & [] & Hm & H1). cbv [emit] in Hm. injection Hm as <-.
  apply bind_inv in H1 as (? & ci & Hci & H1).
  cbv [lift] in Hci. injection Hci as <- Hci.
  cbv [modify_self] in H1. injection H1 as <-.
  apply (stable_outcome _ _ _ _ _ compute_gap_keeps_interval) in H.
  unfold same, interval_view in H. cbn in H.
  injection H as Hp Hc Ht.
  exists l, ci, (trace wc).
  rewrite Hp, Hc, Ht. repeat split; assumption.
Qed.

Lemma sampled_run_sets_confidence_interval_witness :
  let w := examples.fresh class_Evaluation (examples.chain3 (Some 1)) in
  let w' := fst (@run examples.toy 3 95 None None false None 2 w) in
  3%Z <> (-1)%Z /\ 3%Z <> 1%Z /\
  @run examples.toy 3 95 None None false None 2 w = (w', Ok tt) /\
  exists values ci tr,
    pv (self w') = Some values /\
    @compute_CI examples.toy values 95 = Ok ci /\
    CI (self w') = Some ci /\
    trace w' = tr ++ [call_compute_CI values 95].
Proof.
  intros w w'.
  assert (H1 : 3%Z <> (-1)%Z) by lia.
  assert (H2 : 3%Z <> 1%Z) by lia.
  assert (H : @run examples.toy 3 95 None None false None 2 w = (w', Ok tt))
    by (vm_compute; reflexivity).
  split; [exact H1|]. split; [exact H2|]. split; [exact H|].
  exact (sampled_run_sets_confidence_interval examples.toy 3 95 None None
           false None 2 w w' H1 H2 H).
Defined.

(** *** A confidence interval left by an earlier run *)

Definition bound_view {C : Collaborators} (w : world) :=
  (CI (self w), db (self w), sense (MSP (self w))).

(** X18.  A run with [n_simulations] equal to [1] or [-1] does not touch
    [CI]; if an earlier run left a confidence interval on the object and
    the run completes (with a bound different from zero), the gap it
    stores is the relative distance between the bound and that earlier
    interval, not a value of this run. *)
Theorem gap_of_rerun_comes_from_the_earlier_interval :
  forall (C : Collaborators) (n_simulations : Z) (percentile : Q)
         (query query_dual : option (list string)) (query_stage_cost : bool)
         (n_periodical_stages : option nat) (n_processes : Z) (w w' : world)
         (ci : Q * Q) (d : Q),
    n_simulations = 1%Z \/ n_simulations = (-1)%Z ->
    CI (self w) = Some ci ->
    db (self w) = Some d ->
    ~ d == 0 ->
    run n_simulations percentile query query_dual query_stage_cost
        n_periodical_stages n_processes w = (w', Ok tt) ->
    CI (self w') = Some ci /\
    exists g,
      gap (self w') = Some (gap_float g) /\
      g == Qabs ((if (sense (MSP (self w)) =? 1)%Z then snd ci else fst ci) - d)
           / Qabs d.
Proof.
  intros C n_simulations percentile query query_dual query_stage_cost
    n_periodical_stages n_processes w w' ci d.
  intros Hn HCI Hdb Hd H. unfold run in H.
  apply bind_inv in H as (? & [] & Hg & H).
  assert (Hg' : x = w).
  { destruct (negb (n_processes =? 1)%Z
              && (is_some query || is_some query_dual || query_stage_cost));
      [discriminate|]. cbv [ret] in Hg. injection Hg as <-. reflexivity. }
  subst x. clear Hg.
  apply bind_inv in H as (? & s & Hs & H).
  cbv [get_self] in Hs. injection Hs as <- <-.
  apply bind_inv in H as (w3 & T & H3 & H).
  assert (Hv3 : bound_view w3 = bound_view w).
  { unfold bind, modify_self, emit, ret in H3.
    destruct (msp.n_periodical_stages (MSP (self w))), n_periodical_stages;
      cbn in H3; injection H3 as <- <-; reflexivity. }
  clear H3.
  set (P := fun w0 : world => bound_view w0 = bound_view w).
  set (Q0 := fun w0 : world =>
               CI (self w0) = Some ci /\
               exists g,
                 gap (self w0) = Some (gap_float g) /\
                 g == Qabs ((if (sense (MSP (self w)) =? 1)%Z
                             then snd ci else fst ci) - d) / Qabs d).
  match type of H with
  | ?m w3 = _ => assert (E : ensures P m Q0)
  end.
  { assert (Hc : (n_simulations =? -1)%Z || (n_simulations =? 1)%Z = true)
      by (destruct Hn as [->| ->]; reflexivity).
    rewrite Hc. cbn [negb].
    repeat (apply (ensures_bind (same bound_view));
            [ intros w1 w2 HP HR; unfold P, same in *; congruence
            | unfold_engine; stable_auto ltac:(reflexivity)
            | intros ?; cbv zeta ]).
    intros w1 w2 [] HP Hgap. unfold P, bound_view in HP.
    injection HP as HCI1 Hdb1 Hs1.
    rewrite HCI in HCI1. rewrite Hdb in Hdb1.
    destruct (compute_gap_spec w1 d
                (if (sense (MSP (self w1)) =? 1)%Z then snd ci else fst ci)
                Hdb1 Hd) as (g & Hrun & Hg & _).
    { unfold gap_reference. rewrite HCI1. reflexivity. }
    rewrite Hrun in Hgap. injection Hgap as <-.
    split; [exact HCI1|].
    exists g. split; [reflexivity|]. rewrite <- Hs1. exact Hg. }
  exact (E w3 w' tt Hv3 H).
Qed.

Lemma gap_of_rerun_comes_from_the_earlier_interval_witness :
  let w := {| self := set_CI (Some (3, 5))
                        (@__init__ examples.toy class_Evaluation
                                   (examples.chain3 (Some 4)));
              shared := []; trace := [] |} in
  let w' := fst (@run examples.toy 1 95 None None false None 1 w) in
  (1%Z = 1%Z \/ 1%Z = (-1)%Z) /\
  CI (self w) = Some (3, 5) /\
  db (self w) = Some 4 /\
  ~ 4 == 0 /\
  @run examples.toy 1 95 None None false None 1 w = (w', Ok tt) /\
  CI (self w') = Some (3, 5) /\
  exists g,
    gap (self w') = Some (gap_float g) /\
    g == Qabs ((if (sense (MSP (self w)) =? 1)%Z
                then snd (3, 5) else fst (3, 5)) - 4) / Qabs 4.
Proof.
  intros w w'.
  assert (Hd : ~ 4 == 0) by (intros H; discriminate H).
  assert (H : @run examples.toy 1 95 None None false None 1 w = (w', Ok tt))
    by (vm_compute; reflexivity).
  split; [left; reflexivity|].
  split; [reflexivity|]. split; [reflexivity|]. split; [exact Hd|].
  split; [exact H|].
  exact (gap_of_rerun_comes_from_the_earlier_interval examples.toy 1 95 None
           None false None 1 w w' (3, 5) 4 (or_introl eq_refl) eq_refl eq_refl
           Hd H).
Defined.

(** *** The exhaustive evaluation of a configured program *)

Definition exhaustive_view {C : Collaborators} (w : world) :=
  (pv (self w), epv (self w), sample_path_idx (self w),
   n_sample_paths (self w)).

Section Exhaustive.

Context {C : Collaborators}.

Local Open Scope M_scope.

Lemma compute_gap_keeps_exhaustive_view :
  stable (same exhaustive_view) _compute_gap.
Proof.
  unfold_engine. stable_auto ltac:(unfold same, exhaustive_view; reflexivity).
Qed.

Lemma workers_keep_self (n_processes : Z) (jobs : list (list nat)) :
  stable (same (fun w => self w))
    (for_loop (range_Z n_processes)
       (fun p (_ : unit) =>
          jobs_p <- lift (subscript jobs p) ;;
          in_child_process (run_single ref_shared jobs_p))
       tt).
Proof.
  apply stable_for_loop; try exact _. intros p _.
  apply stable_bind; try exact _.
  - apply stable_lift. exact _.
  - intros jobs_p w. reflexivity.
Qed.

Lemma weights_of_full_paths (m : MSLP RandomState) (paths : list sample_path)
    (weights : list Q) :
  independent_ok m = true \/ chain_ok m = true ->
  (forall p, In p paths -> full_path m p = true) ->
  comprehension
    (fun j => (path <- subscript paths j ;;
               _compute_weight_sample_path m path)%result)
    (range (length paths)) = Ok weights ->
  Forall2 (fun p y => y == weightOf_spec m p) paths weights.
Proof.
  intros Hok Hfull H.
  rewrite path_facts.comprehension_subscript_range in H.
  apply path_facts.comprehension_Ok_Forall2 in H.
  revert Hfull. induction H as [|p y ps ys Hpy _ IH]; intros Hfull;
    constructor.
  - destruct (msp_facts.compute_weight_refines m p Hok
                (Hfull p (or_introl eq_refl))) as (w0 & Hw0 & Heq).
    rewrite Hw0 in Hpy. injection Hpy as <-. exact Heq.
  - apply IH. intros p' Hp'. apply Hfull. right. exact Hp'.
Qed.


End Exhaustive.

(** X19.  On a configured program, an exhaustive run of an [Evaluation]
    with worker processes that completes has stored every full sample
    path exactly once, counted them in [n_sample_paths], and holds one
    policy value per path; [epv] is the sum of the policy values weighted
    by the probabilities of their paths, and these probabilities sum to
    one. *)
Theorem exhaustive_run_computes_the_expected_policy_value :
  forall (C : Collaborators) (percentile : Q)
         (query query_dual : option (list string)) (query_stage_cost : bool)
         (n_periodical_stages : option nat) (n_processes : Z) (w w' : world),
    n_processes <> 1%Z ->
    cls (self w) = class_Evaluation ->
    independent_ok (MSP (self w)) = true \/ chain_ok (MSP (self w)) = true ->
    run (-1) percentile query query_dual query_stage_cost
        n_periodical_stages n_processes w = (w', Ok tt) ->
    exists paths values e,
      sample_path_idx (self w') = Some paths /\
      (forall p, In p paths <-> full_path (MSP (self w)) p = true) /\
      NoDup paths /\
      n_sample_paths (self w') = Some (Z.of_nat (length paths)) /\
      pv (self w') = Some values /\
      length values = length paths /\
      epv (self w') = Some e /\
      e == sum_Q (map (fun vp => fst vp * weightOf_spec (MSP (self w)) (snd vp))
                      (combine values paths)) /\
      sum_Q (map (weightOf_spec (MSP (self w))) paths) == 1.
Proof.
  intros C percentile query query_dual query_stage_cost n_periodical_stages
    n_processes w w'.
  intros Hp Hcls Hok H. unfold run in H.
  apply Z.eqb_neq in Hp. rewrite Hp in H. cbn [negb andb] in H.
  apply bind_inv in H as (? & [] & Hg & H).
  assert (Hg' : x = w).
  { destruct (is_some query || is_some query_dual || query_stage_cost);
      [discriminate|]. cbv [ret] in Hg. injection Hg as <-. reflexivity. }
  subst x. clear Hg.
  apply bind_inv in H as (? & s & Hs & H).
  cbv [get_self] in Hs. injection Hs as <- <-.
  apply bind_inv in H as (w3 & T & H3 & H).
  assert (H3' : cls (self w3) = class_Evaluation /\
                (independent_ok (MSP (self w3)) = true \/
                 chain_ok (MSP (self w3)) = true) /\
                (forall p, full_path (MSP (self w3)) p
                           = full_path (MSP (self w)) p) /\
                (forall p, weightOf_spec (MSP (self w3)) p
                           = weightOf_spec (MSP (self w)) p)).
  { unfold bind, modify_self, emit, ret in H3.
    destruct (msp.n_periodical_stages (MSP (self w))), n_periodical_stages;
      cbn in H3; injection H3 as <- <-;
      (split; [exact Hcls|split; [exact Hok|split; intros p; reflexivity]]). }
  clear H3. destruct H3' as (Hcls3 & Hok3 & Hfp & Hws).
  destruct (path_facts.enumerate_full_spec (MSP (self w3)) Hok3)
    as (paths & Henum & Hin & Hnd & Htotal).
  apply bind_inv in H as (? & [] & Hm & H).
  cbv [modify_self] in Hm. injection Hm as <-.
  apply bind_inv in H as (w5 & [] & H5 & H).
  assert (H5' : w5 = {| self := set_sample_path_idx (Some paths)
                                 (set_n_sample_paths
                                    (Some (Z.of_nat (length paths)))
                                    (set_n_simulations (Some (-1)%Z) (self w3)));
                        shared := shared w3; trace := trace w3 |}).
  { unfold _compute_sample_path_idx_and_markovian_path,
      Evaluation__compute_sample_path_idx_and_markovian_path, attribute in H5.
    unfold bind, get_self, lift, modify_self, ret in H5. cbn in H5.
    rewrite Hcls3 in H5. cbn in H5. rewrite Henum in H5. cbn in H5.
    injection H5 as <-. reflexivity. }
  clear H5. subst w5.
  apply bind_inv in H as (? & s & Hs & H).
  cbv [get_self] in Hs. injection Hs as <- <-.
  apply bind_inv in H as (? & n & Hn & H).
  assert (Hn' : n = length paths /\
                x = {| self := set_sample_path_idx (Some paths)
                                 (set_n_sample_paths
                                    (Some (Z.of_nat (length paths)))
                                    (set_n_simulations (Some (-1)%Z) (self w3)));
                       shared := shared w3; trace := trace w3 |}).
  { unfold dimension in Hn. cbn in Hn.
    destruct (Z.of_nat (length paths) <? 0)%Z eqn:E;
      [apply Z.ltb_lt in E; lia|].
    cbv [ret] in Hn. injection Hn as <- <-.
    split; [apply Nat2Z.id|reflexivity]. }
  clear Hn. destruct Hn' as [-> ->].
  do 7 (apply bind_inv in H as (? & [] & Hm & H);
        cbv [modify_self] in Hm; injection Hm as <-).
  apply bind_inv in H as (w8 & pv_local & H8 & H).
  cbv iota in H8.
  apply bind_inv in H8 as (? & jobs & Hj & H8).
  cbv [lift] in Hj. injection Hj as <- _.
  apply bind_inv in H8 as (? & [] & Hm & H8).
  cbv [put_shared] in Hm. injection Hm as <-.
  apply bind_inv in H8 as (wb & [] & Hloop & H8).
  apply (stable_outcome _ _ _ _ _
           (workers_keep_self n_processes jobs)) in Hloop.
  unfold same in Hloop. cbn in Hloop.
  apply bind_inv in H8 as (? & a & Ha & H8).
  cbv [get_shared] in Ha. injection Ha as <- <-.
  apply bind_inv in H8 as (? & [] & Hm & H8).
  cbv [modify_self] in Hm. injection Hm as <-.
  cbv [ret] in H8. injection H8 as <- <-.
  change (-1 =? -1)%Z with true in H. cbv iota in H.
  change (negb (true || (-1 =? 1)%Z)) with false in H. cbv iota in H.
  apply bind_inv in H as (w9 & [] & H9 & H).
  apply bind_inv in H9 as (? & a & Ha & H9).
  cbv [pv_deref get_shared] in Ha. injection Ha as <- <-.
  apply bind_inv in H9 as (? & s & Hs & H9).
  cbv [get_self] in Hs. injection Hs as <- <-.
  apply bind_inv in H9 as (? & weights & Hw & H9).
  cbv [lift] in Hw. injection Hw as <- Hw.
  apply bind_inv in H9 as (? & e & He & H9).
  cbv [lift] in He. injection He as <- He.
  cbv [modify_self] in H9. injection H9 as <-.
  apply bind_inv in H as (? & [] & Hm & H).
  cbv [ret] in Hm. injection Hm as <-.
  apply (stable_outcome _ _ _ _ _ compute_gap_keeps_exhaustive_view) in H.
  unfold same, exhaustive_view in H. cbn in H, Hw.
  rewrite Hloop in H, Hw. cbn in H, Hw.
  injection H as Hpv Hepv Hidx Hnsp.
  apply dot_inv in He as [Hlen He].
  pose proof (comprehension_length _ _ _ Hw) as Hlw.
  rewrite range_length in Hlw.
  apply (weights_of_full_paths _ _ _ Hok3 (fun p Hp' => proj1 (Hin p) Hp'))
    in Hw.
  exists paths, (shared wb), e.
  rewrite Hpv, Hepv, Hidx, Hnsp.
  split; [reflexivity|].
  split; [intros p; rewrite <- Hfp; apply Hin|].
  split; [exact Hnd|].
  split; [reflexivity|].
  split; [reflexivity|].
  split; [lia|].
  split; [reflexivity|].
  split.
  - rewrite He.
    rewrite (path_facts.dot_sum_pointwise (weightOf_spec (MSP (self w3)))
               (shared wb) weights paths Hw).
    apply sum_Q_ext. intros vp _. rewrite Hws. reflexivity.
  - rewrite <- Htotal. apply sum_Q_ext. intros p _. rewrite Hws. reflexivity.
Qed.

Lemma exhaustive_run_computes_the_expected_policy_value_witness :
  let w := examples.fresh class_Evaluation (examples.chain3 (Some 1)) in
  let w' := fst (@run examples.toy (-1) 95 None None false None 2 w) in
  2%Z <> 1%Z /\
  cls (self w) = class_Evaluation /\
  (independent_ok (MSP (self w)) = true \/ chain_ok (MSP (self w)) = true) /\
  @run examples.toy (-1) 95 None None false None 2 w = (w', Ok tt) /\
  exists paths values e,
    sample_path_idx (self w') = Some paths /\
    (forall p, In p paths <-> full_path (MSP (self w)) p = true) /\
    NoDup paths /\
    n_sample_paths (self w') = Some (Z.of_nat (length paths)) /\
    pv (self w') = Some values /\
    length values = length paths /\
    epv (self w') = Some e /\
    e == sum_Q (map (fun vp => fst vp * weightOf_spec (MSP (self w)) (snd vp))
                    (combine values paths)) /\
    sum_Q (map (weightOf_spec (MSP (self w))) paths) == 1.
Proof.
  intros w w'.
  assert (Hp : 2%Z <> 1%Z) by lia.
  assert (Hok : independent_ok (MSP (self w)) = true \/
                chain_ok (MSP (self w)) = true) by (right; reflexivity).
  assert (H : @run examples.toy (-1) 95 None None false None 2 w = (w', Ok tt))
    by (vm_compute; reflexivity).
  split; [exact Hp|]. split; [reflexivity|]. split; [exact Hok|].
  split; [exact H|].
  exact (exhaustive_run_computes_the_expected_policy_value examples.toy 95 None
           None false None 2 w w' Hp eq_refl Hok H).
Defined.

End run_facts.
